(** * Distributed chat runtime: coordination stack

    A shallow embedding of the TypeScript classes of the repository
    - [Message], [ControlMessage], [Checkpoint]   (types/types.ts)
    - the logger's levels and lines               (utils/logger.ts)
    - [MutualExclusion]                           (the coordinator)
    - [MulticastCommunicator]                     (the transport)
    - [Replicator], [Reconciler]                  (replication)
    - [path.join]                                 (the platform's, POSIX)
    - [CheckpointManager]                         (fault tolerance)
    and of the wiring of coordinators to one multicast group that
    [index.ts] does (module [Group]), followed by the properties
    established about them.

    Conventions.  A JavaScript [number] that the code only ever uses as an
    integer counter or a millisecond clock is a [Z]; a [Set<string>] is a
    [gset string]; an array is a [list]; a method of a class with mutable
    fields is a computation in a small state-and-output monad over the
    record of the fields, whose output is the sequence of calls made to the
    logger and to the callbacks the object was constructed with. *)

From Stdlib Require Import ZArith Ascii Sorted Permutation DecimalString DecimalZ DecimalNat.
From stdpp Require Import gmap strings list.

Local Open Scope Z_scope.
#[local] Set Warnings "-clear-no-such-hyp".

(* ===================================================================== *)
(** * Part I: the embedding                                               *)
(* ===================================================================== *)

(** ** types.ts *)

Module Message.
(** [interface Message { id; origin; content; timestamp }] *)
Record t : Type := mk
  { id : string;
    origin : string;
    content : string;
    timestamp : Z }.

#[global] Instance eq_dec : EqDecision t.
Proof. solve_decision. Defined.
End Message.

Inductive ControlMessageType : Type := REQUEST | RESPONSE | RELEASE.

#[global] Instance ControlMessageType_eq_dec : EqDecision ControlMessageType.
Proof. solve_decision. Defined.

Module ControlMessage.
(** [interface ControlMessage { type; originNode; timestamp }]: there is
    no field naming an addressee. *)
Record t : Type := mk
  { type : ControlMessageType;
    originNode : string;
    timestamp : Z }.

#[global] Instance eq_dec : EqDecision t.
Proof. solve_decision. Defined.
End ControlMessage.

(** ** utils/logger.ts *)

Module Logger.
Inductive LogLevel : Type := DEBUG | INFO | WARNING | ERROR.

(** The template strings passed to the logger, one constructor per call
    site, carrying the values interpolated into the text. *)
Inductive LogLine : Type :=
| AlreadyWaiting (node : string)
| AlreadyHaving (node : string)
| Requesting (node : string) (ts : Z)
| NotHaving (node : string)
| Releasing (node : string)
| ReceivedRequest (node from : string) (ts : Z)
| AddedToQueue (node from : string)
| SendingResponse (node destination : string)
| ReceivedResponse (node from : string) (ts : Z)
| ResourceGranted
| ReceivedRelease (node from : string) (ts : Z)
| AddedKnownNode (node added : string)
| ReceivedMessage (from text : string)
| ErrorProcessingMessage (error : string)
| StartingReconciliation
| ReplicaMissing (replicaId count : nat)
| NoInconsistencies
| ReconciliationCompleted
| CheckpointCreated (checkpointId : string) (count : nat)
| ErrorCreatingCheckpoint (error : string)
| NoCheckpointsFound
| LastCheckpointFound (checkpointId : string) (count : nat)
| ErrorGettingLastCheckpoint (error : string)
| RecoveringState (checkpointId : string) (ts : Z).
End Logger.

(** ** Array.prototype.sort

  The platform's sort is stable (ECMAScript 2019) and, for a consistent
  comparator, its result is the one stable sorted arrangement of the
  array; insertion from the right computes that arrangement.  [cmp a b]
  is the comparator's number: negative when [a] goes first. *)

Module JsArray.
Section Sort.
Context {A : Type} (cmp : A → A → Z).

Fixpoint insert (x : A) (l : list A) : list A :=
  match l with
  | [] => [x]
  | y :: l' => if 0 <? cmp x y then y :: insert x l' else x :: l
  end.

Fixpoint sort (l : list A) : list A :=
  match l with
  | [] => []
  | x :: l' => insert x (sort l')
  end.
End Sort.
End JsArray.

(** ** modules/3mutualExclusion: class MutualExclusion *)

Module QueueEntry.
(** The element type of [queue]: [{nodeId: string, timestamp: number}]. *)
Record t : Type := mk { nodeId : string; timestamp : Z }.

#[global] Instance eq_dec : EqDecision t.
Proof. solve_decision. Defined.
End QueueEntry.

Module MutualExclusion.
Import Logger.

(** The private fields of the class.  The two callbacks are not fields
    here: a call to one of them is an [Effect] in the output. *)
Record t : Type := mk
  { nodeId : string;
    isResourceWaiting : bool;
    isResourceExisting : bool;
    timestamp : Z;
    queue : list QueueEntry.t;
    receivedMessages : gset string;
    knownNodes : gset string }.

Inductive Effect : Type :=
| Log (level : LogLevel) (line : LogLine)
| Send (message : ControlMessage.t)        (* this.sendCallback(message) *)
| ReceivedResource.                        (* this.receivedResourceCallback() *)

(** [new MutualExclusion(nodeId, sendCallback, receivedResourceCallback)] *)
Definition new (nodeId : string) : t :=
  {| nodeId := nodeId;
     isResourceWaiting := false;
     isResourceExisting := false;
     timestamp := 0;
     queue := [];
     receivedMessages := ∅;
     knownNodes := ∅ |}.

(** *** The monad of methods: state of the object, calls made so far *)

Definition Method (A : Type) : Type := t → A * t * list Effect.

#[global] Instance Method_ret : MRet Method := λ A x s, (x, s, []).
#[global] Instance Method_bind : MBind Method := λ A B f m s,
  let '(x, s1, out1) := m s in
  let '(y, s2, out2) := f x s1 in
  (y, s2, out1 ++ out2).

Definition this : Method t := λ s, (s, s, []).
Definition assign (f : t → t) : Method unit := λ s, (tt, f s, []).
Definition call (e : Effect) : Method unit := λ s, (tt, s, [e]).
Definition skip : Method unit := mret tt.

Definition set_isResourceWaiting (b : bool) (s : t) : t :=
  mk (nodeId s) b (isResourceExisting s) (timestamp s) (queue s)
     (receivedMessages s) (knownNodes s).
Definition set_isResourceExisting (b : bool) (s : t) : t :=
  mk (nodeId s) (isResourceWaiting s) b (timestamp s) (queue s)
     (receivedMessages s) (knownNodes s).
Definition set_timestamp (n : Z) (s : t) : t :=
  mk (nodeId s) (isResourceWaiting s) (isResourceExisting s) n (queue s)
     (receivedMessages s) (knownNodes s).
Definition set_queue (q : list QueueEntry.t) (s : t) : t :=
  mk (nodeId s) (isResourceWaiting s) (isResourceExisting s) (timestamp s) q
     (receivedMessages s) (knownNodes s).
Definition set_receivedMessages (r : gset string) (s : t) : t :=
  mk (nodeId s) (isResourceWaiting s) (isResourceExisting s) (timestamp s)
     (queue s) r (knownNodes s).
Definition set_knownNodes (k : gset string) (s : t) : t :=
  mk (nodeId s) (isResourceWaiting s) (isResourceExisting s) (timestamp s)
     (queue s) (receivedMessages s) k.

(** The state and the output of running a method, and the messages handed
  to [sendCallback] in an output. *)
Definition state_after {A} (r : A * t * list Effect) : t := snd (fst r).
Definition output {A} (r : A * t * list Effect) : list Effect := snd r.
Definition sent (out : list Effect) : list ControlMessage.t :=
  omap (λ e, match e with Send m => Some m | _ => None end) out.

Section Methods.
(** [String.prototype.localeCompare]: the platform's locale-sensitive
    collation, which is not the code-unit order of [<] on strings. *)
Variable localeCompare : string → string → Z.

(** [private giveResource()] *)
Definition giveResource : Method unit :=
  assign (set_isResourceExisting true);;
  assign (set_isResourceWaiting false);;
  call (Log INFO ResourceGranted);;
  call ReceivedResource.

(** [private verifyResponse()] *)
Definition verifyResponse : Method unit :=
  s ← this;
  if bool_decide (size (knownNodes s) ≤ size (receivedMessages s))%nat
  then giveResource
  else skip.

(** [private sendResponse(destination)]: [destination] reaches the
    debug log only. *)
Definition sendResponse (destination : string) : Method unit :=
  s ← this;
  let response :=
    ControlMessage.mk RESPONSE (nodeId s) (timestamp s) in
  call (Log DEBUG (SendingResponse (nodeId s) destination));;
  call (Send response).

(** [public requestResource()] *)
Definition requestResource : Method unit :=
  s ← this;
  if isResourceWaiting s then
    call (Log WARNING (AlreadyWaiting (nodeId s)))
  else if isResourceExisting s then
    call (Log WARNING (AlreadyHaving (nodeId s)))
  else
    assign (λ s, set_timestamp (timestamp s + 1) s);;
    assign (set_isResourceWaiting true);;
    assign (set_receivedMessages ∅);;
    s ← this;
    call (Log INFO (Requesting (nodeId s) (timestamp s)));;
    if bool_decide (size (knownNodes s) = 0%nat) then
      giveResource
    else
      let message :=
        ControlMessage.mk REQUEST (nodeId s) (timestamp s) in
      call (Send message);;
      verifyResponse.

(** The comparator handed to [this.queue.sort]. *)
Definition queue_compare (a b : QueueEntry.t) : Z :=
  if bool_decide (QueueEntry.timestamp a ≠ QueueEntry.timestamp b)
  then QueueEntry.timestamp a - QueueEntry.timestamp b
  else localeCompare (QueueEntry.nodeId a) (QueueEntry.nodeId b).

(** [while (this.queue.length > 0) { next = this.queue.shift(); ... }];
    [fuel] bounds the number of iterations. *)
Fixpoint processQueue_while (fuel : nat) : Method unit :=
  match fuel with
  | O => skip
  | S fuel' =>
      s ← this;
      match queue s with
      | [] => skip
      | next :: rest =>
          assign (set_queue rest);;
          sendResponse (QueueEntry.nodeId next);;
          processQueue_while fuel'
      end
  end.

(** [private processQueue()] *)
Definition processQueue : Method unit :=
  s ← this;
  (if bool_decide (0 < length (queue s))%nat
   then assign (set_queue (JsArray.sort queue_compare (queue s)))
   else skip);;
  s ← this;
  processQueue_while (length (queue s)).

(** [public releaseResource()] *)
Definition releaseResource : Method unit :=
  s ← this;
  if negb (isResourceExisting s) then
    call (Log WARNING (NotHaving (nodeId s)))
  else
    call (Log INFO (Releasing (nodeId s)));;
    assign (set_isResourceExisting false);;
    assign (set_isResourceWaiting false);;
    let message :=
      ControlMessage.mk RELEASE (nodeId s) (timestamp s) in
    call (Send message);;
    processQueue.

(** [private processRequest(message)].  In the condition [&&] binds
    tighter than [||]. *)
Definition processRequest (message : ControlMessage.t) : Method unit :=
  s ← this;
  call (Log DEBUG (ReceivedRequest (nodeId s)
          (ControlMessage.originNode message)
          (ControlMessage.timestamp message)));;
  if isResourceExisting s
     || isResourceWaiting s
        && ((timestamp s <? ControlMessage.timestamp message)
            || ((timestamp s =? ControlMessage.timestamp message)
                && String.ltb (nodeId s) (ControlMessage.originNode message)))
  then
    assign (λ s, set_queue
      (queue s ++ [QueueEntry.mk (ControlMessage.originNode message)
                                 (ControlMessage.timestamp message)]) s);;
    call (Log DEBUG (AddedToQueue (nodeId s)
            (ControlMessage.originNode message)))
  else
    sendResponse (ControlMessage.originNode message).

(** [private processResponse(message)] *)
Definition processResponse (message : ControlMessage.t) : Method unit :=
  s ← this;
  if negb (isResourceWaiting s) then skip
  else
    call (Log DEBUG (ReceivedResponse (nodeId s)
            (ControlMessage.originNode message)
            (ControlMessage.timestamp message)));;
    assign (λ s, set_receivedMessages
      ({[ControlMessage.originNode message]} ∪ receivedMessages s) s);;
    verifyResponse.

(** [private processRelease(message)] *)
Definition processRelease (message : ControlMessage.t) : Method unit :=
  s ← this;
  call (Log DEBUG (ReceivedRelease (nodeId s)
          (ControlMessage.originNode message)
          (ControlMessage.timestamp message)));;
  processQueue.

(** [public processMessage(message)] *)
Definition processMessage (message : ControlMessage.t) : Method unit :=
  assign (λ s, set_knownNodes
    ({[ControlMessage.originNode message]} ∪ knownNodes s) s);;
  match ControlMessage.type message with
  | REQUEST => processRequest message
  | RESPONSE => processResponse message
  | RELEASE => processRelease message
  end.

(** [public addKnownNode(nodeId)] *)
Definition addKnownNode (node : string) : Method unit :=
  s ← this;
  if bool_decide (node ≠ nodeId s) then
    assign (λ s, set_knownNodes ({[node]} ∪ knownNodes s) s);;
    call (Log DEBUG (AddedKnownNode (nodeId s) node))
  else skip.

(** [public getStatus()]: [{isWaiting, isExisting}] *)
Definition getStatus : Method (bool * bool) :=
  s ← this;
  mret (isResourceWaiting s, isResourceExisting s).
End Methods.
End MutualExclusion.

(** ** A group of nodes on one multicast address

  [index.ts] gives every coordinator the transport's [sendMessage] as its
  [sendCallback], and routes every inbound datagram that carries a [type]
  to [processMessage].  A datagram sent to the group address reaches the
  socket of every member, the sender's included; the receiving transport
  drops the ones whose [originNode] is its own node.  Datagrams in flight
  are never lost here; they may be delivered in any order. *)

Module Group.
Import MutualExclusion.

Record t : Type := mk
  { members : list MutualExclusion.t;
    wire : list (string * ControlMessage.t) }.   (* (receiving node, datagram) *)

Definition multicast (g : list MutualExclusion.t) (m : ControlMessage.t)
  : list (string * ControlMessage.t) :=
  map (λ n, (nodeId n, m)) g.

(** Run a method of the coordinator of [node]; what it hands to
    [sendCallback] goes on the wire. *)
Definition on_member (node : string) (method : Method unit) (w : t) : t :=
  let results :=
    map (λ n, if bool_decide (nodeId n = node) then method n else (tt, n, []))
        (members w) in
  mk (map state_after results)
     (wire w ++
      flat_map (λ r, flat_map (multicast (members w)) (sent (output r))) results).

Inductive Event : Type :=
| RequestResource (node : string)
| ReleaseResource (node : string)
| AddKnownNode (node other : string)
| Deliver (k : nat).                    (* the k-th datagram on the wire arrives *)

Section Run.
Variable localeCompare : string → string → Z.

(** The inbound path of the receiving node: self-suppression in the
    transport, then [mutualExclusion.processMessage]. *)
Definition inbound (receiver : string) (m : ControlMessage.t) : Method unit :=
  if bool_decide (ControlMessage.originNode m = receiver) then skip
  else processMessage localeCompare m.

Definition step (w : t) (e : Event) : t :=
  match e with
  | RequestResource n => on_member n requestResource w
  | ReleaseResource n => on_member n (releaseResource localeCompare) w
  | AddKnownNode n other => on_member n (addKnownNode other) w
  | Deliver k =>
      match wire w !! k with
      | Some (receiver, m) =>
          on_member receiver (inbound receiver m) (mk (members w) (delete k (wire w)))
      | None => w
      end
  end.

Definition run (events : list Event) (w : t) : t := foldl step w events.
End Run.

(** K freshly constructed nodes, nothing on the wire. *)
Definition start (ids : list string) : t := mk (map MutualExclusion.new ids) [].

(** The nodes that have the resource. *)
Definition holders (w : t) : list string :=
  map nodeId (filter (λ n, isResourceExisting n = true) (members w)).
Definition waiting (w : t) : list string :=
  map nodeId (filter (λ n, isResourceWaiting n = true) (members w)).
End Group.


(** ** Completions and the platform's JSON

    A JavaScript call either returns or throws. *)

Inductive Completion (A : Type) : Type :=
| Normal (a : A)
| Throw (error : string).
Arguments Normal {A} a.
Arguments Throw {A} error.

(** [JSON.parse] and [JSON.stringify] are the platform's.  The methods
    below take them as parameters; [Json.parse] and [Json.stringify] are a
    reference reader and printer for the JSON grammar with integer numerals
    and strings of 8-bit characters, used where a closed example needs the
    functions themselves. *)

Module Json.

#[local] Set Warnings "-register-all".

Inductive value : Type :=
| JNull
| JBool (b : bool)
| JNumber (n : Z)
| JString (s : string)
| JArray (items : list value)
| JObject (members : list (string * value)).

Fixpoint lookup_member (key : string) (members : list (string * value))
  : option value :=
  match members with
  | [] => None
  | (k, v) :: rest => if bool_decide (k = key) then Some v else lookup_member key rest
  end.

(** [data.key] for a key that no prototype defines: a [TypeError] on
    [null], the own property of an object, [undefined] ([None]) elsewhere. *)
Definition get (data : value) (key : string) : Completion (option value) :=
  match data with
  | JNull => Throw "TypeError: Cannot read properties of null"
  | JObject members => Normal (lookup_member key members)
  | _ => Normal None
  end.

(** [v === s] for a string [s]. *)
Definition strict_eq_string (v : option value) (s : string) : bool :=
  match v with
  | Some (JString s') => bool_decide (s' = s)
  | _ => false
  end.

(** [key in data]: a [TypeError] unless [data] is an object. *)
Definition has_key (key : string) (data : value) : Completion bool :=
  match data with
  | JObject members => Normal (bool_decide (key ∈ members.*1))
  | JArray _ => Normal false
  | _ => Throw "TypeError: Cannot use 'in' operator"
  end.

Definition code (c : ascii) : N := Ascii.N_of_ascii c.
Definition char (n : N) : ascii := Ascii.ascii_of_N n.
Definition quotation_mark : ascii := char 34.
Definition reverse_solidus : ascii := char 92.

(** *** Printer *)

Definition Number_toString (n : Z) : string :=
  DecimalString.NilZero.string_of_int (Z.to_int n).

Definition hex_digit (n : N) : ascii :=
  if (n <? 10)%N then char (48 + n) else char (87 + n).

Definition escape_char (c : ascii) : string :=
  let n := code c in
  if (n =? 34)%N then String reverse_solidus (String quotation_mark "")
  else if (n =? 92)%N then String reverse_solidus (String reverse_solidus "")
  else if (n =? 8)%N then String reverse_solidus "b"
  else if (n =? 12)%N then String reverse_solidus "f"
  else if (n =? 10)%N then String reverse_solidus "n"
  else if (n =? 13)%N then String reverse_solidus "r"
  else if (n =? 9)%N then String reverse_solidus "t"
  else if (n <? 32)%N then
    String reverse_solidus
      ("u00" +:+ String (hex_digit (n / 16)) (String (hex_digit (n mod 16)) ""))
  else String c "".

Fixpoint escape (s : string) : string :=
  match s with
  | EmptyString => EmptyString
  | String c r => escape_char c +:+ escape r
  end.

Definition quote (s : string) : string :=
  String quotation_mark (escape s +:+ String quotation_mark "").

Definition join (parts : list string) : string :=
  match parts with
  | [] => ""
  | p :: ps => foldl (λ acc q, acc +:+ "," +:+ q) p ps
  end.

Fixpoint stringify (v : value) : string :=
  match v with
  | JNull => "null"
  | JBool true => "true"
  | JBool false => "false"
  | JNumber n => Number_toString n
  | JString s => quote s
  | JArray items => "[" +:+ join (map stringify items) +:+ "]"
  | JObject members =>
      "{" +:+ join (map (λ kv, quote kv.1 +:+ ":" +:+ stringify kv.2) members) +:+ "}"
  end.

(** *** Reader *)

Fixpoint skip_ws (s : string) : string :=
  match s with
  | String c r =>
      let n := code c in
      if (n =? 32)%N || (n =? 9)%N || (n =? 10)%N || (n =? 13)%N
      then skip_ws r else s
  | EmptyString => s
  end.

Fixpoint strip_prefix (literal s : string) : option string :=
  match literal, s with
  | EmptyString, _ => Some s
  | String a l', String b s' => if Ascii.eqb a b then strip_prefix l' s' else None
  | String _ _, EmptyString => None
  end.

Definition digit (c : ascii) : option Z :=
  let n := code c in
  if (48 <=? n)%N && (n <=? 57)%N then Some (Z.of_N (n - 48)) else None.

Fixpoint digits (acc : Z) (s : string) : Z * string :=
  match s with
  | String c r =>
      match digit c with
      | Some d => digits (10 * acc + d) r
      | None => (acc, s)
      end
  | EmptyString => (acc, s)
  end.

(** An integer numeral; one with a fraction or an exponent is outside the
    integer model and is not read. *)
Definition parse_number (s : string) : option (Z * string) :=
  let '(negative, s1) :=
    match s with
    | String c r => if (code c =? 45)%N then (true, r) else (false, s)
    | EmptyString => (false, s)
    end in
  match s1 with
  | String c r =>
      d ← digit c;
      let '(n, rest) := if d =? 0 then (0, r) else digits d r in
      let integral :=
        match rest with
        | String c' _ =>
            negb ((code c' =? 46)%N || (code c' =? 101)%N || (code c' =? 69)%N)
        | EmptyString => true
        end in
      if integral then Some (if negative then - n else n, rest) else None
  | EmptyString => None
  end.

Definition hex_value (c : ascii) : option N :=
  let n := code c in
  if (48 <=? n)%N && (n <=? 57)%N then Some (n - 48)%N
  else if (97 <=? n)%N && (n <=? 102)%N then Some (n - 87)%N
  else if (65 <=? n)%N && (n <=? 70)%N then Some (n - 55)%N
  else None.

Definition unescape (c : ascii) : option ascii :=
  let n := code c in
  if (n =? 34)%N || (n =? 92)%N || (n =? 47)%N then Some c
  else if (n =? 98)%N then Some (char 8)
  else if (n =? 102)%N then Some (char 12)
  else if (n =? 110)%N then Some (char 10)
  else if (n =? 114)%N then Some (char 13)
  else if (n =? 116)%N then Some (char 9)
  else None.

(** The characters of a string literal after its opening quotation mark. *)
Fixpoint parse_string (s : string) : option (string * string) :=
  match s with
  | EmptyString => None
  | String c r =>
      if (code c =? 34)%N then Some (EmptyString, r)
      else if (code c =? 92)%N then
        match r with
        | String e r' =>
            match unescape e with
            | Some ch => '(body, rest) ← parse_string r'; Some (String ch body, rest)
            | None =>
                match r' with
                | String h1 (String h2 (String h3 (String h4 r''))) =>
                    if (code e =? 117)%N then
                      a ← hex_value h1; b ← hex_value h2;
                      c1 ← hex_value h3; c0 ← hex_value h4;
                      if (a =? 0)%N && (b =? 0)%N then
                        '(body, rest) ← parse_string r'';
                        Some (String (char (16 * c1 + c0)) body, rest)
                      else None
                    else None
                | _ => None
                end
            end
        | EmptyString => None
        end
      else if (code c <? 32)%N then None
      else '(body, rest) ← parse_string r; Some (String c body, rest)
  end.

(** A later member replaces an earlier one of the same key. *)
Fixpoint set_member (k : string) (v : value) (members : list (string * value))
  : list (string * value) :=
  match members with
  | [] => [(k, v)]
  | (k', v') :: rest =>
      if bool_decide (k' = k) then (k, v) :: rest else (k', v') :: set_member k v rest
  end.

Fixpoint parse_value (fuel : nat) (s : string) {struct fuel}
  : option (value * string) :=
  match fuel with
  | O => None
  | S fuel' =>
      match skip_ws s with
      | EmptyString => None
      | String c r =>
          let n := code c in
          if (n =? 110)%N then r' ← strip_prefix "ull" r; Some (JNull, r')
          else if (n =? 116)%N then r' ← strip_prefix "rue" r; Some (JBool true, r')
          else if (n =? 102)%N then r' ← strip_prefix "alse" r; Some (JBool false, r')
          else if (n =? 34)%N then '(b, r') ← parse_string r; Some (JString b, r')
          else if (n =? 91)%N then
            match skip_ws r with
            | String c2 r2 =>
                if (code c2 =? 93)%N then Some (JArray [], r2)
                else '(vs, r') ← parse_elements fuel' r; Some (JArray vs, r')
            | EmptyString => None
            end
          else if (n =? 123)%N then
            match skip_ws r with
            | String c2 r2 =>
                if (code c2 =? 125)%N then Some (JObject [], r2)
                else '(ms, r') ← parse_members fuel' [] r; Some (JObject ms, r')
            | EmptyString => None
            end
          else '(z, r') ← parse_number (String c r); Some (JNumber z, r')
      end
  end
with parse_elements (fuel : nat) (s : string) {struct fuel}
  : option (list value * string) :=
  match fuel with
  | O => None
  | S fuel' =>
      '(v, r) ← parse_value fuel' s;
      match skip_ws r with
      | String c r' =>
          if (code c =? 44)%N then
            '(vs, r'') ← parse_elements fuel' r'; Some (v :: vs, r'')
          else if (code c =? 93)%N then Some ([v], r')
          else None
      | EmptyString => None
      end
  end
with parse_members (fuel : nat) (acc : list (string * value)) (s : string)
  {struct fuel} : option (list (string * value) * string) :=
  match fuel with
  | O => None
  | S fuel' =>
      match skip_ws s with
      | String q r0 =>
          if (code q =? 34)%N then
            '(k, r1) ← parse_string r0;
            match skip_ws r1 with
            | String colon r2 =>
                if (code colon =? 58)%N then
                  '(v, r3) ← parse_value fuel' r2;
                  let acc' := set_member k v acc in
                  match skip_ws r3 with
                  | String c r4 =>
                      if (code c =? 44)%N then parse_members fuel' acc' r4
                      else if (code c =? 125)%N then Some (acc', r4)
                      else None
                  | EmptyString => None
                  end
                else None
            | EmptyString => None
            end
          else None
      | EmptyString => None
      end
  end.

Definition parse (text : string) : Completion value :=
  match parse_value (2 * S (String.length text)) text with
  | Some (v, rest) =>
      match skip_ws rest with
      | EmptyString => Normal v
      | String _ _ => Throw "SyntaxError: Unexpected non-whitespace character after JSON"
      end
  | None => Throw "SyntaxError: Unexpected token"
  end.

(** *** The shapes of types.ts as JSON values *)

Definition of_message (m : Message.t) : value :=
  JObject [("id", JString (Message.id m)); ("origin", JString (Message.origin m));
           ("content", JString (Message.content m));
           ("timestamp", JNumber (Message.timestamp m))].

Definition type_name (ty : ControlMessageType) : string :=
  match ty with REQUEST => "REQUEST" | RESPONSE => "RESPONSE" | RELEASE => "RELEASE" end.

Definition of_control (m : ControlMessage.t) : value :=
  JObject [("type", JString (type_name (ControlMessage.type m)));
           ("originNode", JString (ControlMessage.originNode m));
           ("timestamp", JNumber (ControlMessage.timestamp m))].

Definition to_message (v : value) : option Message.t :=
  match v with
  | JObject [(k1, JString i); (k2, JString o); (k3, JString c); (k4, JNumber ts)] =>
      if bool_decide (k1 = "id" ∧ k2 = "origin" ∧ k3 = "content" ∧ k4 = "timestamp")
      then Some (Message.mk i o c ts) else None
  | _ => None
  end.

(** [JSON.stringify(messages)] and [JSON.parse(data)] at type [Message[]]. *)
Definition stringify_messages (messages : list Message.t) : string :=
  stringify (JArray (map of_message messages)).

Definition parse_messages (data : string) : Completion (list Message.t) :=
  match parse data with
  | Normal (JArray items) =>
      match mapM to_message items with
      | Some messages => Normal messages
      | None => Throw "not an array of messages"
      end
  | Normal _ => Throw "not an array of messages"
  | Throw e => Throw e
  end.

End Json.

(** ** modules/1multicast/multicast.ts: class MulticastCommunicator *)

Module MulticastCommunicator.
Import Logger.

Inductive Effect : Type :=
| Log (level : LogLevel) (line : LogLine)
| MessageCallback (data : Json.value).          (* this.messageCallback(data) *)

(** A block of statements: the calls it made, and how it completed. *)
Definition Block (A : Type) : Type := Completion A * list Effect.

#[global] Instance Block_ret : MRet Block := λ A x, (Normal x, []).
#[global] Instance Block_bind : MBind Block := λ A B f m,
  match m with
  | (Normal x, out) => let '(c, out') := f x in (c, out ++ out')
  | (Throw e, out) => (Throw e, out)
  end.

Definition eval {A} (c : Completion A) : Block A := (c, []).
Definition log (level : LogLevel) (line : LogLine) : Block unit :=
  (Normal tt, [Log level line]).

(** [try { body } catch (error) { handler }] *)
Definition try_catch (body : Block unit) (handler : string → Block unit) : Block unit :=
  match body with
  | (Normal x, out) => (Normal x, out)
  | (Throw e, out) => let '(c, out') := handler e in (c, out ++ out')
  end.

Section Socket.
Variable nodeId : string.
(** How the registered handler completes on a payload. *)
Variable messageCallback : Json.value → Completion unit.
Variable JSON_parse : string → Completion Json.value.

Definition invoke_messageCallback (data : Json.value) : Block unit :=
  (messageCallback data, [MessageCallback data]).

(** [this.socket.on('message', (msg, info) => { ... })]; [msg] is the text
    of the datagram, [info] the sender's address and port as logged. *)
Definition on_message (msg info : string) : Block unit :=
  try_catch
    (data ← eval (JSON_parse msg);
     origin ← eval (Json.get data "origin");
     own ← (if Json.strict_eq_string origin nodeId then mret true
            else originNode ← eval (Json.get data "originNode");
                 mret (Json.strict_eq_string originNode nodeId));
     if own : bool then mret tt
     else
       log DEBUG (ReceivedMessage info msg);;
       invoke_messageCallback data)
    (λ error, log ERROR (ErrorProcessingMessage error)).
End Socket.

(** The payloads handed to the handler, and the errors logged. *)
Definition dispatched (out : list Effect) : list Json.value :=
  omap (λ e, match e with MessageCallback d => Some d | _ => None end) out.
Definition errors (out : list Effect) : list string :=
  omap (λ e, match e with Log ERROR (ErrorProcessingMessage x) => Some x | _ => None end) out.

End MulticastCommunicator.

(** ** An insertion-ordered [Map<string, V>] *)

Module JsMap.
Section Map.
Context {V : Type}.

Definition has (m : list (string * V)) (k : string) : bool := bool_decide (k ∈ m.*1).

Fixpoint get (m : list (string * V)) (k : string) : option V :=
  match m with
  | [] => None
  | (k', v) :: rest => if bool_decide (k' = k) then Some v else get rest k
  end.

(** [set] keeps the place of a key that is already there. *)
Fixpoint set (m : list (string * V)) (k : string) (v : V) : list (string * V) :=
  match m with
  | [] => [(k, v)]
  | (k', v') :: rest =>
      if bool_decide (k' = k) then (k, v) :: rest else (k', v') :: set rest k v
  end.

Definition values (m : list (string * V)) : list V := m.*2.
End Map.
End JsMap.

(** ** [path.join] (POSIX)

    A path is the list of its names from the root, innermost first.  A
    relative path is taken from the working directory, which is the root
    here; symbolic links are left out, so that the names [path.join] leaves
    are the ones the file system follows. *)

Module Path.

Definition slash : ascii := Ascii.ascii_of_N 47.
Definition NUL : ascii := Ascii.ascii_of_N 0.

(** [s.includes(c)] *)
Fixpoint has (c : ascii) (s : string) : bool :=
  match s with
  | EmptyString => false
  | String c' rest => Ascii.eqb c' c || has c rest
  end.

(** [s.split('/')] *)
Fixpoint split (s : string) : list string :=
  match s with
  | EmptyString => [EmptyString]
  | String c rest =>
      if Ascii.eqb c slash then EmptyString :: split rest
      else match split rest with
           | name :: names => String c name :: names
           | [] => [String c EmptyString]
           end
  end.

(** One name of a path followed from [directory]: an empty name and [.]
    stay, [..] goes to the parent (the root is its own parent), any other
    name goes down. *)
Definition step (directory : list string) (name : string) : list string :=
  if bool_decide (name = EmptyString) || bool_decide (name = ".") then directory
  else if bool_decide (name = "..") then tail directory
  else name :: directory.

(** [path.join(directory, p)]: the normalized path of [p] taken from
    [directory]. *)
Definition join (directory : list string) (p : string) : list string :=
  foldl step directory (split p).

(** [s] is one name a directory can hold: no ['/'], no NUL, not empty, not
    [.] or [..], and at most [NAME_MAX] bytes long. *)
Definition name (NAME_MAX : nat) (s : string) : bool :=
  negb (has slash s) && negb (has NUL s)
  && negb (bool_decide (s = EmptyString)) && negb (bool_decide (s = "."))
  && negb (bool_decide (s = ".."))
  && bool_decide (String.length s ≤ NAME_MAX)%nat.

End Path.

(** ** modules/2replication/replication.ts: class Replicator

    Of the file system the model keeps the directories [replica_<i>] that
    lie directly in [basePath]: a map from the number [i] to the directory,
    itself a map from the names of its files to their contents (the
    directories hold files only).  A file written by [saveMessage] holds
    the JSON text of a message; it is modelled by the message it encodes.
    What is written anywhere else is not kept. *)

Module Replicator.

Record t : Type := mk
  { basePath : string;
    replicasNumber : nat;
    maxDelay : Z }.

(** [`replica_${i}`] *)
Definition replica_name (i : nat) : string :=
  "replica_" +:+ DecimalString.NilZero.string_of_uint (Nat.to_uint i).

(** [path.join(this.basePath, `replica_${i}`)] *)
Definition replicaPath (r : t) (i : nat) : list string :=
  Path.join (Path.join [] (basePath r)) (replica_name i).

(** A write scheduled by [setTimeout]: [fs.writeFile] of [content] to
    [file] of [replica_<replica>] once its delay has elapsed. *)
Record Write : Type := mkWrite
  { replica : nat;
    file : string;
    content : Message.t }.

(** [String.prototype.endsWith] *)
Fixpoint endsWith (s suffix : string) : bool :=
  bool_decide (s = suffix)
  || match s with
     | String _ r => endsWith r suffix
     | EmptyString => false
     end.

(** [private initializeReplicas()] *)
Definition initializeReplicas (r : t) (disk : gmap nat (gmap string Message.t))
  : gmap nat (gmap string Message.t) :=
  foldl (λ d i, match d !! i with Some _ => d | None => <[i := ∅]> d end)
        disk (seq 1 (replicasNumber r)).

(** [public saveMessage(message)]: one timer per replica; the delays are
    drawn independently, so the writes may fire in any order. *)
Definition saveMessage (r : t) (message : Message.t) : list Write :=
  map (λ i, mkWrite i (Message.id message +:+ ".json") message)
      (seq 1 (replicasNumber r)).

Section Platform.
(** The longest name the file system takes, in bytes. *)
Variable NAME_MAX : nat.

(** A timer fires.  [filePath] is [path.join(replicaPath, file)], so a
    ['/'] or [..] in the file name leads out of [replica_<i>].
    [fs.writeFile] throws on a path with a NUL character.  Otherwise the
    file is created or overwritten in the directory [filePath] names, if
    that directory exists and takes the name; if not the write fails, the
    error is logged and nothing is written. *)
Definition writeFile (r : t) (disk : gmap nat (gmap string Message.t)) (w : Write)
  : Completion (gmap nat (gmap string Message.t)) :=
  let filePath := Path.join (replicaPath r (replica w)) (file w) in
  if existsb (Path.has Path.NUL) filePath
  then Throw "TypeError [ERR_INVALID_ARG_VALUE]: path must be without null bytes"
  else
    Normal
      match filePath with
      | name :: directory =>
          if bool_decide (String.length name ≤ NAME_MAX)%nat
          then map_imap (λ j dir,
                 Some (if bool_decide (replicaPath r j = directory)
                       then <[name := content w]> dir else dir)) disk
          else disk
      | [] => disk
      end.

(** The timers of [writes] fire in the order given.  An exception thrown
    in a timer is caught by nobody: the process ends there and the timers
    that are left never fire. *)
Fixpoint complete (r : t) (writes : list Write)
  (disk : gmap nat (gmap string Message.t)) : gmap nat (gmap string Message.t) :=
  match writes with
  | [] => disk
  | w :: rest =>
      match writeFile r disk w with
      | Normal disk' => complete r rest disk'
      | Throw _ => disk
      end
  end.
End Platform.

Section Read.
(** [fs.readdirSync]: the names in a directory, in the platform's order. *)
Variable readdirSync : gmap string Message.t → list string.

(** The loop over [files]; [None] when a read throws. *)
Fixpoint read_files (dir : gmap string Message.t) (files : list string)
  : option (list Message.t) :=
  match files with
  | [] => Some []
  | f :: rest =>
      if endsWith f ".json" then
        message ← dir !! f;
        messages ← read_files dir rest;
        Some (message :: messages)
      else read_files dir rest
  end.

(** [public getReplicaMessage(replicaNumber)] *)
Definition getReplicaMessage (disk : gmap nat (gmap string Message.t))
  (replicaNumber : nat) : list Message.t :=
  match disk !! replicaNumber with
  | None => []
  | Some dir =>
      match read_files dir (readdirSync dir) with
      | Some messages =>
          JsArray.sort (λ a b, Message.timestamp a - Message.timestamp b) messages
      | None => []
      end
  end.

(** [public getAllMessages()]: the entries of the [Map], in insertion order. *)
Definition getAllMessages (r : t) (disk : gmap nat (gmap string Message.t))
  : list (nat * list Message.t) :=
  map (λ i, (i, getReplicaMessage disk i)) (seq 1 (replicasNumber r)).
End Read.

End Replicator.

(** ** modules/2replication/reconciler.ts: class Reconciler *)

Module Reconciler.
Import Logger.

(** The body of the inner [forEach] of the first pass. *)
Definition merge (uniqueMessages : list (string * Message.t)) (message : Message.t)
  : list (string * Message.t) :=
  if negb (JsMap.has uniqueMessages (Message.id message))
     || match JsMap.get uniqueMessages (Message.id message) with
        | Some seen => Message.timestamp seen <? Message.timestamp message
        | None => false
        end
  then JsMap.set uniqueMessages (Message.id message) message
  else uniqueMessages.

Definition merge_all (allMessages : list (nat * list Message.t))
  : list (string * Message.t) :=
  foldl (λ u entry, foldl merge u entry.2) [] allMessages.

(** [missingMessages] of one replica. *)
Definition missingMessages (uniqueMessages : list (string * Message.t))
  (messages : list Message.t) : list Message.t :=
  let actualReplicaIds : gset string := list_to_set (map Message.id messages) in
  filter (λ m, Message.id m ∉ actualReplicaIds) (JsMap.values uniqueMessages).

Section Reconcile.
Variable readdirSync : gmap string Message.t → list string.

(** [public reconcile()]: the writes it schedules through
    [replicator.saveMessage], and the lines it logs. *)
Definition reconcile (replicator : Replicator.t)
  (disk : gmap nat (gmap string Message.t))
  : list Replicator.Write * list (LogLevel * LogLine) :=
  let allMessages := Replicator.getAllMessages readdirSync replicator disk in
  let uniqueMessages := merge_all allMessages in
  let passes :=
    map (λ entry : nat * list Message.t,
           let missing := missingMessages uniqueMessages entry.2 in
           if bool_decide (0 < length missing)%nat
           then (true,
                 flat_map (Replicator.saveMessage replicator) missing,
                 [(INFO, ReplicaMissing entry.1 (length missing))])
           else (false, [], []))
        allMessages in
  let foundedInconsistencies := existsb (λ p, p.1.1) passes in
  (flat_map (λ p, p.1.2) passes,
   [(INFO, StartingReconciliation)] ++ flat_map snd passes ++
   [(INFO, if foundedInconsistencies then ReconciliationCompleted else NoInconsistencies)]).

(** The ids of the messages [getReplicaMessage] finds in a replica. *)
Definition replica_ids (disk : gmap nat (gmap string Message.t)) (i : nat)
  : gset string :=
  list_to_set (map Message.id (Replicator.getReplicaMessage readdirSync disk i)).
End Reconcile.

End Reconciler.

(** ** modules/4 faultTolerance/checkpoint.ts: class CheckpointManager *)

Module Row.
(** A row of [checkpoints (id TEXT PRIMARY KEY, node_id, timestamp, data)]. *)
Record t : Type := mk
  { id : string;
    node_id : string;
    timestamp : Z;
    data : string }.

#[global] Instance eq_dec : EqDecision t.
Proof. solve_decision. Defined.
End Row.

Module Checkpoint.
(** [interface Checkpoint { id; messages; timestamp }] *)
Record t : Type := mk
  { id : string;
    messages : list Message.t;
    timestamp : Z }.
End Checkpoint.

Module CheckpointManager.
Import Logger.

(** The node's identifier and the table of its database file, in rowid
    order. *)
Record t : Type := mk
  { nodId : string;
    db : list Row.t }.

(** [INSERT INTO checkpoints ... VALUES (?, ?, ?, ?)]: the statement
    aborts, adding nothing, when the primary key is already there. *)
Definition insert (row : Row.t) (table : list Row.t) : Completion (list Row.t) :=
  if bool_decide (Row.id row ∈ map Row.id table)
  then Throw "SqliteError: UNIQUE constraint failed: checkpoints.id"
  else Normal (table ++ [row]).

(** [SELECT ... WHERE node_id = ? ORDER BY timestamp DESC LIMIT 1]; rows
    of equal timestamp are taken in rowid order. *)
Definition select_last (node : string) (table : list Row.t) : option Row.t :=
  head (JsArray.sort (λ a b, Row.timestamp b - Row.timestamp a)
          (filter (λ r, Row.node_id r = node) table)).

Section Methods.
Variable JSON_stringify : list Message.t → string.
Variable JSON_parse : string → Completion (list Message.t).

(** [public createCheckpoint()]; [messages] is what
    [this.getCallbackMessages()] returns and [now] what [Date.now()] reads. *)
Definition createCheckpoint (messages : list Message.t) (now : Z) (s : t)
  : string * t * list (LogLevel * LogLine) :=
  let timestamp := now in
  let checkpointId := nodId s +:+ "-" +:+ Json.Number_toString timestamp in
  let checkpoint := Checkpoint.mk checkpointId messages timestamp in
  match insert (Row.mk checkpointId (nodId s) timestamp
                  (JSON_stringify (Checkpoint.messages checkpoint))) (db s) with
  | Normal table =>
      (checkpointId, mk (nodId s) table,
       [(INFO, CheckpointCreated checkpointId (length messages))])
  | Throw e => ("", s, [(ERROR, ErrorCreatingCheckpoint e)])
  end.

(** [public getLastCheckpoint()] *)
Definition getLastCheckpoint (s : t)
  : option Checkpoint.t * list (LogLevel * LogLine) :=
  match select_last (nodId s) (db s) with
  | None => (None, [(INFO, NoCheckpointsFound)])
  | Some row =>
      match JSON_parse (Row.data row) with
      | Normal messages =>
          let checkpoint := Checkpoint.mk (Row.id row) messages (Row.timestamp row) in
          (Some checkpoint,
           [(INFO, LastCheckpointFound (Checkpoint.id checkpoint)
                     (length (Checkpoint.messages checkpoint)))])
      | Throw e => (None, [(ERROR, ErrorGettingLastCheckpoint e)])
      end
  end.

(** [public recoverState()] *)
Definition recoverState (s : t) : list Message.t * list (LogLevel * LogLine) :=
  let '(checkpoint, out) := getLastCheckpoint s in
  match checkpoint with
  | None => ([], out ++ [(INFO, NoCheckpointsFound)])
  | Some checkpoint =>
      (Checkpoint.messages checkpoint,
       out ++ [(INFO, RecoveringState (Checkpoint.id checkpoint)
                        (Checkpoint.timestamp checkpoint))])
  end.
End Methods.

End CheckpointManager.

(** ** checkpoint.ts, continued: listing the checkpoints *)

Module CheckpointInfo.
(** An element of what [listCheckpoints] returns:
    [{id: string, timestamp: number, messagesQtd: number}]. *)
Record t : Type := mk
  { id : string;
    timestamp : Z;
    messagesQtd : nat }.
End CheckpointInfo.

Module CheckpointListing.
Import Logger.

(** [SELECT id, timestamp, data ... WHERE node_id = ? ORDER BY timestamp
    DESC], all rows; rows of equal timestamp are taken in rowid order. *)
Definition select_all (node : string) (table : list Row.t) : list Row.t :=
  JsArray.sort (λ a b, Row.timestamp b - Row.timestamp a)
    (filter (λ r, Row.node_id r = node) table).

Section Methods.
Variable JSON_parse : string → Completion (list Message.t).

(** [rows.map((row) => ({..., messagesQtd: JSON.parse(row.data).length}))]:
    the first row whose data does not parse throws. *)
Fixpoint describe (rows : list Row.t) : Completion (list CheckpointInfo.t) :=
  match rows with
  | [] => Normal []
  | row :: rest =>
      match JSON_parse (Row.data row) with
      | Throw e => Throw e
      | Normal messages =>
          match describe rest with
          | Throw e => Throw e
          | Normal infos =>
              Normal (CheckpointInfo.mk (Row.id row) (Row.timestamp row)
                        (length messages) :: infos)
          end
      end
  end.

(** [public listCheckpoints()]: the list, and the error logged if any. *)
Definition listCheckpoints (s : CheckpointManager.t)
  : list CheckpointInfo.t * list (LogLevel * string) :=
  match describe (select_all (CheckpointManager.nodId s) (CheckpointManager.db s)) with
  | Normal infos => (infos, [])
  | Throw e => ([], [(ERROR, "Error listing checkpoints: " +:+ e)])
  end.
End Methods.
End CheckpointListing.

(** ** Interval timers: [Reconciler.start/stop], [CheckpointManager.init/stop]

    The platform keeps the intervals that are running; [setInterval] hands
    out a handle never handed out before and [clearInterval] stops the
    interval of a handle. *)

Module Timers.
Inductive Task : Type :=
| Reconcile            (* () => this.reconcile() *)
| CreateCheckpoint.    (* () => this.createCheckpoint() *)

Record t : Type := mk
  { next : nat;                          (* the next handle *)
    running : list (nat * Task * Z) }.   (* handle, callback, period in ms *)

Definition setInterval (task : Task) (ms : Z) (timers : t) : nat * t :=
  (next timers, mk (S (next timers)) (running timers ++ [(next timers, task, ms)])).

Definition clearInterval (handle : nat) (timers : t) : t :=
  mk (next timers) (filter (λ entry, entry.1.1 ≠ handle) (running timers)).
End Timers.

Module Lifecycle.
Import Logger.

(** The fields [intervalId] and the period of either class, with the
    platform's timers. *)
Record t : Type := mk
  { intervalId : option nat;
    period : Z;
    timers : Timers.t }.

(** The lines the four methods log: "Starting ... with interval of
    [ms]ms" and "... stopped". *)
Inductive Line : Type :=
| Starting (task : Timers.Task) (ms : Z)
| Stopped (task : Timers.Task).

(** [Reconciler.start()] and [CheckpointManager.init()]: the handle of an
    interval already started is overwritten, not cleared. *)
Definition start (task : Timers.Task) (s : t) : t * list (LogLevel * Line) :=
  let '(handle, timers') := Timers.setInterval task (period s) (timers s) in
  (mk (Some handle) (period s) timers', [(INFO, Starting task (period s))]).

(** [stop()] of either class. *)
Definition stop (task : Timers.Task) (s : t) : t * list (LogLevel * Line) :=
  match intervalId s with
  | Some handle =>
      (mk None (period s) (Timers.clearInterval handle (timers s)),
       [(INFO, Stopped task)])
  | None => (s, [])
  end.
End Lifecycle.

(** ** utils/logger.ts: the level filter and the time stamp *)

Module LogFilter.
Import Logger.

(** The numeric values of [enum LogLevel]. *)
Definition value (level : LogLevel) : Z :=
  match level with DEBUG => 0 | INFO => 1 | WARNING => 2 | ERROR => 3 end.

Definition tag (level : LogLevel) : string :=
  match level with
  | DEBUG => "DEBUG" | INFO => "INFO" | WARNING => "WARN" | ERROR => "ERROR"
  end.

(** [String.prototype.replace] with a one-character pattern: the first
    occurrence only. *)
Fixpoint replace_first (pattern replacement : ascii) (s : string) : string :=
  match s with
  | EmptyString => EmptyString
  | String c rest =>
      if Ascii.eqb c pattern then String replacement rest
      else String c (replace_first pattern replacement rest)
  end.

(** [s.slice(0, n)] *)
Fixpoint slice_to (n : nat) (s : string) : string :=
  match n, s with
  | S n', String c rest => String c (slice_to n' rest)
  | _, _ => EmptyString
  end.

(** [getTimestamp()], of the ISO text of the current instant. *)
Definition getTimestamp (toISOString : string) : string :=
  slice_to 19 (replace_first (Ascii.ascii_of_N 84) (Ascii.ascii_of_N 32) toISOString).

(** [logDebug], [logInfo], [logWarning], [logError]: what goes to
    [console.log], the colour apart. *)
Definition log (level : LogLevel) (currentLogLevel : LogLevel)
  (toISOString message : string) : list string :=
  if value currentLogLevel <=? value level
  then ["[" +:+ getTimestamp toISOString +:+ "] [" +:+ tag level +:+ "] " +:+ message]
  else [].

(** index.ts: [process.env.DEBUG === 'true'] chooses the level. *)
Definition configured_level (env_DEBUG : option string) : LogLevel :=
  if bool_decide (env_DEBUG = Some "true") then DEBUG else INFO.
End LogFilter.

(** ** index.ts: [processMessage], [simulateCrash] and the restart it schedules

    The message log, the checkpoint manager, and the calls made to the
    other services. *)

Module Node.
Import Logger.

Record t : Type := mk
  { receivedMessages : list Message.t;
    checkpointManager : CheckpointManager.t }.

Inductive Effect : Type :=
| MulticastStop | ReconcilerStop | CheckpointManagerStop
| MulticastStart | ReconcilerStart | CheckpointManagerInit
| SetTimeoutRestart (ms : Z)
| FailureDetected                    (* logWarning('SIMULATION: Failure detected...') *)
| Restarting                         (* logWarning('SIMULATION: Restarting after failure...') *)
| RecoveryCompleted (restored : nat) (* logInfo(`Recovery completed. ${n} messages ...`) *)
| Log (level : LogLevel) (line : LogLine)
| MutualExclusionProcessMessage (data : ControlMessage.t)
| Display (data : Message.t)         (* console.log(`\n${data.origin}: ${data.content}`) *)
| ReplicatorSaveMessage (data : Message.t).

(** How a call completes, the state it leaves and the calls it made. *)
Definition Result : Type := Completion unit * t * list Effect.

Section Functions.
Variable JSON_stringify : list Message.t → string.
Variable JSON_parse : string → Completion (list Message.t).

(** [multicast.stop()] drops the membership of the socket and closes it,
    [multicast.start()] binds it; each returns or throws, by the state the
    socket is in.  How the call made here completes is given. *)
Variable multicast_stop : Completion unit.
Variable multicast_start : Completion unit.

(** [mutualExclusion.processMessage(data)] may run the grant callback
    [resourceAcquired], which asks for a line on the terminal and then
    sends, appends to the log and replicates.  What the call made here does
    is given. *)
Variable mutualExclusion_processMessage : ControlMessage.t → t → Result.

(** [simulateCrash()]; [now] is what [Date.now()] reads inside
    [createCheckpoint], whose snapshot callback copies the log.  An
    exception of [multicast.stop()] leaves the function there. *)
Definition simulateCrash (now : Z) (s : t) : Result :=
  let '(checkpointId, manager, out) :=
    CheckpointManager.createCheckpoint JSON_stringify (receivedMessages s) now
      (checkpointManager s) in
  let called := [FailureDetected] ++ map (λ l, Log l.1 l.2) out ++ [MulticastStop] in
  match multicast_stop with
  | Throw e => (Throw e, mk (receivedMessages s) manager, called)
  | Normal _ =>
      (Normal tt, mk [] manager,
       called ++ [ReconcilerStop; CheckpointManagerStop; SetTimeoutRestart 2000])
  end.

(** [processMessage(data)], the handler given to the transport, on a chat
    message or a control message; [failure] is what [simulateFailure()]
    returns if it is called, and [now] what the clock reads if the crash
    takes its checkpoint. *)
Definition processMessage (failure : bool) (now : Z)
  (data : Message.t + ControlMessage.t) (s : t) : Result :=
  match data with
  | inr control => mutualExclusion_processMessage control s
  | inl data =>
      let messageExists :=
        existsb (λ m, bool_decide (Message.id m = Message.id data)) (receivedMessages s) in
      if messageExists then (Normal tt, s, [])
      else
        let s1 := mk (receivedMessages s ++ [data]) (checkpointManager s) in
        let out := [Display data; ReplicatorSaveMessage data] in
        if failure
        then let '(c, s2, out2) := simulateCrash now s1 in (c, s2, out ++ out2)
        else (Normal tt, s1, out)
  end.

(** The callback of the [setTimeout] of [simulateCrash].  An exception of
    [multicast.start()] leaves it there, after the log was restored. *)
Definition restart (s : t) : Result :=
  let '(recoveredMessages, out) :=
    CheckpointManager.recoverState JSON_parse (checkpointManager s) in
  let s1 := mk (receivedMessages s ++ recoveredMessages) (checkpointManager s) in
  let called := [Restarting] ++ map (λ l, Log l.1 l.2) out ++ [MulticastStart] in
  match multicast_start with
  | Throw e => (Throw e, s1, called)
  | Normal _ =>
      (Normal tt, s1,
       called ++ [ReconcilerStart; CheckpointManagerInit;
                  RecoveryCompleted (length recoveredMessages)])
  end.
End Functions.

(** The three components of a result. *)
Definition completion (r : Result) : Completion unit := r.1.1.
Definition state (r : Result) : t := r.1.2.
Definition calls (r : Result) : list Effect := r.2.
End Node.

(** ** multicast.ts, continued: [sendMessage] *)

Module MulticastOutbound.
Import Logger.

Inductive Line : Type :=
| ErrorSendingMessage (error : string)
| SentMessage (text : string).

(** [public sendMessage(msg)]: the text of the datagram handed to the
    socket, and what the completion callback of [socket.send] logs; [err]
    is the error the socket reports, if any. *)
Definition sendMessage (JSON_stringify : Json.value → string) (msg : Json.value)
  (err : option string) : string * list (LogLevel * Line) :=
  (JSON_stringify msg,
   match err with
   | Some e => [(ERROR, ErrorSendingMessage e)]
   | None => [(DEBUG, SentMessage (JSON_stringify msg))]
   end).
End MulticastOutbound.

(* ===================================================================== *)
(** * Part II: properties                                                 *)
(* ===================================================================== *)

(** ** The platform's sort *)

Section SortFacts.
Context {A : Type} (cmp : A → A → Z).

Lemma insert_perm (x : A) (l : list A) : JsArray.insert cmp x l ≡ₚ x :: l.
Proof.
  induction l as [|y l IH]; simpl; [done|].
  destruct (0 <? cmp x y); [|done].
  rewrite IH. apply Permutation_swap.
Qed.

Lemma sort_perm (l : list A) : JsArray.sort cmp l ≡ₚ l.
Proof.
  induction l as [|x l IH]; simpl; [done|].
  by rewrite insert_perm, IH.
Qed.

Lemma sort_length (l : list A) : length (JsArray.sort cmp l) = length l.
Proof. apply Permutation_length, sort_perm. Qed.

(** A comparator is consistent when "not after" is total and transitive. *)
Definition not_after (a b : A) : Prop := cmp a b ≤ 0.

Hypothesis cmp_total : ∀ a b, 0 < cmp a b → cmp b a ≤ 0.
Hypothesis cmp_trans : ∀ a b c, cmp a b ≤ 0 → cmp b c ≤ 0 → cmp a c ≤ 0.

Lemma insert_sorted (x : A) (l : list A) :
  StronglySorted not_after l → StronglySorted not_after (JsArray.insert cmp x l).
Proof.
  induction 1 as [|y l Hl IH Hy]; simpl.
  - repeat constructor.
  - destruct (Z.ltb_spec 0 (cmp x y)) as [Hlt|Hge].
    + constructor; [done|].
      rewrite insert_perm. constructor; [|done].
      by apply cmp_total.
    + constructor; [by constructor|].
      constructor; [done|].
      eapply Forall_impl; [exact Hy|].
      intros z Hz. eapply cmp_trans; [|exact Hz]. done.
Qed.

Lemma sort_sorted (l : list A) : StronglySorted not_after (JsArray.sort cmp l).
Proof.
  induction l as [|x l IH]; simpl; [constructor|].
  by apply insert_sorted.
Qed.
End SortFacts.

(** ** The coordinator *)

Section Coordinator.
Import Logger MutualExclusion.
Variable localeCompare : string → string → Z.

(** Unfolds the methods down to the state and output they compute. *)
Ltac run_method :=
  cbv [requestResource releaseResource processRequest processResponse
       processRelease processMessage processQueue addKnownNode giveResource
       verifyResponse sendResponse this assign call skip mbind mret
       Method_bind Method_ret state_after output
       set_isResourceWaiting set_isResourceExisting set_timestamp set_queue
       set_receivedMessages set_knownNodes
       isResourceWaiting isResourceExisting nodeId timestamp queue
       receivedMessages knownNodes fst snd negb];
  cbn [app].

(** What the sender says, for each deferred requester served. *)
Definition serve (s : MutualExclusion.t) (e : QueueEntry.t) : list Effect :=
  [Log DEBUG (SendingResponse (nodeId s) (QueueEntry.nodeId e));
   Send (ControlMessage.mk RESPONSE (nodeId s) (timestamp s))].

Lemma processQueue_while_drains (q : list QueueEntry.t) :
  ∀ (s : MutualExclusion.t) (fuel : nat),
    queue s = q → (length q ≤ fuel)%nat →
    processQueue_while fuel s = (tt, set_queue [] s, flat_map (serve s) q).
Proof.
  induction q as [|next rest IH]; intros [n w e ts q' r k] fuel Hq Hfuel;
    simpl in Hq; subst q'.
  - destruct fuel; reflexivity.
  - destruct fuel as [|fuel]; [simpl in Hfuel; lia|].
    cbn [processQueue_while]. run_method.
    rewrite (IH (mk n w e ts rest r k) fuel eq_refl) by (simpl in Hfuel; lia).
    reflexivity.
Qed.

Lemma processQueue_spec (s : MutualExclusion.t) :
  processQueue localeCompare s =
    (tt, set_queue [] s,
     flat_map (serve s) (JsArray.sort (queue_compare localeCompare) (queue s))).
Proof.
  destruct s as [n w e ts q r k]. run_method.
  destruct q as [|a q].
  - reflexivity.
  - rewrite bool_decide_true by (simpl; lia).
    cbn [fst snd app queue set_queue].
    erewrite processQueue_while_drains; [reflexivity|reflexivity|done].
Qed.

(** *** Processing a REQUEST *)

(** The local request goes first: smaller timestamp, or the same timestamp
    and the smaller identifier. *)
Definition local_priority (s : MutualExclusion.t) (m : ControlMessage.t) : Prop :=
  timestamp s < ControlMessage.timestamp m
  ∨ (timestamp s = ControlMessage.timestamp m
     ∧ (nodeId s ?= ControlMessage.originNode m)%string = Lt).

(** The requester is put at the end of the queue and nothing is sent. *)
Definition deferred (s : MutualExclusion.t) (m : ControlMessage.t) : Prop :=
  let r := processRequest m s in
  state_after r =
    set_queue (queue s ++ [QueueEntry.mk (ControlMessage.originNode m)
                                         (ControlMessage.timestamp m)]) s
  ∧ sent (output r) = [].

(** A RESPONSE is sent at once and the state stays as it is. *)
Definition replied (s : MutualExclusion.t) (m : ControlMessage.t) : Prop :=
  let r := processRequest m s in
  state_after r = s
  ∧ sent (output r) = [ControlMessage.mk RESPONSE (nodeId s) (timestamp s)].

Lemma local_priority_test (s : MutualExclusion.t) (m : ControlMessage.t) :
  local_priority s m ↔
  (timestamp s <? ControlMessage.timestamp m)
  || ((timestamp s =? ControlMessage.timestamp m)
      && String.ltb (nodeId s) (ControlMessage.originNode m)) = true.
Proof.
  unfold local_priority, String.ltb.
  rewrite orb_true_iff, andb_true_iff, Z.ltb_lt, Z.eqb_eq.
  destruct (nodeId s ?= ControlMessage.originNode m)%string; intuition congruence.
Qed.

Lemma not_both (s : MutualExclusion.t) (m : ControlMessage.t) :
  deferred s m → replied s m → False.
Proof. intros [_ H1] [_ H2]. rewrite H1 in H2. discriminate. Qed.

Lemma processRequest_cases (s : MutualExclusion.t) (m : ControlMessage.t) :
  (if isResourceExisting s
      || isResourceWaiting s
         && ((timestamp s <? ControlMessage.timestamp m)
             || ((timestamp s =? ControlMessage.timestamp m)
                 && String.ltb (nodeId s) (ControlMessage.originNode m)))
   then deferred s m else replied s m).
Proof.
  unfold deferred, replied. destruct s as [n w e ts q r k]. run_method.
  destruct (e || w && _); run_method; split; reflexivity.
Qed.

(** C2, as the code has it: a node that is neither holding nor waiting
    replies at once; a node that holds the resource always enqueues the
    requester, whatever the timestamps; a node that is waiting without
    holding enqueues the requester exactly when the local request has
    priority, and replies at once otherwise. *)
Theorem processRequest_decision (s : MutualExclusion.t) (m : ControlMessage.t) :
  (isResourceExisting s = false ∧ isResourceWaiting s = false → replied s m)
  ∧ (isResourceExisting s = true → deferred s m)
  ∧ (isResourceExisting s = false ∧ isResourceWaiting s = true →
       (deferred s m ↔ local_priority s m)
       ∧ (replied s m ↔ ¬ local_priority s m)).
Proof.
  pose proof (processRequest_cases s m) as Hc.
  pose proof (local_priority_test s m) as Hp.
  pose proof (not_both s m) as Hx.
  split; [|split].
  - intros [He Hw]. by rewrite He, Hw in Hc.
  - intros He. by rewrite He in Hc.
  - intros [He Hw]. rewrite He, Hw in Hc. simpl in Hc.
    destruct (_ || _) in Hc, Hp.
    + assert (local_priority s m) by (by apply Hp).
      split; split; try done; intros; exfalso; eauto.
    + assert (¬ local_priority s m) by (intros ?%Hp; done).
      split; split; try done; intros; exfalso; eauto.
Qed.

(** [processMessage] on a REQUEST records the sender, then decides as
    [processRequest] does. *)
Lemma processMessage_request (s : MutualExclusion.t) (m : ControlMessage.t) :
  ControlMessage.type m = REQUEST →
  processMessage localeCompare m s =
    processRequest m
      (set_knownNodes ({[ControlMessage.originNode m]} ∪ knownNodes s) s).
Proof.
  intros Hm. unfold processMessage. rewrite Hm.
  destruct s as [n w e ts q r k]. run_method.
  destruct (e || w && _); reflexivity.
Qed.

(** *** Calls out of turn *)

(** C4: [requestResource()] while waiting or holding, and
    [releaseResource()] while not holding, log one warning, send nothing
    and leave every field of the coordinator as it was. *)
Theorem calls_out_of_turn_change_nothing (s : MutualExclusion.t) :
  (isResourceWaiting s = true ∨ isResourceExisting s = true →
     state_after (requestResource s) = s
     ∧ sent (output (requestResource s)) = []
     ∧ (output (requestResource s) = [Log WARNING (AlreadyWaiting (nodeId s))]
        ∨ output (requestResource s) = [Log WARNING (AlreadyHaving (nodeId s))]))
  ∧ (isResourceExisting s = false →
     state_after (releaseResource localeCompare s) = s
     ∧ sent (output (releaseResource localeCompare s)) = []
     ∧ output (releaseResource localeCompare s) = [Log WARNING (NotHaving (nodeId s))]).
Proof.
  destruct s as [n w e ts q r k]. split.
  - run_method. intros [-> | ->]; [|destruct w]; run_method; auto.
  - run_method. intros ->. run_method. auto.
Qed.

(** *** Releasing *)

(** Ascending [(timestamp, nodeId)] order of queue entries, identifiers
    compared by the collation. *)
Definition ascending (a b : QueueEntry.t) : Prop :=
  QueueEntry.timestamp a < QueueEntry.timestamp b
  ∨ (QueueEntry.timestamp a = QueueEntry.timestamp b
     ∧ localeCompare (QueueEntry.nodeId a) (QueueEntry.nodeId b) ≤ 0).

Lemma queue_compare_ascending (a b : QueueEntry.t) :
  queue_compare localeCompare a b ≤ 0 ↔ ascending a b.
Proof.
  unfold queue_compare, ascending. case_bool_decide; [lia|].
  assert (QueueEntry.timestamp a = QueueEntry.timestamp b) by lia. intuition lia.
Qed.

Lemma queue_compare_total :
  (∀ a b, 0 < localeCompare a b → localeCompare b a ≤ 0) →
  ∀ a b, 0 < queue_compare localeCompare a b → queue_compare localeCompare b a ≤ 0.
Proof.
  intros Htotal a b. unfold queue_compare.
  repeat case_bool_decide; try lia. apply Htotal.
Qed.

Lemma queue_compare_trans :
  (∀ a b c, localeCompare a b ≤ 0 → localeCompare b c ≤ 0 → localeCompare a c ≤ 0) →
  ∀ a b c, queue_compare localeCompare a b ≤ 0 →
           queue_compare localeCompare b c ≤ 0 →
           queue_compare localeCompare a c ≤ 0.
Proof.
  intros Htrans a b c. rewrite !queue_compare_ascending. unfold ascending.
  intros [?|[? ?]] [?|[? ?]]; try (left; lia).
  right. split; [lia|]. by eapply Htrans.
Qed.

Lemma StronglySorted_mono {A} (R R' : A → A → Prop) (l : list A) :
  (∀ a b, R a b → R' a b) → StronglySorted R l → StronglySorted R' l.
Proof.
  intros HR. induction 1 as [|x l Hl IH Hx]; constructor; [done|].
  eapply Forall_impl; [exact Hx|]. intros; by apply HR.
Qed.

Lemma releaseResource_holding (s : MutualExclusion.t) :
  isResourceExisting s = true →
  releaseResource localeCompare s =
    (tt, set_queue [] (set_isResourceWaiting false (set_isResourceExisting false s)),
     Log INFO (Releasing (nodeId s))
     :: Send (ControlMessage.mk RELEASE (nodeId s) (timestamp s))
     :: flat_map (serve s) (JsArray.sort (queue_compare localeCompare) (queue s))).
Proof.
  destruct s as [n w e ts q r k]. simpl. intros ->.
  unfold releaseResource.
  cbv [this assign call skip mbind mret Method_bind Method_ret
       set_isResourceWaiting set_isResourceExisting
       isResourceWaiting isResourceExisting nodeId timestamp queue
       receivedMessages knownNodes negb].
  rewrite processQueue_spec. reflexivity.
Qed.

(** C5: [releaseResource()] while holding clears both flags, sends one
    RELEASE, then serves every deferred requester, one RESPONSE each, in
    ascending [(timestamp, nodeId)] order, and leaves the queue empty.  The
    order is that of the collation [localeCompare], taken to be
    consistent. *)
Theorem releaseResource_serves_queue_in_order (s : MutualExclusion.t) :
  (∀ a b, 0 < localeCompare a b → localeCompare b a ≤ 0) →
  (∀ a b c, localeCompare a b ≤ 0 → localeCompare b c ≤ 0 → localeCompare a c ≤ 0) →
  isResourceExisting s = true →
  let r := releaseResource localeCompare s in
  isResourceExisting (state_after r) = false
  ∧ isResourceWaiting (state_after r) = false
  ∧ queue (state_after r) = []
  ∧ ∃ served : list QueueEntry.t,
      served ≡ₚ queue s
      ∧ StronglySorted ascending served
      ∧ output r =
          Log INFO (Releasing (nodeId s))
          :: Send (ControlMessage.mk RELEASE (nodeId s) (timestamp s))
          :: flat_map (serve s) served.
Proof.
  intros Htotal Htrans He r. subst r. rewrite (releaseResource_holding s He).
  repeat split.
  exists (JsArray.sort (queue_compare localeCompare) (queue s)).
  split; [apply sort_perm|]. split; [|reflexivity].
  apply (StronglySorted_mono (not_after (queue_compare localeCompare))).
  - intros a b. apply queue_compare_ascending.
  - apply sort_sorted.
    + by apply queue_compare_total.
    + by apply queue_compare_trans.
Qed.

(** *** Acknowledgements and the grant *)

(** Every acknowledgement counted comes from a known node: the set is
    emptied by a request and every sender is recorded before its RESPONSE
    is counted. *)
Definition acks_known (s : MutualExclusion.t) : Prop :=
  receivedMessages s ⊆ knownNodes s.

Lemma acks_known_new (node : string) : acks_known (MutualExclusion.new node).
Proof. unfold acks_known. simpl. set_solver. Qed.

Lemma acks_known_requestResource (s : MutualExclusion.t) :
  acks_known s → acks_known (state_after (requestResource s)).
Proof.
  unfold acks_known. destruct s as [n w e ts q r k]. run_method.
  destruct w; [done|]. destruct e; [done|]. run_method.
  case_bool_decide; run_method; [set_solver|].
  case_bool_decide; run_method; set_solver.
Qed.

Lemma acks_known_releaseResource (s : MutualExclusion.t) :
  acks_known s → acks_known (state_after (releaseResource localeCompare s)).
Proof.
  unfold acks_known. destruct (isResourceExisting s) eqn:He.
  - rewrite (releaseResource_holding s He). by destruct s.
  - destruct s as [n w e ts q r k]. simpl in He. subst e. by run_method.
Qed.

Lemma acks_known_addKnownNode (node : string) (s : MutualExclusion.t) :
  acks_known s → acks_known (state_after (addKnownNode node s)).
Proof.
  unfold acks_known. destruct s as [n w e ts q r k]. run_method.
  case_bool_decide; run_method; set_solver.
Qed.

(** What [processMessage] does to the flags and the two sets, by type. *)
Lemma processMessage_response (s : MutualExclusion.t) (m : ControlMessage.t) :
  ControlMessage.type m = RESPONSE → isResourceWaiting s = true →
  let known := {[ControlMessage.originNode m]} ∪ knownNodes s in
  let acks := {[ControlMessage.originNode m]} ∪ receivedMessages s in
  let s' := state_after (processMessage localeCompare m s) in
  knownNodes s' = known ∧ receivedMessages s' = acks
  ∧ isResourceExisting s' =
      (if bool_decide (size known ≤ size acks)%nat then true
       else isResourceExisting s).
Proof.
  intros Hm Hw. unfold processMessage. rewrite Hm.
  destruct s as [n w e ts q r k]. simpl in Hw. subst w. run_method.
  case_bool_decide; run_method; auto.
Qed.

Lemma processMessage_other (s : MutualExclusion.t) (m : ControlMessage.t) :
  ControlMessage.type m ≠ RESPONSE →
  let s' := state_after (processMessage localeCompare m s) in
  knownNodes s' = {[ControlMessage.originNode m]} ∪ knownNodes s
  ∧ receivedMessages s' = receivedMessages s
  ∧ isResourceExisting s' = isResourceExisting s
  ∧ isResourceWaiting s' = isResourceWaiting s.
Proof.
  intros Hm. cbv zeta.
  destruct (ControlMessage.type m) eqn:Ht; [| done |].
  - rewrite processMessage_request by done.
    pose proof (processRequest_cases
      (set_knownNodes ({[ControlMessage.originNode m]} ∪ knownNodes s) s) m) as Hc.
    destruct (_ || _) in Hc; destruct Hc as [-> _]; by destruct s.
  - unfold processMessage. rewrite Ht. unfold processRelease.
    cbv [this assign call mbind Method_bind]. rewrite processQueue_spec.
    by destruct s.
Qed.

Lemma processMessage_ignored_response (s : MutualExclusion.t) (m : ControlMessage.t) :
  ControlMessage.type m = RESPONSE → isResourceWaiting s = false →
  state_after (processMessage localeCompare m s) =
    set_knownNodes ({[ControlMessage.originNode m]} ∪ knownNodes s) s.
Proof.
  intros Hm Hw. unfold processMessage. rewrite Hm.
  destruct s as [n w e ts q r k]. simpl in Hw. subst w. by run_method.
Qed.

Lemma acks_known_processMessage (s : MutualExclusion.t) (m : ControlMessage.t) :
  acks_known s → acks_known (state_after (processMessage localeCompare m s)).
Proof.
  unfold acks_known. intros Hs.
  destruct (decide (ControlMessage.type m = RESPONSE)) as [Hm|Hm].
  - destruct (isResourceWaiting s) eqn:Hw.
    + destruct (processMessage_response s m Hm Hw) as (-> & -> & _). set_solver.
    + rewrite processMessage_ignored_response by done. destruct s; simpl in *.
      set_solver.
  - destruct (processMessage_other s m Hm) as (-> & -> & _). set_solver.
Qed.

(** C3, as the code has it: the size test is made against [knownNodes] as
    it stands when a RESPONSE is processed, so a waiting node is granted
    the resource exactly when it then has an acknowledgement from every
    node known by then, the nodes learned after the request was issued
    included; no other message grants it. *)
Theorem grant_needs_every_node_known_so_far
  (s : MutualExclusion.t) (m : ControlMessage.t) :
  isResourceWaiting s = true → isResourceExisting s = false → acks_known s →
  let s' := state_after (processMessage localeCompare m s) in
  knownNodes s' = {[ControlMessage.originNode m]} ∪ knownNodes s
  ∧ (isResourceExisting s' = true ↔
     ControlMessage.type m = RESPONSE
     ∧ ∀ node, node ∈ knownNodes s' → node ∈ receivedMessages s').
Proof.
  intros Hw He Hinv. cbv zeta.
  destruct (decide (ControlMessage.type m = RESPONSE)) as [Hm|Hm].
  - destruct (processMessage_response s m Hm Hw) as (-> & -> & ->).
    split; [done|]. rewrite He. unfold acks_known in Hinv.
    case_bool_decide as Hsize.
    + split; [|done]. intros _. split; [done|].
      assert ({[ControlMessage.originNode m]} ∪ receivedMessages s
              = {[ControlMessage.originNode m]} ∪ knownNodes s) as ->; [|done].
      apply set_subseteq_size_eq; [set_solver|done].
    + split; [done|]. intros [_ Hall]. exfalso. apply Hsize.
      apply subseteq_size. intros x. apply Hall.
  - destruct (processMessage_other s m Hm) as (-> & _ & -> & _).
    split; [done|]. rewrite He. split; [done|]. by intros [? _].
Qed.

(** A request is granted on the spot exactly when no node is known. *)
Lemma requestResource_grant (s : MutualExclusion.t) :
  isResourceWaiting s = false → isResourceExisting s = false →
  isResourceExisting (state_after (requestResource s)) = true ↔ knownNodes s = ∅.
Proof.
  destruct s as [n w e ts q r k]. simpl. intros -> ->. run_method.
  case_bool_decide as Hk; run_method.
  - split; [|done]. intros _. by apply size_empty_inv, leibniz_equiv in Hk.
  - rewrite size_empty. case_bool_decide as Hk'; [lia|]. run_method.
    split; [done|]. intros ->. by rewrite size_empty in Hk.
Qed.

(** *** A RESPONSE has no addressee *)

End Coordinator.

(** ** The coordinator on concrete runs *)

(** A consistent collation to run closed examples with: the order of the
    character codes. *)
Definition code_order (a b : string) : Z :=
  match (a ?= b)%string with Lt => -1 | Eq => 0 | Gt => 1 end.

Lemma code_order_le (a b : string) : code_order a b ≤ 0 ↔ String.le a b.
Proof.
  unfold code_order, String.le, String.leb.
  destruct (a ?= b)%string; simpl; intuition (done || lia).
Qed.

Lemma code_order_total (a b : string) : 0 < code_order a b → code_order b a ≤ 0.
Proof.
  unfold code_order. rewrite (String.compare_antisym b a).
  destruct (a ?= b)%string; simpl; lia.
Qed.

Lemma code_order_trans (a b c : string) :
  code_order a b ≤ 0 → code_order b c ≤ 0 → code_order a c ≤ 0.
Proof. rewrite !code_order_le. apply transitivity. Qed.

Section CoordinatorExamples.
Import Logger MutualExclusion.

(** Node "C" after a first request made alone: it holds the resource and
    its clock reads 1. *)
Definition holder_C : MutualExclusion.t :=
  state_after (requestResource (MutualExclusion.new "C")).

Definition request_B_1 : ControlMessage.t := ControlMessage.mk REQUEST "B" 1.

(** C2 as stated fails: "C" holds the resource with timestamp 1 and gets a
    REQUEST from "B" with timestamp 1; the local request has no priority
    (equal timestamps, and "C" is not smaller than "B"), yet the requester
    is enqueued and no RESPONSE is sent. *)
Lemma holder_defers_without_priority :
  isResourceExisting holder_C = true
  ∧ timestamp holder_C = 1 ∧ nodeId holder_C = "C"
  ∧ ¬ local_priority holder_C request_B_1
  ∧ deferred holder_C request_B_1
  ∧ ¬ replied holder_C request_B_1.
Proof.
  assert (Hd : deferred holder_C request_B_1) by (split; reflexivity).
  repeat split; try reflexivity.
  - intros [H | [_ H]]; [by vm_compute in H | discriminate H].
  - intros Hr. exact (not_both _ _ Hd Hr).
Qed.

(** A waiting node and a message to run the decision on. *)
Lemma processRequest_decision_example :
  let s := set_isResourceWaiting true (set_timestamp 1 (MutualExclusion.new "A")) in
  (deferred s request_B_1 ↔ local_priority s request_B_1)
  ∧ (replied s request_B_1 ↔ ¬ local_priority s request_B_1).
Proof.
  intros s.
  apply (proj2 (proj2 (processRequest_decision s request_B_1))).
  split; reflexivity.
Defined.

(** Node "A" knows "B" and requests; a REQUEST of "C" and then the
    RESPONSE of "B" arrive. *)
Definition knows_B : MutualExclusion.t :=
  state_after (addKnownNode "B" (MutualExclusion.new "A")).
Definition after_late_joiner : MutualExclusion.t :=
  let s1 := state_after (requestResource knows_B) in
  let s2 := state_after (processMessage code_order (ControlMessage.mk REQUEST "C" 7) s1) in
  state_after (processMessage code_order (ControlMessage.mk RESPONSE "B" 0) s2).

(** C3 as stated fails: every node known when the request was issued (only
    "B") has acknowledged, yet "A" is not granted the resource, because
    "C", learned afterwards, is counted in. *)
Lemma late_joiner_blocks_grant :
  elements (knownNodes knows_B) = ["B"]
  ∧ (∀ node, node ∈ knownNodes knows_B → node ∈ receivedMessages after_late_joiner)
  ∧ isResourceWaiting after_late_joiner = true
  ∧ isResourceExisting after_late_joiner = false.
Proof.
  split; [by vm_compute|]. split; [|split; by vm_compute].
  intros node Hn.
  assert (receivedMessages after_late_joiner = knownNodes knows_B) as ->; [|done].
  by vm_compute.
Qed.

Lemma grant_example :
  let s := state_after (requestResource knows_B) in
  let s' := state_after
    (processMessage code_order (ControlMessage.mk RESPONSE "B" 0) s) in
  knownNodes s' = {["B"]} ∪ knownNodes s
  ∧ (isResourceExisting s' = true ↔
     RESPONSE = RESPONSE ∧ ∀ node, node ∈ knownNodes s' → node ∈ receivedMessages s').
Proof.
  intros s.
  apply (grant_needs_every_node_known_so_far code_order s
           (ControlMessage.mk RESPONSE "B" 0)).
  - reflexivity.
  - reflexivity.
  - unfold acks_known. by vm_compute.
Defined.

Lemma calls_out_of_turn_example :
  state_after (requestResource holder_C) = holder_C
  ∧ state_after (releaseResource code_order (MutualExclusion.new "A"))
    = MutualExclusion.new "A".
Proof.
  split.
  - apply (proj1 (calls_out_of_turn_change_nothing code_order holder_C)).
    right. reflexivity.
  - apply (proj2 (calls_out_of_turn_change_nothing code_order (MutualExclusion.new "A"))).
    reflexivity.
Defined.

(** "A" holds the resource with three requesters deferred. *)
Definition holder_with_queue : MutualExclusion.t :=
  MutualExclusion.mk "A" false true 2
    [QueueEntry.mk "D" 3; QueueEntry.mk "C" 2; QueueEntry.mk "B" 2] ∅
    {["B"; "C"; "D"]}.

Lemma releaseResource_example :
  let r := releaseResource code_order holder_with_queue in
  isResourceExisting (state_after r) = false
  ∧ isResourceWaiting (state_after r) = false
  ∧ queue (state_after r) = []
  ∧ ∃ served : list QueueEntry.t,
      served ≡ₚ queue holder_with_queue
      ∧ StronglySorted (ascending code_order) served
      ∧ output r =
          Log INFO (Releasing "A")
          :: Send (ControlMessage.mk RELEASE "A" 2)
          :: flat_map (serve holder_with_queue) served.
Proof.
  exact (releaseResource_serves_queue_in_order code_order holder_with_queue
           code_order_total code_order_trans eq_refl).
Defined.

Example releaseResource_example_order :
  map QueueEntry.nodeId
    (JsArray.sort (queue_compare code_order) (queue holder_with_queue))
  = ["B"; "C"; "D"].
Proof. reflexivity. Qed.

End CoordinatorExamples.

(** ** A group of coordinators *)

Section GroupRuns.
Import Group.
Variable localeCompare : string → string → Z.

(** Everything on the wire arrives, oldest first. *)
Definition in_order (n : nat) : list Event := replicate n (Deliver 0).

(** Three nodes that know each other from the start.  "C" acquires the
    resource once and releases it, so its clock reads 1.  Then "B" requests
    and is acknowledged by "A" and "C".  While "B" holds, "C" requests with
    timestamp 2 and is acknowledged by the idle "A"; then "A" requests with
    timestamp 1 and is acknowledged by "C", whose own request is the later
    one.  "B" defers both and serves both when it releases.  After every
    call all datagrams on the wire are delivered, in the order they were
    sent. *)
Definition everyone_knows_everyone : list Event :=
  [AddKnownNode "A" "B"; AddKnownNode "A" "C";
   AddKnownNode "B" "A"; AddKnownNode "B" "C";
   AddKnownNode "C" "A"; AddKnownNode "C" "B"].

Definition C_acquires_and_releases : list Event :=
  [RequestResource "C"] ++ in_order 9 ++ [ReleaseResource "C"] ++ in_order 3.
Definition B_acquires : list Event :=
  [RequestResource "B"] ++ in_order 9.
Definition C_then_A_request : list Event :=
  [RequestResource "C"] ++ in_order 6 ++ [RequestResource "A"] ++ in_order 6.
Definition B_releases : list Event :=
  [ReleaseResource "B"] ++ in_order 9.

(** C1 on this run: first "B" alone holds the resource, with "A" and "C"
    waiting; once "B" has released and every datagram has been delivered,
    "A" and "C" hold it at the same time. *)
Theorem two_holders_with_full_delivery :
  let w0 := start ["A"; "B"; "C"] in
  let w1 := run localeCompare
              (everyone_knows_everyone ++ C_acquires_and_releases
               ++ B_acquires ++ C_then_A_request) w0 in
  let w2 := run localeCompare B_releases w1 in
  (holders w1 = ["B"] ∧ waiting w1 = ["A"; "C"] ∧ wire w1 = [])
  ∧ (holders w2 = ["A"; "C"] ∧ wire w2 = []).
Proof. by vm_compute. Qed.

(** Two nodes that know each other: the RESPONSE of "A" to the request of
    "B" is overtaken by the REQUEST that "A" sends next. *)
Definition crossing_requests : list Event :=
  [AddKnownNode "A" "B"; AddKnownNode "B" "A";
   RequestResource "B"; Deliver 0; Deliver 0; Deliver 0;
   RequestResource "A"; Deliver 2; Deliver 0; Deliver 0; Deliver 0; Deliver 0].

Lemma two_holders_after_crossing_requests :
  let w := run localeCompare crossing_requests (start ["A"; "B"]) in
  holders w = ["A"; "B"] ∧ wire w = [].
Proof. by vm_compute. Qed.

(** Two freshly started nodes: neither knows the other, each request is
    granted on the spot and no message is ever sent. *)
Lemma two_holders_without_any_message :
  let w := run localeCompare [RequestResource "A"; RequestResource "B"]
             (start ["A"; "B"]) in
  holders w = ["A"; "B"] ∧ wire w = [].
Proof. by vm_compute. Qed.

End GroupRuns.

(** ** The transport's inbound path *)

Section Inbound.
Import Logger MulticastCommunicator.
Variable nodeId : string.
Variable messageCallback : Json.value → Completion unit.
Variable JSON_parse : string → Completion Json.value.

(** The [origin], or else the [originNode], of the payload is the local
    node identifier. *)
Definition self_originated (data : Json.value) : bool :=
  match data with
  | Json.JObject members =>
      Json.strict_eq_string (Json.lookup_member "origin" members) nodeId
      || Json.strict_eq_string (Json.lookup_member "originNode" members) nodeId
  | _ => false
  end.

(** C6, as the code has it: the handler always returns (the process does
    not crash).  A datagram that does not deserialize, and one that
    deserializes to [null], is discarded with one logged error; one whose
    [origin] or [originNode] is the local node identifier is discarded
    without a trace; any other is handed to the registered handler exactly
    once. *)
Theorem inbound_datagram_cases (msg info : string) :
  let r := on_message nodeId messageCallback JSON_parse msg info in
  fst r = Normal tt
  ∧ match JSON_parse msg with
    | Throw e => snd r = [Log ERROR (ErrorProcessingMessage e)]
    | Normal Json.JNull =>
        dispatched (snd r) = [] ∧ ∃ e, snd r = [Log ERROR (ErrorProcessingMessage e)]
    | Normal data =>
        if self_originated data then snd r = []
        else dispatched (snd r) = [data]
    end.
Proof.
  unfold on_message, invoke_messageCallback, try_catch, eval, log.
  cbv [mbind mret Block_bind Block_ret].
  destruct (JSON_parse msg) as [data|e]; [|done].
  destruct data as [|b|n|str|items|members]; simpl;
    try (destruct (messageCallback _) as [[]|]; done).
  - eauto.
  - destruct (Json.strict_eq_string (Json.lookup_member "origin" members) nodeId);
      simpl; [done|].
    destruct (Json.strict_eq_string (Json.lookup_member "originNode" members) nodeId);
      simpl; [done|].
    destruct (messageCallback _) as [[]|]; done.
Qed.
End Inbound.

(** C6 as stated fails on the datagram [null]: it deserializes, its origin
    is not the local node identifier (it has none), and yet the handler is
    not invoked: reading [origin] off [null] throws, and the error is
    logged. *)
Lemma null_datagram_is_not_dispatched :
  let r := MulticastCommunicator.on_message "node-1" (λ _, Normal tt) Json.parse
             "null" "192.168.0.7:5007" in
  Json.parse "null" = Normal Json.JNull
  ∧ self_originated "node-1" Json.JNull = false
  ∧ MulticastCommunicator.dispatched (snd r) = []
  ∧ MulticastCommunicator.errors (snd r) = ["TypeError: Cannot read properties of null"].
Proof. by vm_compute. Qed.

Example control_datagram_is_dispatched :
  let text := Json.stringify (Json.of_control (ControlMessage.mk REQUEST "node-2" 1)) in
  let r := MulticastCommunicator.on_message "node-1" (λ _, Normal tt) Json.parse
             text "192.168.0.7:5007" in
  MulticastCommunicator.dispatched (snd r)
  = [Json.of_control (ControlMessage.mk REQUEST "node-2" 1)].
Proof. by vm_compute. Qed.

Example own_datagram_is_dropped :
  let text := Json.stringify (Json.of_control (ControlMessage.mk REQUEST "node-1" 1)) in
  snd (MulticastCommunicator.on_message "node-1" (λ _, Normal tt) Json.parse
         text "192.168.0.7:5007") = [].
Proof. by vm_compute. Qed.

(** ** Replicas and reconciliation *)



Lemma append_prefix_inj (prefix a b : string) :
  prefix +:+ a = prefix +:+ b → a = b.
Proof.
  induction prefix as [|c prefix IH]; [done|].
  change (String c (prefix +:+ a) = String c (prefix +:+ b) → a = b).
  intros [= H]. by apply IH.
Qed.


(** Paths. *)
Section PathFacts.

Lemma has_append (c : ascii) (a b : string) :
  Path.has c (a +:+ b) = Path.has c a || Path.has c b.
Proof.
  induction a as [|c' a IH]; [done|].
  change (Ascii.eqb c' c || Path.has c (a +:+ b)
          = Ascii.eqb c' c || Path.has c a || Path.has c b).
  by rewrite IH, orb_assoc.
Qed.

Lemma split_without_slash (s : string) :
  Path.has Path.slash s = false → Path.split s = [s].
Proof.
  induction s as [|c s IH]; [done|]. cbn [Path.has Path.split].
  intros [Hc Hs]%orb_false_iff. rewrite Hc, (IH Hs). done.
Qed.

(** Joining one name goes one directory down. *)
Lemma join_one_name (directory : list string) (s : string) :
  Path.has Path.slash s = false → s ≠ EmptyString → s ≠ "." → s ≠ ".." →
  Path.join directory s = s :: directory.
Proof.
  intros Hslash H0 H1 H2. unfold Path.join. rewrite split_without_slash by done.
  cbn [foldl]. unfold Path.step.
  by rewrite !bool_decide_false by done.
Qed.

Lemma name_spec (NAME_MAX : nat) (s : string) :
  Path.name NAME_MAX s = true ↔
  Path.has Path.slash s = false ∧ Path.has Path.NUL s = false
  ∧ s ≠ EmptyString ∧ s ≠ "." ∧ s ≠ ".." ∧ (String.length s ≤ NAME_MAX)%nat.
Proof.
  unfold Path.name.
  rewrite !andb_true_iff, !negb_true_iff, !bool_decide_eq_false, bool_decide_eq_true.
  tauto.
Qed.

(** The names [split] gives are pieces of the text. *)
Lemma split_without (c : ascii) (s : string) :
  Path.has c s = false → Forall (λ name, Path.has c name = false) (Path.split s).
Proof.
  induction s as [|c' s IH]; [by repeat constructor|].
  cbn [Path.has Path.split]. intros [Hc Hs]%orb_false_iff.
  specialize (IH Hs). destruct (Ascii.eqb c' Path.slash).
  - by constructor.
  - destruct (Path.split s) as [|name names]; [by repeat constructor; cbn; rewrite Hc|].
    apply Forall_cons in IH as [Hname Hnames].
    constructor; [|done]. cbn [Path.has]. by rewrite Hc.
Qed.

Lemma join_without (c : ascii) (directory : list string) (p : string) :
  Forall (λ name, Path.has c name = false) directory →
  Path.has c p = false →
  Forall (λ name, Path.has c name = false) (Path.join directory p).
Proof.
  intros Hdir Hp. unfold Path.join.
  pose proof (split_without c p Hp) as Hnames. revert directory Hdir.
  induction Hnames as [|name names Hname _ IH]; intros directory Hdir; [done|].
  cbn [foldl]. apply IH. unfold Path.step.
  destruct (_ || _); [done|]. case_bool_decide; [|by constructor].
  destruct Hdir; [constructor|done].
Qed.

Lemma existsb_has_false (c : ascii) (path : list string) :
  existsb (Path.has c) path = false ↔ Forall (λ name, Path.has c name = false) path.
Proof.
  induction path as [|name path IH]; [by split; [constructor|]|].
  cbn [existsb]. rewrite orb_false_iff, Forall_cons, IH. done.
Qed.

(** A decimal numeral is made of digits. *)
Lemma string_of_uint_digits (c : ascii) (d : Decimal.uint) :
  (Ascii.N_of_ascii c < 48 ∨ 57 < Ascii.N_of_ascii c)%N →
  Path.has c (DecimalString.NilZero.string_of_uint d) = false.
Proof.
  intros Hc.
  assert (Hdigit : ∀ n, (48 ≤ n ≤ 57)%N → Ascii.eqb (Ascii.ascii_of_N n) c = false).
  { intros n Hn. apply Ascii.eqb_neq. intros <-.
    rewrite Ascii.N_ascii_embedding in Hc; lia. }
  assert (Hgen : Path.has c (DecimalString.NilEmpty.string_of_uint d) = false).
  { induction d; cbn [DecimalString.NilEmpty.string_of_uint Path.has]; [done|..];
      rewrite IHd, orb_false_r;
      match goal with
      | |- Ascii.eqb ?a c = false =>
          change a with (Ascii.ascii_of_N (Ascii.N_of_ascii a));
          apply Hdigit; by vm_compute
      end. }
  unfold DecimalString.NilZero.string_of_uint.
  destruct d; try exact Hgen.
  cbn [Path.has]. rewrite orb_false_r.
  change "0"%char with (Ascii.ascii_of_N 48). apply Hdigit. lia.
Qed.

Lemma to_uint_not_Nil (n : nat) : Nat.to_uint n ≠ Decimal.Nil.
Proof.
  intros Hnil. pose proof (DecimalNat.Unsigned.of_to n) as Hn.
  rewrite Hnil in Hn. cbn in Hn. subst n. discriminate Hnil.
Qed.

Lemma replica_name_inj (i j : nat) :
  Replicator.replica_name i = Replicator.replica_name j → i = j.
Proof.
  unfold Replicator.replica_name. intros H%append_prefix_inj.
  apply DecimalNat.Unsigned.to_uint_inj.
  apply (f_equal DecimalString.NilZero.uint_of_string) in H.
  rewrite !DecimalString.NilZero.usu in H by apply to_uint_not_Nil.
  by injection H.
Qed.

Lemma replica_name_without (c : ascii) (i : nat) :
  (Ascii.N_of_ascii c < 48)%N →
  Path.has c (Replicator.replica_name i) = false.
Proof.
  intros Hc. unfold Replicator.replica_name.
  rewrite has_append, string_of_uint_digits by lia.
  rewrite orb_false_r.
  assert (Hletters : ∀ n, (48 ≤ n < 256)%N → Ascii.eqb (Ascii.ascii_of_N n) c = false).
  { intros n Hn. apply Ascii.eqb_neq. intros <-.
    rewrite Ascii.N_ascii_embedding in Hc; lia. }
  cbn [Path.has]. rewrite !orb_false_iff.
  repeat split;
    match goal with
    | |- Ascii.eqb ?a c = false =>
        change a with (Ascii.ascii_of_N (Ascii.N_of_ascii a));
        apply Hletters; by vm_compute
    | _ => done
    end.
Qed.

Lemma replicaPath_eq (r : Replicator.t) (i : nat) :
  Replicator.replicaPath r i
  = Replicator.replica_name i :: Path.join [] (Replicator.basePath r).
Proof.
  unfold Replicator.replicaPath. apply join_one_name.
  - apply replica_name_without. by vm_compute.
  - unfold Replicator.replica_name. discriminate.
  - unfold Replicator.replica_name. discriminate.
  - unfold Replicator.replica_name. discriminate.
Qed.

Lemma replicaPath_inj (r : Replicator.t) (i j : nat) :
  Replicator.replicaPath r i = Replicator.replicaPath r j → i = j.
Proof.
  rewrite !replicaPath_eq. intros H. apply replica_name_inj.
  apply (f_equal head) in H. cbn [head] in H. by apply (inj Some) in H.
Qed.

Lemma replicaPath_without_NUL (r : Replicator.t) (i : nat) :
  Path.has Path.NUL (Replicator.basePath r) = false →
  Forall (λ name, Path.has Path.NUL name = false) (Replicator.replicaPath r i).
Proof.
  intros Hbase. rewrite replicaPath_eq. constructor.
  - apply replica_name_without. by vm_compute.
  - by apply join_without.
Qed.
End PathFacts.

(** The insertion-ordered map. *)
Section JsMapFacts.
Context {V : Type}.
Implicit Types (m : list (string * V)) (k : string) (v : V).

Lemma JsMap_set_keys m k v k' :
  k' ∈ (JsMap.set m k v).*1 ↔ k' = k ∨ k' ∈ m.*1.
Proof.
  induction m as [|[k0 v0] m IH]; simpl.
  - set_solver.
  - case_bool_decide; subst; simpl; set_solver.
Qed.

Lemma JsMap_set_entries m k v kv :
  kv ∈ JsMap.set m k v → kv = (k, v) ∨ kv ∈ m.
Proof.
  induction m as [|[k0 v0] m IH]; simpl.
  - set_solver.
  - case_bool_decide; subst; simpl; set_solver.
Qed.
End JsMapFacts.

Section Reconciliation.
Import Replicator Reconciler.
Variable readdirSync : gmap string Message.t → list string.

(** [readdirSync] lists every name in the directory, in some order. *)
Definition lists_the_directory : Prop :=
  ∀ dir : gmap string Message.t, readdirSync dir ≡ₚ (map_to_list dir).*1.

(** Every replica directory exists, as the constructor leaves them. *)
Definition initialized (r : Replicator.t) (disk : gmap nat (gmap string Message.t))
  : Prop :=
  ∀ i, (1 ≤ i ≤ replicasNumber r)%nat → is_Some (disk !! i).


Hypothesis readdirSync_lists : lists_the_directory.





(** *** Writes *)

Variable NAME_MAX : nat.

(** The ids of the messages a replica holds: those in the [.json] files of
    its directory. *)
Definition stored_ids (disk : gmap nat (gmap string Message.t)) (i : nat)
  : gset string :=
  match disk !! i with
  | Some dir =>
      list_to_set
        (omap (λ entry : string * Message.t,
                 if endsWith entry.1 ".json" then Some (Message.id entry.2) else None)
              (map_to_list dir))
  | None => ∅
  end.


(** What the write of a name does: it lands in the directory of its own
    replica, under that name. *)
Definition put (disk : gmap nat (gmap string Message.t)) (w : Write)
  : gmap nat (gmap string Message.t) :=
  match disk !! replica w with
  | Some dir => <[replica w := <[file w := content w]> dir]> disk
  | None => disk
  end.

Definition puts (writes : list Write) (disk : gmap nat (gmap string Message.t))
  : gmap nat (gmap string Message.t) :=
  foldl put disk writes.

Lemma writeFile_name (r : Replicator.t) (disk : gmap nat (gmap string Message.t))
  (w : Write) :
  Path.has Path.NUL (basePath r) = false →
  Path.name NAME_MAX (file w) = true →
  writeFile NAME_MAX r disk w = Normal (put disk w).
Proof.
  intros Hbase (Hslash & Hnul & H0 & H1 & H2 & Hlen)%name_spec.
  unfold writeFile. cbv zeta. rewrite (join_one_name _ _ Hslash H0 H1 H2).
  cbn [existsb]. rewrite Hnul. cbn [orb].
  rewrite (proj2 (existsb_has_false _ _) (replicaPath_without_NUL r _ Hbase)).
  rewrite bool_decide_true by done. f_equal.
  apply map_eq. intros j. rewrite map_lookup_imap. unfold put.
  destruct (decide (j = replica w)) as [->|Hne].
  - destruct (disk !! replica w) as [dir|] eqn:Hdir; [|by rewrite Hdir].
    cbn. rewrite bool_decide_true by done. by rewrite lookup_insert_eq.
  - assert (replicaPath r j ≠ replicaPath r (replica w)) as Hpath
      by (intros ?%replicaPath_inj; done).
    destruct (disk !! replica w) as [dir|];
      rewrite ?lookup_insert_ne by done;
      destruct (disk !! j) as [dir'|]; cbn; [|done| |done];
      by rewrite bool_decide_false.
Qed.

Lemma complete_names (r : Replicator.t) (writes : list Write) :
  Path.has Path.NUL (basePath r) = false →
  (∀ w, w ∈ writes → Path.name NAME_MAX (file w) = true) →
  ∀ disk, complete NAME_MAX r writes disk = puts writes disk.
Proof.
  intros Hbase. induction writes as [|w writes IH]; intros Hnames disk; [done|].
  cbn [complete]. rewrite writeFile_name by (done || apply Hnames; by left).
  apply IH. intros w' Hw'. apply Hnames. by right.
Qed.



Lemma put_lookup (disk : gmap nat (gmap string Message.t)) (w : Write) (i : nat) :
  put disk w !! i =
    match disk !! i with
    | None => None
    | Some dir =>
        Some (if decide (replica w = i) then <[file w := content w]> dir else dir)
    end.
Proof.
  unfold put. destruct (decide (replica w = i)) as [<-|Hne].
  - destruct (disk !! replica w) as [dir|] eqn:Hdir; [|by rewrite Hdir].
    by rewrite lookup_insert_eq.
  - destruct (disk !! replica w) as [dir|] eqn:Hdir.
    + rewrite lookup_insert_ne by done. by destruct (disk !! i).
    + by destruct (disk !! i).
Qed.


(** *** The merged view *)

Definition keyed_by_id (u : list (string * Message.t)) : Prop :=
  ∀ k v, (k, v) ∈ u → Message.id v = k.

Lemma merge_spec (u : list (string * Message.t)) (m : Message.t) :
  keyed_by_id u →
  keyed_by_id (merge u m)
  ∧ (∀ k, k ∈ (merge u m).*1 ↔ k = Message.id m ∨ k ∈ u.*1)
  ∧ (∀ kv, kv ∈ merge u m → kv ∈ u ∨ kv.2 = m).
Proof.
  intros Hu. unfold merge, JsMap.has.
  destruct (negb _ || _) eqn:Hcond.
  - split; [|split].
    + intros k v Hin. apply JsMap_set_entries in Hin as [Heq|Hin]; [|by apply Hu].
      by injection Heq as -> ->.
    + intros k. apply JsMap_set_keys.
    + intros kv [ -> |Hin]%JsMap_set_entries; auto.
  - split; [done|]. split; [|auto].
    apply orb_false_iff in Hcond as [Hhas _].
    apply negb_false_iff, bool_decide_eq_true in Hhas.
    intros k. split; [auto|]. by intros [->|?].
Qed.

Lemma foldl_merge_spec (messages : list Message.t) :
  ∀ u, keyed_by_id u →
    keyed_by_id (foldl merge u messages)
    ∧ (∀ k, k ∈ (foldl merge u messages).*1 ↔
            k ∈ u.*1 ∨ k ∈ map Message.id messages)
    ∧ (∀ kv, kv ∈ foldl merge u messages → kv ∈ u ∨ kv.2 ∈ messages).
Proof.
  induction messages as [|m messages IH]; intros u Hu; simpl.
  - split; [done|]. split; [|auto]. intros k. rewrite elem_of_nil. tauto.
  - destruct (merge_spec u m Hu) as (Hkeyed & Hkeys & Hentries).
    destruct (IH _ Hkeyed) as (Hkeyed' & Hkeys' & Hentries').
    split; [done|]. split.
    + intros k. rewrite Hkeys', Hkeys, elem_of_cons. tauto.
    + intros kv [ [?| -> ]%Hentries | ? ]%Hentries'; rewrite ?elem_of_cons; auto.
Qed.

Lemma merge_all_spec (allMessages : list (nat * list Message.t)) :
  keyed_by_id (merge_all allMessages)
  ∧ (∀ k, k ∈ (merge_all allMessages).*1 ↔
          ∃ entry, entry ∈ allMessages ∧ k ∈ map Message.id entry.2)
  ∧ (∀ kv, kv ∈ merge_all allMessages →
           ∃ entry, entry ∈ allMessages ∧ kv.2 ∈ entry.2).
Proof.
  unfold merge_all.
  assert (∀ u, keyed_by_id u →
    keyed_by_id (foldl (λ u entry, foldl merge u entry.2) u allMessages)
    ∧ (∀ k, k ∈ (foldl (λ u entry, foldl merge u entry.2) u allMessages).*1 ↔
            k ∈ u.*1 ∨ ∃ entry, entry ∈ allMessages ∧ k ∈ map Message.id entry.2)
    ∧ (∀ kv, kv ∈ foldl (λ u entry, foldl merge u entry.2) u allMessages →
             kv ∈ u ∨ ∃ entry, entry ∈ allMessages ∧ kv.2 ∈ entry.2)) as Hgen.
  { induction allMessages as [|entry rest IH]; intros u Hu; simpl.
    - split; [done|]. split; [|auto]. intros k. split; [auto|].
      intros [?|(? & Hin & _)]; [done|inversion Hin].
    - destruct (foldl_merge_spec entry.2 u Hu) as (Hkeyed & Hkeys & Hentries).
      destruct (IH _ Hkeyed) as (Hkeyed' & Hkeys' & Hentries').
      split; [done|]. split.
      + intros k. rewrite Hkeys', Hkeys. setoid_rewrite elem_of_cons. split.
        * intros [[?|?]|(e & ? & ?)]; eauto.
        * intros [?|(e & [->|?] & ?)]; eauto.
      + intros kv. setoid_rewrite elem_of_cons.
        intros [[?|?]%Hentries|(e & ? & ?)]%Hentries'; eauto. }
  destruct (Hgen [] ltac:(intros ? ? Hin; inversion Hin)) as (H1 & H2 & H3).
  split; [done|]. split.
  - intros k. rewrite H2. split; [|auto]. intros [Hin|?]; [inversion Hin|done].
  - intros kv [Hin|?]%H3; [inversion Hin|done].
Qed.

(** *** One pass *)

Lemma elem_of_saveMessage (r : Replicator.t) (m : Message.t) (w : Write) :
  w ∈ saveMessage r m ↔
  ∃ j, (1 ≤ j ≤ replicasNumber r)%nat ∧ w = mkWrite j (Message.id m +:+ ".json") m.
Proof.
  unfold saveMessage. rewrite list_elem_of_fmap.
  setoid_rewrite elem_of_seq. split.
  - intros (j & -> & Hj). exists j. split; [lia|done].
  - intros (j & Hj & ->). exists j. split; [done|lia].
Qed.

Lemma elem_of_missingMessages
  (u : list (string * Message.t)) (messages : list Message.t) (m : Message.t) :
  m ∈ missingMessages u messages ↔
  m ∈ JsMap.values u ∧ Message.id m ∉ map Message.id messages.
Proof.
  unfold missingMessages. rewrite list_elem_of_filter, not_elem_of_list_to_set. tauto.
Qed.

Lemma elem_of_getAllMessages
  (r : Replicator.t) (disk : gmap nat (gmap string Message.t))
  (entry : nat * list Message.t) :
  entry ∈ getAllMessages readdirSync r disk ↔
  (1 ≤ entry.1 ≤ replicasNumber r)%nat
  ∧ entry.2 = getReplicaMessage readdirSync disk entry.1.
Proof.
  unfold getAllMessages. rewrite list_elem_of_fmap.
  setoid_rewrite elem_of_seq. destruct entry as [i messages]. simpl. split.
  - intros (j & [= -> ->] & Hj). split; [lia|done].
  - intros (Hi & ->). exists i. split; [done|lia].
Qed.

(** The writes one pass schedules: for every replica, one write to every
    replica of each message the replica misses. *)
Lemma elem_of_reconcile
  (r : Replicator.t) (disk : gmap nat (gmap string Message.t)) (w : Write) :
  w ∈ (reconcile readdirSync r disk).1 ↔
  ∃ i m, (1 ≤ i ≤ replicasNumber r)%nat
    ∧ m ∈ missingMessages (merge_all (getAllMessages readdirSync r disk))
            (getReplicaMessage readdirSync disk i)
    ∧ w ∈ saveMessage r m.
Proof.
  unfold reconcile. cbn [fst].
  rewrite list_elem_of_In, in_flat_map. setoid_rewrite in_map_iff.
  setoid_rewrite <- list_elem_of_In. split.
  - intros (pass & (entry & <- & Hentry) & Hw).
    apply elem_of_getAllMessages in Hentry as [Hi Hmessages].
    case_bool_decide; simpl in Hw; [|inversion Hw].
    apply list_elem_of_In, in_flat_map in Hw as (m & Hm & Hw).
    apply list_elem_of_In in Hm, Hw.
    exists entry.1, m. by rewrite <- Hmessages.
  - intros (i & m & Hi & Hm & Hw).
    eexists. split.
    + exists (i, getReplicaMessage readdirSync disk i). split; [reflexivity|].
      by apply elem_of_getAllMessages.
    + cbn [fst snd]. rewrite bool_decide_true.
      * cbn [fst snd]. apply list_elem_of_In, in_flat_map. exists m.
        by rewrite <- !list_elem_of_In.
      * destruct (missingMessages _ _); [inversion Hm|simpl; lia].
Qed.




End Reconciliation.

(** *** The conditions are what the replicator maintains *)

Section ReplicatorInvariants.
Import Replicator.

Definition named_by_id (w : Write) : Prop :=
  file w = Message.id (content w) +:+ ".json".

Lemma saveMessage_named_by_id (r : Replicator.t) (m : Message.t) (w : Write) :
  w ∈ saveMessage r m → named_by_id w.
Proof. intros (j & _ & ->)%elem_of_saveMessage. reflexivity. Qed.




Lemma initializeReplicas_lookup
  (r : Replicator.t) (disk : gmap nat (gmap string Message.t)) (i : nat) :
  initializeReplicas r disk !! i =
    match disk !! i with
    | Some dir => Some dir
    | None => if decide (1 ≤ i ≤ replicasNumber r)%nat then Some ∅ else None
    end.
Proof.
  unfold initializeReplicas.
  assert (∀ (l : list nat) (d : gmap nat (gmap string Message.t)),
    foldl (λ d i, match d !! i with Some _ => d | None => <[i := ∅]> d end) d l !! i
    = match d !! i with
      | Some dir => Some dir
      | None => if decide (i ∈ l) then Some ∅ else None
      end) as Hgen.
  { induction l as [|j l IH]; intros d; simpl.
    - by destruct (d !! i).
    - rewrite IH. destruct (d !! j) eqn:Hj.
      + destruct (d !! i) eqn:Hdi; [done|].
        assert (i ≠ j) by congruence.
        destruct (decide (i ∈ l)), (decide (i ∈ j :: l)); set_solver.
      + destruct (decide (j = i)) as [->|Hne].
        * rewrite lookup_insert_eq, Hj. rewrite decide_True by set_solver. done.
        * rewrite lookup_insert_ne by done. destruct (d !! i); [done|].
          destruct (decide (i ∈ l)), (decide (i ∈ j :: l)); set_solver. }
  rewrite Hgen. destruct (disk !! i); [done|].
  destruct (decide (i ∈ seq 1 (replicasNumber r))) as [Hin|Hin],
           (decide (1 ≤ i ≤ replicasNumber r)%nat) as [Hi|Hi];
    rewrite elem_of_seq in Hin; (done || lia).
Qed.

Lemma initialized_initializeReplicas
  (r : Replicator.t) (disk : gmap nat (gmap string Message.t)) :
  initialized r (initializeReplicas r disk).
Proof.
  intros i Hi. rewrite initializeReplicas_lookup.
  destruct (disk !! i); [eauto|]. rewrite decide_True by done. eauto.
Qed.


End ReplicatorInvariants.

(** The spec's scenario: a replicator with three replicas;
    replica 1 holds m1, replica 2 nothing, replica 3 holds m1 and m2. *)
Section ReconciliationExample.
Import Replicator Reconciler.

Definition listing (dir : gmap string Message.t) : list string :=
  (map_to_list dir).*1.

Definition m1 : Message.t := Message.mk "m1" "node-1" "hello" 1730000000000.
Definition m2 : Message.t := Message.mk "m2" "node-2" "world" 1730000000500.
Definition three_replicas : Replicator.t :=
  Replicator.mk "/srv/chat/replicas" 3 1000.

Definition divergent_writes : list Write :=
  [mkWrite 1 "m1.json" m1; mkWrite 3 "m2.json" m2; mkWrite 3 "m1.json" m1].

Definition divergent : gmap nat (gmap string Message.t) :=
  complete 255 three_replicas divergent_writes (initializeReplicas three_replicas ∅).

Example divergent_ids :
  elements (replica_ids listing divergent 1) = ["m1"]
  ∧ elements (replica_ids listing divergent 2) = []
  ∧ elements (replica_ids listing divergent 3) = ["m1"; "m2"].
Proof. by vm_compute. Qed.



Example reconcile_converges_example_ids :
  let order := reverse (reconcile listing three_replicas divergent).1 in
  map (λ i, elements (stored_ids (complete 255 three_replicas order divergent) i))
      [1; 2; 3]%nat
  = [["m1"; "m2"]; ["m1"; "m2"]; ["m1"; "m2"]].
Proof. by vm_compute. Qed.

(** A message whose id leads out of the replica directory, and the disk
    [saveMessage] of it leaves on fresh replicas: all three writes land on
    [replica_2/x.json]. *)
Definition escaping : Message.t :=
  Message.mk "../replica_2/x" "node-2" "hello" 1730000000000.

Definition misplaced : gmap nat (gmap string Message.t) :=
  complete 255 three_replicas (saveMessage three_replicas escaping)
           (initializeReplicas three_replicas ∅).

Example misplaced_files :
  map (λ i, (map_to_list <$> misplaced !! i)) [1; 2; 3]%nat
  = [Some []; Some [("x.json", escaping)]; Some []].
Proof. by vm_compute. Qed.

(** The other two conditions on a name.  With a NUL character in the id
    [fs.writeFile] throws in the first timer that fires, and the writes of
    the timers behind it, here those of [m1], are never done.  With a name
    longer than the file system takes every write fails and nothing is
    stored. *)
Definition with_NUL : Message.t :=
  Message.mk (String Path.NUL "x") "node-2" "hello" 1730000000000.

Definition too_long : Message.t :=
  Message.mk (String.string_of_list_ascii (repeat (Ascii.ascii_of_N 97) 251))
             "node-2" "hello" 1730000000000.

Example NUL_in_id_ends_the_process :
  complete 255 three_replicas
    (saveMessage three_replicas with_NUL ++ saveMessage three_replicas m1)
    (initializeReplicas three_replicas ∅)
  = initializeReplicas three_replicas ∅.
Proof. by vm_compute. Qed.

Example long_name_is_not_written :
  String.length (Message.id too_long +:+ ".json") = 256%nat
  ∧ complete 255 three_replicas (saveMessage three_replicas too_long)
      (initializeReplicas three_replicas ∅)
    = initializeReplicas three_replicas ∅.
Proof. by vm_compute. Qed.
End ReconciliationExample.

(** ** Checkpoints *)

Section Checkpoints.
Import Logger CheckpointManager.
Variable JSON_stringify : list Message.t → string.
Variable JSON_parse : string → Completion (list Message.t).

(** The three components of what [createCheckpoint] gives. *)
Definition returned (r : string * CheckpointManager.t * list (LogLevel * LogLine))
  : string := r.1.1.
Definition manager_after (r : string * CheckpointManager.t * list (LogLevel * LogLine))
  : CheckpointManager.t := r.1.2.

(** The row [createCheckpoint] tries to insert. *)
Definition checkpoint_row (messages : list Message.t) (now : Z)
  (s : CheckpointManager.t) : Row.t :=
  Row.mk (nodId s +:+ "-" +:+ Json.Number_toString now) (nodId s) now
         (JSON_stringify messages).

Lemma checkpointId_not_empty (node suffix : string) :
  (node +:+ "-" +:+ suffix) ≠ "".
Proof. destruct node; discriminate. Qed.

Lemma createCheckpoint_cases (messages : list Message.t) (now : Z)
  (s : CheckpointManager.t) :
  let r := createCheckpoint JSON_stringify messages now s in
  let row := checkpoint_row messages now s in
  (Row.id row ∈ map Row.id (db s)
   ∧ returned r = "" ∧ manager_after r = s
   ∧ ∃ e, insert row (db s) = Throw e)
  ∨ ((Row.id row ∉ map Row.id (db s))
     ∧ returned r = Row.id row
     ∧ manager_after r = CheckpointManager.mk (nodId s) (db s ++ [row])).
Proof.
  unfold createCheckpoint, checkpoint_row, insert, returned, manager_after.
  cbn [Checkpoint.messages Row.id].
  case_bool_decide; [left|right]; cbn [fst snd]; eauto.
Qed.

(** C10: when two calls of [createCheckpoint()] read the same millisecond
    off the clock, the insertion of the second violates the primary key of
    the table, the call returns the empty string, and the store is as the
    first call left it. *)
Theorem second_checkpoint_of_a_millisecond_fails
  (first second : list Message.t) (now : Z) (s : CheckpointManager.t) :
  let s1 := manager_after (createCheckpoint JSON_stringify first now s) in
  let r2 := createCheckpoint JSON_stringify second now s1 in
  insert (checkpoint_row second now s1) (db s1)
    = Throw "SqliteError: UNIQUE constraint failed: checkpoints.id"
  ∧ returned r2 = ""
  ∧ manager_after r2 = s1.
Proof.
  cbv zeta.
  set (s1 := manager_after (createCheckpoint JSON_stringify first now s)).
  assert (Hnode : nodId s1 = nodId s).
  { subst s1. destruct (createCheckpoint_cases first now s)
      as [(_ & _ & -> & _)|(_ & _ & ->)]; done. }
  assert (Hthere : Row.id (checkpoint_row second now s1) ∈ map Row.id (db s1)).
  { unfold checkpoint_row. cbn [Row.id]. rewrite Hnode. subst s1.
    destruct (createCheckpoint_cases first now s)
      as [(Hin & _ & -> & _)|(_ & _ & ->)]; [done|].
    cbn [db]. rewrite map_app. apply elem_of_app. right. by left. }
  split.
  - unfold insert. by rewrite bool_decide_true.
  - destruct (createCheckpoint_cases second now s1)
      as [(_ & ? & ? & _)|(Hnot & _)]; [done|]. by destruct Hnot.
Qed.

(** The newest row comes first when every other row is older. *)
Lemma sort_newest_first (rows : list Row.t) (newest : Row.t) :
  (∀ row, row ∈ rows → Row.timestamp row < Row.timestamp newest) →
  JsArray.sort (λ a b, Row.timestamp b - Row.timestamp a) (rows ++ [newest])
  = newest :: JsArray.sort (λ a b, Row.timestamp b - Row.timestamp a) rows.
Proof.
  induction rows as [|a rows IH]; intros Hold; [done|].
  cbn [app JsArray.sort]. rewrite IH by (intros; apply Hold; by right).
  cbn [JsArray.insert].
  assert (Row.timestamp a < Row.timestamp newest) by (apply Hold; by left).
  destruct (Z.ltb_spec 0 (Row.timestamp newest - Row.timestamp a)); [done|lia].
Qed.

(** C8, as the code has it: when [createCheckpoint()] succeeds (it returns
    the new id, not the empty string) at a clock reading later than the
    timestamp of every checkpoint stored for the node, a [recoverState()]
    that follows returns the snapshot, the platform's JSON reading back
    what it printed. *)
Theorem checkpoint_round_trip
  (snapshot : list Message.t) (now : Z) (s : CheckpointManager.t) :
  JSON_parse (JSON_stringify snapshot) = Normal snapshot →
  returned (createCheckpoint JSON_stringify snapshot now s) ≠ "" →
  (∀ row, row ∈ db s → Row.node_id row = nodId s → Row.timestamp row < now) →
  (recoverState JSON_parse
     (manager_after (createCheckpoint JSON_stringify snapshot now s))).1
  = snapshot.
Proof.
  intros Hjson Hok Hlater.
  destruct (createCheckpoint_cases snapshot now s)
    as [(_ & Hempty & _)|(_ & _ & ->)]; [done|].
  unfold recoverState, getLastCheckpoint, select_last. cbn [nodId db].
  rewrite filter_app, filter_cons_True, filter_nil by done.
  rewrite sort_newest_first.
  - cbn [head Row.data checkpoint_row]. rewrite Hjson. reflexivity.
  - intros row [Hnode Hin]%list_elem_of_filter. by apply Hlater.
Qed.
End Checkpoints.

Section CheckpointExamples.
Import CheckpointManager.

(** The manager of "node-1" with one checkpoint, the empty log, taken at
    millisecond 1730000000000. *)
Definition one_checkpoint : CheckpointManager.t :=
  manager_after
    (createCheckpoint Json.stringify_messages [] 1730000000000
       (CheckpointManager.mk "node-1" [])).

Example one_checkpoint_rows :
  db one_checkpoint = [Row.mk "node-1-1730000000000" "node-1" 1730000000000 "[]"].
Proof. by vm_compute. Qed.

(** C8 as stated fails.  A second [createCheckpoint()] in the same
    millisecond, with the snapshot [[m1]], returns the empty string and the
    [recoverState()] that follows returns the older, empty log.  And a
    [createCheckpoint()] that succeeds at a clock reading one second
    earlier is not the one [recoverState()] then finds. *)
Lemma recoverState_returns_an_older_snapshot :
  (let r := createCheckpoint Json.stringify_messages [m1] 1730000000000 one_checkpoint in
   returned r = ""
   ∧ (recoverState Json.parse_messages (manager_after r)).1 = []
   ∧ Json.parse_messages (Json.stringify_messages [m1]) = Normal [m1])
  ∧ (let r := createCheckpoint Json.stringify_messages [m1] 1729999999000 one_checkpoint in
     returned r = "node-1-1729999999000"
     ∧ (recoverState Json.parse_messages (manager_after r)).1 = []).
Proof. by vm_compute. Qed.

Lemma checkpoint_round_trip_example :
  (recoverState Json.parse_messages
     (manager_after
        (createCheckpoint Json.stringify_messages [m1; m2] 1730000030000
           one_checkpoint))).1
  = [m1; m2].
Proof.
  apply (checkpoint_round_trip Json.stringify_messages Json.parse_messages
           [m1; m2] 1730000030000 one_checkpoint).
  - by vm_compute.
  - by vm_compute.
  - intros row Hin _. rewrite one_checkpoint_rows in Hin.
    apply list_elem_of_singleton in Hin as ->. by vm_compute.
Defined.

Example second_checkpoint_example :
  let r := createCheckpoint Json.stringify_messages [m1] 1730000000000 one_checkpoint in
  returned r = "" ∧ manager_after r = one_checkpoint.
Proof. by vm_compute. Qed.
End CheckpointExamples.

(* ===================================================================== *)
(** * Part III: further properties of the same code                       *)
(* ===================================================================== *)

(** ** The coordinator, call by call *)

Section CoordinatorCalls.
Import Logger MutualExclusion.
Variable localeCompare : string → string → Z.

Ltac run_call :=
  cbv [requestResource releaseResource processRequest processResponse
       processRelease processMessage processQueue addKnownNode giveResource
       verifyResponse sendResponse getStatus this assign call skip mbind mret
       Method_bind Method_ret state_after output
       set_isResourceWaiting set_isResourceExisting set_timestamp set_queue
       set_receivedMessages set_knownNodes
       isResourceWaiting isResourceExisting nodeId timestamp queue
       receivedMessages knownNodes fst snd negb];
  cbn [app].

(** The state once the resource is given. *)
Definition granted (s : MutualExclusion.t) : MutualExclusion.t :=
  set_isResourceWaiting false (set_isResourceExisting true s).

(** The state and the message of a request that is accepted. *)
Definition requesting (s : MutualExclusion.t) : MutualExclusion.t :=
  set_receivedMessages ∅
    (set_isResourceWaiting true (set_timestamp (timestamp s + 1) s)).

Lemma requestResource_idle (s : MutualExclusion.t) :
  isResourceWaiting s = false → isResourceExisting s = false →
  requestResource s =
    if bool_decide (knownNodes s = ∅)
    then (tt, granted (requesting s),
          [Log INFO (Requesting (nodeId s) (timestamp s + 1));
           Log INFO ResourceGranted; ReceivedResource])
    else (tt, requesting s,
          [Log INFO (Requesting (nodeId s) (timestamp s + 1));
           Send (ControlMessage.mk REQUEST (nodeId s) (timestamp s + 1))]).
Proof.
  destruct s as [n w e ts q r k]. simpl. intros -> ->. run_call.
  case_bool_decide as Hsize.
  - apply size_empty_inv, leibniz_equiv in Hsize. subst k.
    rewrite bool_decide_true by done. reflexivity.
  - rewrite size_empty. rewrite (bool_decide_false (_ ≤ _)%nat) by lia.
    rewrite (bool_decide_false (k = ∅)); [reflexivity|].
    intros ->. by rewrite size_empty in Hsize.
Qed.

Lemma requestResource_busy (s : MutualExclusion.t) :
  isResourceWaiting s = true ∨ isResourceExisting s = true →
  state_after (requestResource s) = s
  ∧ sent (output (requestResource s)) = []
  ∧ ReceivedResource ∉ output (requestResource s).
Proof.
  destruct s as [n w e ts q r k]. simpl. run_call.
  intros [-> | ->]; [|destruct w]; run_call;
    (split; [done|]; split; [done|]);
    intros [H|H]%elem_of_cons; (discriminate || inversion H).
Qed.

Lemma releaseResource_idle (s : MutualExclusion.t) :
  isResourceExisting s = false →
  releaseResource localeCompare s = (tt, s, [Log WARNING (NotHaving (nodeId s))]).
Proof. destruct s as [n w e ts q r k]. simpl. intros ->. reflexivity. Qed.

Lemma processRequest_closed (m : ControlMessage.t) (s : MutualExclusion.t) :
  processRequest m s =
    if isResourceExisting s
       || isResourceWaiting s
          && ((timestamp s <? ControlMessage.timestamp m)
              || ((timestamp s =? ControlMessage.timestamp m)
                  && String.ltb (nodeId s) (ControlMessage.originNode m)))
    then (tt, set_queue (queue s ++ [QueueEntry.mk (ControlMessage.originNode m)
                                       (ControlMessage.timestamp m)]) s,
          [Log DEBUG (ReceivedRequest (nodeId s) (ControlMessage.originNode m)
                        (ControlMessage.timestamp m));
           Log DEBUG (AddedToQueue (nodeId s) (ControlMessage.originNode m))])
    else (tt, s,
          [Log DEBUG (ReceivedRequest (nodeId s) (ControlMessage.originNode m)
                        (ControlMessage.timestamp m));
           Log DEBUG (SendingResponse (nodeId s) (ControlMessage.originNode m));
           Send (ControlMessage.mk RESPONSE (nodeId s) (timestamp s))]).
Proof.
  destruct s as [n w e ts q r k]. run_call.
  destruct (e || w && _); reflexivity.
Qed.

Lemma processResponse_closed (m : ControlMessage.t) (s : MutualExclusion.t) :
  processResponse m s =
    if isResourceWaiting s then
      let s1 := set_receivedMessages
                  ({[ControlMessage.originNode m]} ∪ receivedMessages s) s in
      if bool_decide (size (knownNodes s) ≤ size (receivedMessages s1))%nat
      then (tt, granted s1,
            [Log DEBUG (ReceivedResponse (nodeId s) (ControlMessage.originNode m)
                          (ControlMessage.timestamp m));
             Log INFO ResourceGranted; ReceivedResource])
      else (tt, s1,
            [Log DEBUG (ReceivedResponse (nodeId s) (ControlMessage.originNode m)
                          (ControlMessage.timestamp m))])
    else (tt, s, []).
Proof.
  destruct s as [n w e ts q r k]. run_call.
  destruct w; run_call; [|reflexivity].
  case_bool_decide; reflexivity.
Qed.

Lemma processRelease_closed (m : ControlMessage.t) (s : MutualExclusion.t) :
  processRelease localeCompare m s =
    (tt, set_queue [] s,
     Log DEBUG (ReceivedRelease (nodeId s) (ControlMessage.originNode m)
                  (ControlMessage.timestamp m))
     :: flat_map (serve s) (JsArray.sort (queue_compare localeCompare) (queue s))).
Proof.
  unfold processRelease. cbv [this call mbind Method_bind].
  rewrite processQueue_spec. reflexivity.
Qed.

Lemma assign_then {A} (f : MutualExclusion.t → MutualExclusion.t)
  (k : Method A) (s : MutualExclusion.t) :
  (assign f;; k) s = k (f s).
Proof.
  cbv [assign mbind Method_bind]. by destruct (k (f s)) as [[y s2] out].
Qed.

Lemma processMessage_closed (m : ControlMessage.t) (s : MutualExclusion.t) :
  processMessage localeCompare m s =
    let s0 := set_knownNodes ({[ControlMessage.originNode m]} ∪ knownNodes s) s in
    match ControlMessage.type m with
    | REQUEST => processRequest m s0
    | RESPONSE => processResponse m s0
    | RELEASE => processRelease localeCompare m s0
    end.
Proof.
  unfold processMessage. rewrite assign_then. cbv zeta.
  by destruct (ControlMessage.type m).
Qed.
End CoordinatorCalls.

(** ** The coordinator under any sequence of calls *)

(** The public methods that change the coordinator. *)
Inductive Call : Type :=
| CallRequestResource
| CallReleaseResource
| CallProcessMessage (message : ControlMessage.t)
| CallAddKnownNode (node : string).

(** How many times an output invokes [receivedResourceCallback]. *)
Fixpoint callbacks (out : list MutualExclusion.Effect) : nat :=
  match out with
  | [] => 0
  | MutualExclusion.ReceivedResource :: rest => S (callbacks rest)
  | _ :: rest => callbacks rest
  end.

Section CoordinatorInvariants.
Import Logger MutualExclusion.
Variable localeCompare : string → string → Z.

Definition perform (c : Call) : Method unit :=
  match c with
  | CallRequestResource => requestResource
  | CallReleaseResource => releaseResource localeCompare
  | CallProcessMessage m => processMessage localeCompare m
  | CallAddKnownNode node => addKnownNode node
  end.

Definition perform_all (calls : list Call) (s : MutualExclusion.t)
  : MutualExclusion.t :=
  foldl (λ s c, state_after (perform c s)) s calls.

Lemma requestResource_closed (s : MutualExclusion.t) :
  requestResource s =
    if isResourceWaiting s then (tt, s, [Log WARNING (AlreadyWaiting (nodeId s))])
    else if isResourceExisting s then (tt, s, [Log WARNING (AlreadyHaving (nodeId s))])
    else if bool_decide (knownNodes s = ∅)
    then (tt, granted (requesting s),
          [Log INFO (Requesting (nodeId s) (timestamp s + 1));
           Log INFO ResourceGranted; ReceivedResource])
    else (tt, requesting s,
          [Log INFO (Requesting (nodeId s) (timestamp s + 1));
           Send (ControlMessage.mk REQUEST (nodeId s) (timestamp s + 1))]).
Proof.
  destruct (isResourceWaiting s) eqn:Hw; [by destruct s; simpl in *; subst|].
  destruct (isResourceExisting s) eqn:He;
    [by destruct s; simpl in *; subst|].
  by apply requestResource_idle.
Qed.

Lemma releaseResource_closed (s : MutualExclusion.t) :
  releaseResource localeCompare s =
    if isResourceExisting s
    then (tt, set_queue [] (set_isResourceWaiting false (set_isResourceExisting false s)),
          Log INFO (Releasing (nodeId s))
          :: Send (ControlMessage.mk RELEASE (nodeId s) (timestamp s))
          :: flat_map (serve s) (JsArray.sort (queue_compare localeCompare) (queue s)))
    else (tt, s, [Log WARNING (NotHaving (nodeId s))]).
Proof.
  destruct (isResourceExisting s) eqn:He.
  - by apply releaseResource_holding.
  - by apply releaseResource_idle.
Qed.

Lemma addKnownNode_closed (node : string) (s : MutualExclusion.t) :
  addKnownNode node s =
    if bool_decide (node ≠ nodeId s)
    then (tt, set_knownNodes ({[node]} ∪ knownNodes s) s,
          [Log DEBUG (AddedKnownNode (nodeId s) node)])
    else (tt, s, []).
Proof. destruct s as [n w e ts q r k]. cbv [addKnownNode this mbind Method_bind].
  cbn [nodeId]. case_bool_decide; reflexivity.
Qed.

Lemma sent_serve (s : MutualExclusion.t) (entries : list QueueEntry.t) :
  sent (flat_map (serve s) entries)
  = replicate (length entries) (ControlMessage.mk RESPONSE (nodeId s) (timestamp s)).
Proof. induction entries as [|e entries IH]; simpl; [done|]. by rewrite <- IH. Qed.

Lemma callbacks_serve (s : MutualExclusion.t) (entries : list QueueEntry.t) :
  callbacks (flat_map (serve s) entries) = 0%nat.
Proof. induction entries as [|e entries IH]; [done|]. exact IH. Qed.

Lemma sent_nil : sent [] = [].
Proof. reflexivity. Qed.
Lemma sent_log level line out : sent (Log level line :: out) = sent out.
Proof. reflexivity. Qed.
Lemma sent_send m out : sent (Send m :: out) = m :: sent out.
Proof. reflexivity. Qed.
Lemma sent_callback out : sent (ReceivedResource :: out) = sent out.
Proof. reflexivity. Qed.
Lemma callbacks_log level line out : callbacks (Log level line :: out) = callbacks out.
Proof. reflexivity. Qed.
Lemma callbacks_send m out : callbacks (Send m :: out) = callbacks out.
Proof. reflexivity. Qed.
Lemma callbacks_callback out : callbacks (ReceivedResource :: out) = S (callbacks out).
Proof. reflexivity. Qed.

Create Rewrite HintDb coordinator_output.
Hint Rewrite sent_nil sent_log sent_send sent_callback sent_serve
  callbacks_log callbacks_send callbacks_callback callbacks_serve : coordinator_output.

(** Case analysis on a call, down to the closed form of its result. *)
Ltac by_call c s :=
  let msg := fresh "msg" in
  let other := fresh "other" in
  destruct c as [| |msg|other]; unfold perform;
  [ rewrite (requestResource_closed s)
  | rewrite (releaseResource_closed s)
  | rewrite (processMessage_closed localeCompare msg s); cbv zeta;
    destruct (ControlMessage.type msg) eqn:Htype;
    [ rewrite processRequest_closed
    | rewrite processResponse_closed
    | rewrite processRelease_closed ]
  | rewrite (addKnownNode_closed other s) ];
  destruct s as [sn sw se sts sq sr sk];
  cbn [isResourceWaiting isResourceExisting nodeId timestamp queue
       receivedMessages knownNodes set_knownNodes] in *.

Ltac finish_call :=
  repeat (case_bool_decide || case_match);
  cbv [state_after output granted requesting
       set_isResourceWaiting set_isResourceExisting set_timestamp set_queue
       set_receivedMessages set_knownNodes
       isResourceWaiting isResourceExisting nodeId timestamp queue
       receivedMessages knownNodes fst snd] in *.

(** The conditions every reachable state meets. *)
Definition well_formed (node : string) (s : MutualExclusion.t) : Prop :=
  nodeId s = node
  ∧ isResourceWaiting s && isResourceExisting s = false
  ∧ receivedMessages s ⊆ knownNodes s
  ∧ 0 ≤ timestamp s.

Lemma well_formed_perform (node : string) (c : Call) (s : MutualExclusion.t) :
  well_formed node s → well_formed node (state_after (perform c s)).
Proof.
  unfold well_formed. intros (Hn & Hf & Ha & Ht).
  by_call c s; finish_call; subst; simpl in *;
    (split; [done|]; split; [done || by destruct sw|]; split; [set_solver|lia]).
Qed.

(** X1: whatever calls are made on a fresh coordinator, in whatever order: it
    keeps its identifier, it is never waiting for the resource while
    holding it, every acknowledgement counted is from a known node, and
    its clock is not negative. *)
Theorem reachable_states_are_well_formed (node : string) (calls : list Call) :
  well_formed node (perform_all calls (MutualExclusion.new node)).
Proof.
  assert (∀ s, well_formed node s → well_formed node (perform_all calls s)) as H.
  { induction calls as [|c calls IH]; intros s Hs; [done|].
    apply IH. by apply well_formed_perform. }
  apply H. unfold well_formed. simpl. split; [done|]. split; [done|].
  split; [set_solver|lia].
Qed.

(** X2: every message a call hands to [sendCallback] is signed with the node's
    own identifier and the clock as the call leaves it; a REQUEST comes
    only from [requestResource], a RELEASE only from [releaseResource], and
    a RESPONSE only from [releaseResource] or [processMessage]. *)
Theorem sent_messages_are_signed
  (c : Call) (s : MutualExclusion.t) (m : ControlMessage.t) :
  m ∈ sent (output (perform c s)) →
  ControlMessage.originNode m = nodeId s
  ∧ ControlMessage.timestamp m = timestamp (state_after (perform c s))
  ∧ match ControlMessage.type m with
    | REQUEST => c = CallRequestResource
    | RELEASE => c = CallReleaseResource
    | RESPONSE => c = CallReleaseResource ∨ ∃ m', c = CallProcessMessage m'
    end.
Proof.
  by_call c s; finish_call; autorewrite with coordinator_output; intros Hin;
    repeat match goal with
    | H : _ ∈ [] |- _ => by apply elem_of_nil in H
    | H : _ ∈ _ :: _ |- _ => apply elem_of_cons in H as [->|H]
    | H : _ ∈ replicate _ _ |- _ => apply elem_of_replicate in H as [-> _]
    end; simpl in *; try discriminate; eauto.
Qed.

(** X3: the clock moves only when a request is accepted, and then by one: no
    incoming message, release or membership call changes it. *)
Theorem clock_moves_only_on_accepted_request (c : Call) (s : MutualExclusion.t) :
  timestamp (state_after (perform c s))
  = match c with
    | CallRequestResource =>
        if isResourceWaiting s || isResourceExisting s
        then timestamp s else timestamp s + 1
    | _ => timestamp s
    end.
Proof. by_call c s; finish_call; simpl in *; congruence. Qed.

Lemma knownNodes_perform (c : Call) (s : MutualExclusion.t) :
  knownNodes s ⊆ knownNodes (state_after (perform c s))
  ∧ match c with
    | CallProcessMessage m =>
        knownNodes (state_after (perform c s))
        = {[ControlMessage.originNode m]} ∪ knownNodes s
    | CallAddKnownNode node =>
        knownNodes (state_after (perform c s))
        = if bool_decide (node = nodeId s) then knownNodes s
          else {[node]} ∪ knownNodes s
    | _ => knownNodes (state_after (perform c s)) = knownNodes s
    end.
Proof.
  by_call c s; finish_call; simpl in *; (split; [set_solver|]); congruence.
Qed.

(** X4: the membership set only grows, and [processMessage] records the sender
    of every message, whatever its type and even when the sender is the
    node itself; [addKnownNode] alone refuses the node's own identifier. *)
Theorem membership_only_grows (c : Call) (s : MutualExclusion.t) :
  knownNodes s ⊆ knownNodes (state_after (perform c s))
  ∧ match c with
    | CallProcessMessage m =>
        knownNodes (state_after (perform c s))
        = {[ControlMessage.originNode m]} ∪ knownNodes s
    | CallAddKnownNode node =>
        knownNodes (state_after (perform c s))
        = if bool_decide (node = nodeId s) then knownNodes s
          else {[node]} ∪ knownNodes s
    | _ => knownNodes (state_after (perform c s)) = knownNodes s
    end.
Proof. exact (knownNodes_perform c s). Qed.

(** X5: the grant callback is invoked exactly when a call makes the node a
    holder, and then once. *)
Theorem callback_marks_each_grant (c : Call) (s : MutualExclusion.t) :
  isResourceWaiting s && isResourceExisting s = false →
  callbacks (output (perform c s))
  = if negb (isResourceExisting s)
       && isResourceExisting (state_after (perform c s))
    then 1%nat else 0%nat.
Proof.
  intros Hboth.
  by_call c s; finish_call; simpl in *; subst;
    rewrite ?callbacks_serve; try done;
    destruct se; try done; by destruct sw.
Qed.

(** X6: a request made while idle.  With no node known it is granted on the
    spot and nothing is sent; with some node known the node waits, having
    sent exactly one REQUEST, and is not granted by the call itself.  Either
    way the clock has advanced by one and no acknowledgement is held. *)
Theorem requestResource_when_idle (s : MutualExclusion.t) :
  isResourceWaiting s = false → isResourceExisting s = false →
  let r := requestResource s in
  let s' := state_after r in
  timestamp s' = timestamp s + 1
  ∧ receivedMessages s' = ∅
  ∧ knownNodes s' = knownNodes s
  ∧ queue s' = queue s
  ∧ if bool_decide (knownNodes s = ∅)
    then isResourceExisting s' = true ∧ isResourceWaiting s' = false
         ∧ sent (output r) = [] ∧ callbacks (output r) = 1%nat
    else isResourceExisting s' = false ∧ isResourceWaiting s' = true
         ∧ sent (output r)
           = [ControlMessage.mk REQUEST (nodeId s) (timestamp s + 1)]
         ∧ callbacks (output r) = 0%nat.
Proof.
  intros Hw He. cbv zeta. rewrite (requestResource_idle s Hw He).
  case_bool_decide; destruct s; done.
Qed.

(** X7: a RESPONSE that arrives a second time changes nothing: the state is as
    the first delivery left it, nothing is sent and the callback is not
    invoked again. *)
Theorem duplicate_response_is_harmless
  (m : ControlMessage.t) (s : MutualExclusion.t) :
  ControlMessage.type m = RESPONSE →
  let s1 := state_after (processMessage localeCompare m s) in
  let again := processMessage localeCompare m s1 in
  state_after again = s1
  ∧ sent (output again) = []
  ∧ callbacks (output again) = 0%nat.
Proof.
  intros Hm. cbv zeta.
  assert (Hunion : ∀ X : gset string,
    {[ControlMessage.originNode m]} ∪ ({[ControlMessage.originNode m]} ∪ X)
    = {[ControlMessage.originNode m]} ∪ X) by (intros; set_solver).
  rewrite (processMessage_closed localeCompare m s). cbv zeta.
  rewrite Hm, processResponse_closed.
  destruct s as [n w e ts q r k].
  cbn [isResourceWaiting set_knownNodes knownNodes receivedMessages
       set_receivedMessages].
  destruct w.
  - case_bool_decide as Hsize.
    + cbv [state_after granted set_isResourceWaiting set_isResourceExisting
           fst snd]. cbn.
      rewrite processMessage_closed. cbv zeta. rewrite Hm, processResponse_closed.
      cbn. by rewrite Hunion.
    + cbv [state_after fst snd].
      rewrite processMessage_closed. cbv zeta. rewrite Hm, processResponse_closed.
      cbn. rewrite !Hunion. by rewrite bool_decide_false.
  - cbv [state_after fst snd].
    rewrite processMessage_closed. cbv zeta. rewrite Hm, processResponse_closed.
    cbn. by rewrite Hunion.
Qed.

(** X8: any RELEASE drains the deferred queue, whatever the node's own state:
    even a node that holds the resource then sends one RESPONSE for each
    deferred requester and forgets them all; its flags stay as they were. *)
Theorem release_message_drains_queue
  (m : ControlMessage.t) (s : MutualExclusion.t) :
  ControlMessage.type m = RELEASE →
  let r := processMessage localeCompare m s in
  queue (state_after r) = []
  ∧ sent (output r)
    = replicate (length (queue s))
        (ControlMessage.mk RESPONSE (nodeId s) (timestamp s))
  ∧ isResourceExisting (state_after r) = isResourceExisting s
  ∧ isResourceWaiting (state_after r) = isResourceWaiting s.
Proof.
  intros Hm. cbv zeta. rewrite processMessage_closed. cbv zeta.
  rewrite Hm, processRelease_closed. destruct s as [n w e ts q r k].
  cbv [state_after output fst snd]. cbn [set_queue set_knownNodes queue nodeId
    timestamp isResourceExisting isResourceWaiting].
  by rewrite sent_log, sent_serve, sort_length.
Qed.

Lemma nodeId_perform (c : Call) (s : MutualExclusion.t) :
  nodeId (state_after (perform c s)) = nodeId s.
Proof. by_call c s; finish_call; done. Qed.

(** A node comes to know itself only by processing a message signed with
    its own identifier. *)
Lemma self_unknown_perform (c : Call) (s : MutualExclusion.t) :
  nodeId s ∉ knownNodes s →
  (∀ m, c = CallProcessMessage m → ControlMessage.originNode m ≠ nodeId s) →
  nodeId (state_after (perform c s)) ∉ knownNodes (state_after (perform c s)).
Proof.
  intros Hs Hc. rewrite nodeId_perform.
  destruct (knownNodes_perform c s) as [_ Hk].
  destruct c as [| |m|node]; rewrite Hk; [done|done| |].
  - specialize (Hc m eq_refl). set_solver.
  - case_bool_decide; set_solver.
Qed.
End CoordinatorInvariants.

(** ** The group: no node counts itself among its peers *)

Section GroupInvariants.
Import MutualExclusion Group.
Variable localeCompare : string → string → Z.

Lemma on_member_Forall (P : MutualExclusion.t → Prop)
  (node : string) (method : Method unit) (w : Group.t) :
  (∀ n, nodeId n = node → P n → P (state_after (method n))) →
  Forall P (members w) → Forall P (members (on_member node method w)).
Proof.
  intros Hmethod Hall. unfold on_member. cbn [members].
  rewrite Forall_forall in Hall. apply Forall_forall. intros n' Hin.
  apply list_elem_of_fmap in Hin as (r & -> & Hin).
  apply list_elem_of_fmap in Hin as (n & -> & Hin).
  case_bool_decide; [|by apply Hall]. apply Hmethod; auto.
Qed.

(** X9: in every run of a group of fresh nodes, whatever is requested,
    released, announced or delivered and in whatever order, no node has
    its own identifier in [knownNodes]: the transport's self-suppression
    and the guard of [addKnownNode] together keep it out. *)
Theorem no_member_knows_itself (events : list Event) (ids : list string) :
  Forall (λ n, nodeId n ∉ knownNodes n)
         (members (run localeCompare events (start ids))).
Proof.
  assert (Hstep : ∀ w e,
    Forall (λ n, nodeId n ∉ knownNodes n) (members w) →
    Forall (λ n, nodeId n ∉ knownNodes n) (members (step localeCompare w e))).
  { intros w [node|node|node other|k] Hw; cbn [step].
    - apply on_member_Forall; [|done]. intros n _ Hn.
      by apply (self_unknown_perform localeCompare CallRequestResource).
    - apply on_member_Forall; [|done]. intros n _ Hn.
      by apply (self_unknown_perform localeCompare CallReleaseResource).
    - apply on_member_Forall; [|done]. intros n _ Hn.
      by apply (self_unknown_perform localeCompare (CallAddKnownNode other)).
    - destruct (wire w !! k) as [[receiver m]|]; [|done].
      apply on_member_Forall; [|done]. intros n Hid Hn.
      unfold inbound. case_bool_decide as Hself; [done|].
      apply (self_unknown_perform localeCompare (CallProcessMessage m)); [done|].
      intros m' [= <-]. congruence. }
  unfold run.
  assert (Hrun : ∀ w,
    Forall (λ n, nodeId n ∉ knownNodes n) (members w) →
    Forall (λ n, nodeId n ∉ knownNodes n)
           (members (foldl (step localeCompare) w events))).
  { induction events as [|e events IH]; intros w Hw; [done|].
    apply IH. by apply Hstep. }
  apply Hrun. unfold start. cbn [members]. apply Forall_fmap, Forall_forall.
  intros id _. simpl. set_solver.
Qed.
End GroupInvariants.

(** ** The replicator: what a completed write leaves on disk *)

Section ReplicatorWrites.
Import Replicator.
Variable NAME_MAX : nat.

(** The writes of a list that go to a given file of a given replica. *)
Definition writes_to (i : nat) (f : string) (writes : list Write) : list Write :=
  filter (λ w, replica w = i ∧ file w = f) writes.

(** Writes done one after the other: for every file, the last write to it
    decides its content, and a file nobody wrote is as it was. *)
Lemma puts_last_write_wins (writes : list Write) :
  ∀ (disk : gmap nat (gmap string Message.t)) (i : nat) (dir : gmap string Message.t),
    disk !! i = Some dir →
    ∃ dir', puts writes disk !! i = Some dir'
      ∧ ∀ f, dir' !! f =
             match last (writes_to i f writes) with
             | Some w => Some (content w)
             | None => dir !! f
             end.
Proof.
  induction writes as [|w writes IH]; intros disk i dir Hdir.
  - exists dir. split; [done|]. intros f. reflexivity.
  - change (puts (w :: writes) disk) with (puts writes (put disk w)).
    pose proof (put_lookup disk w i) as Hw. rewrite Hdir in Hw.
    destruct (IH _ _ _ Hw) as (dir' & Hdir' & Hfiles).
    exists dir'. split; [done|]. intros f. rewrite Hfiles.
    unfold writes_to. rewrite filter_cons.
    destruct (decide (replica w = i ∧ file w = f)) as [[Hi Hf]|Hno].
    + rewrite last_cons. destruct (last _); [done|].
      rewrite decide_True by done. subst f. by rewrite lookup_insert_eq.
    + destruct (last _); [done|].
      destruct (decide (replica w = i)) as [Hi|Hi]; [|done].
      rewrite lookup_insert_ne; [done|]. intros Hf. by apply Hno.
Qed.

Lemma complete_saveMessage_lookup
  (r : Replicator.t) (m : Message.t) (order : list Write)
  (disk : gmap nat (gmap string Message.t)) (i : nat) (dir : gmap string Message.t) :
  Path.has Path.NUL (basePath r) = false →
  Path.name NAME_MAX (Message.id m +:+ ".json") = true →
  order ≡ₚ saveMessage r m →
  disk !! i = Some dir →
  ∃ dir', complete NAME_MAX r order disk !! i = Some dir'
    ∧ (∀ f, f ≠ Message.id m +:+ ".json" → dir' !! f = dir !! f)
    ∧ dir' !! (Message.id m +:+ ".json")
      = if decide (1 ≤ i ≤ replicasNumber r)%nat then Some m
        else dir !! (Message.id m +:+ ".json").
Proof.
  intros Hbase Hname Horder Hdir.
  assert (Hin : ∀ w, w ∈ order ↔
    ∃ j, (1 ≤ j ≤ replicasNumber r)%nat
         ∧ w = mkWrite j (Message.id m +:+ ".json") m).
  { intros w. rewrite Horder. unfold saveMessage. rewrite list_elem_of_fmap.
    setoid_rewrite elem_of_seq. split.
    - intros (j & -> & Hj). exists j. split; [lia|done].
    - intros (j & Hj & ->). exists j. split; [done|lia]. }
  rewrite complete_names; [|done|by intros w (j & _ & ->)%Hin].
  destruct (puts_last_write_wins order disk i dir Hdir) as (dir' & Hdir' & Hfiles).
  exists dir'. split; [done|].
  split.
  - intros f Hf. rewrite Hfiles.
    destruct (last (writes_to i f order)) as [w|] eqn:Hlast; [|done].
    apply last_Some_elem_of, list_elem_of_filter in Hlast as [[_ Hfile] Hw].
    apply Hin in Hw as (j & _ & ->). simpl in Hfile. congruence.
  - rewrite Hfiles.
    destruct (last (writes_to i _ order)) as [w|] eqn:Hlast.
    + apply last_Some_elem_of, list_elem_of_filter in Hlast as [[Hi _] Hw].
      apply Hin in Hw as (j & Hj & ->). simpl in Hi. subst j.
      by rewrite decide_True.
    + destruct (decide _) as [Hi|]; [|done]. exfalso.
      apply last_None in Hlast.
      assert (mkWrite i (Message.id m +:+ ".json") m
              ∈ writes_to i (Message.id m +:+ ".json") order) as Hthere.
      { apply list_elem_of_filter. split; [done|]. apply Hin. eauto. }
      rewrite Hlast in Hthere. by apply elem_of_nil in Hthere.
Qed.

(** X10: for a message whose file name [<id>.json] is a name a directory
    can hold (no ['/'], no NUL, within the length the file system takes):
    once the writes scheduled by [saveMessage(m)] are done, in whatever
    order, every replica directory that exists among [replica_1] ..
    [replica_N] holds [m] in the file [<id>.json], and every other file of
    every replica is untouched. *)
Theorem saveMessage_writes_one_file_per_replica
  (r : Replicator.t) (m : Message.t) (order : list Write)
  (disk : gmap nat (gmap string Message.t)) (i : nat) (dir : gmap string Message.t) :
  Path.has Path.NUL (basePath r) = false →
  Path.name NAME_MAX (Message.id m +:+ ".json") = true →
  order ≡ₚ saveMessage r m →
  disk !! i = Some dir →
  ∃ dir', complete NAME_MAX r order disk !! i = Some dir'
    ∧ (∀ f, f ≠ Message.id m +:+ ".json" → dir' !! f = dir !! f)
    ∧ dir' !! (Message.id m +:+ ".json")
      = if decide (1 ≤ i ≤ replicasNumber r)%nat then Some m
        else dir !! (Message.id m +:+ ".json").
Proof. exact (complete_saveMessage_lookup r m order disk i dir). Qed.

(** X11: [initializeReplicas] makes every directory [replica_1] .. [replica_N]
    exist, leaves the directories that are already there as they are, and
    done a second time changes nothing. *)
Theorem initializeReplicas_creates_what_is_missing
  (r : Replicator.t) (disk : gmap nat (gmap string Message.t)) :
  (∀ i, (1 ≤ i ≤ replicasNumber r)%nat → is_Some (initializeReplicas r disk !! i))
  ∧ (∀ i dir, disk !! i = Some dir → initializeReplicas r disk !! i = Some dir)
  ∧ (∀ i, disk !! i = None → ¬ (1 ≤ i ≤ replicasNumber r)%nat →
          initializeReplicas r disk !! i = None)
  ∧ initializeReplicas r (initializeReplicas r disk) = initializeReplicas r disk.
Proof.
  split; [apply initialized_initializeReplicas|]. split; [|split].
  - intros i dir Hdir. by rewrite initializeReplicas_lookup, Hdir.
  - intros i Hnone Hi. rewrite initializeReplicas_lookup, Hnone.
    by rewrite decide_False.
  - apply map_eq. intros i. rewrite (initializeReplicas_lookup r (initializeReplicas _ _)).
    rewrite initializeReplicas_lookup.
    destruct (disk !! i); [done|]. by destruct (decide _).
Qed.
End ReplicatorWrites.

(** ** The replicator: what is read back *)

Section ReplicatorReads.
Import Replicator Reconciler.
Variable readdirSync : gmap string Message.t → list string.
Hypothesis readdirSync_lists : lists_the_directory readdirSync.
Variable NAME_MAX : nat.

End ReplicatorReads.

Section ReplicatorOrder.
Import Replicator.
Variable readdirSync : gmap string Message.t → list string.

End ReplicatorOrder.

(** ** The reconciler: the merged view and a pass over consistent replicas *)

Section JsMapLookups.
Context {V : Type}.
Implicit Types (u : list (string * V)) (k : string) (v : V).

Lemma JsMap_get_set u k v k' :
  JsMap.get (JsMap.set u k v) k' = if bool_decide (k = k') then Some v else JsMap.get u k'.
Proof.
  induction u as [|[k0 v0] u IH]; cbn [JsMap.set JsMap.get]; [done|].
  destruct (decide (k0 = k)) as [->|Hne].
  - rewrite (bool_decide_true (k = k)) by done. cbn [JsMap.get].
    destruct (decide (k = k')) as [->|Hne'].
    + by rewrite !bool_decide_true.
    + by rewrite !bool_decide_false.
  - rewrite (bool_decide_false (k0 = k)) by done. cbn [JsMap.get]. rewrite IH.
    destruct (decide (k0 = k')) as [->|Hne'].
    + rewrite (bool_decide_true (k' = k')) by done. by rewrite bool_decide_false.
    + by rewrite (bool_decide_false (k0 = k')).
Qed.

Lemma JsMap_get_None u k : JsMap.get u k = None ↔ k ∉ u.*1.
Proof.
  induction u as [|[k0 v0] u IH]; simpl.
  - split; [intros _; apply not_elem_of_nil|done].
  - rewrite not_elem_of_cons. case_bool_decide; subst; [|rewrite IH]; naive_solver.
Qed.

Lemma JsMap_has_get u k : JsMap.has u k = false ↔ JsMap.get u k = None.
Proof.
  unfold JsMap.has. rewrite JsMap_get_None.
  split; [by intros ?%bool_decide_eq_false|by intros ?; apply bool_decide_eq_false].
Qed.

Lemma JsMap_set_NoDup u k v : NoDup u.*1 → NoDup (JsMap.set u k v).*1.
Proof.
  induction u as [|[k0 v0] u IH]; simpl.
  - intros _. apply NoDup_singleton.
  - intros [Hk0 Hu]%NoDup_cons. case_bool_decide; subst; simpl.
    + by apply NoDup_cons.
    + apply NoDup_cons. split; [|by apply IH].
      rewrite JsMap_set_keys. naive_solver.
Qed.

Lemma JsMap_get_elem_of u k v :
  NoDup u.*1 → (k, v) ∈ u → JsMap.get u k = Some v.
Proof.
  induction u as [|[k0 v0] u IH]; simpl.
  - intros _ Hin. by apply elem_of_nil in Hin.
  - intros [Hk0 Hu]%NoDup_cons [[= -> ->]|Hin]%elem_of_cons.
    + by rewrite bool_decide_true.
    + case_bool_decide; subst; [|by apply IH].
      exfalso. apply Hk0. apply list_elem_of_fmap. by exists (k, v).
Qed.
End JsMapLookups.

Section MergedView.
Import Logger Replicator Reconciler.

(** [u] holds, for every id among the messages [seen], one record of that
    id, taken from [seen], that no record of [seen] with the id is newer
    than. *)
Definition newest_of (u : list (string * Message.t)) (seen : list Message.t) : Prop :=
  NoDup u.*1
  ∧ (∀ k v, JsMap.get u k = Some v → Message.id v = k ∧ v ∈ seen)
  ∧ (∀ m, m ∈ seen →
       ∃ v, JsMap.get u (Message.id m) = Some v
            ∧ Message.timestamp m ≤ Message.timestamp v).

Lemma merge_newest (u : list (string * Message.t)) (seen : list Message.t)
  (m : Message.t) :
  newest_of u seen → newest_of (merge u m) (seen ++ [m]).
Proof.
  intros (Hdup & Hfrom & Hnewest). unfold merge.
  destruct (JsMap.get u (Message.id m)) as [old|] eqn:Hget.
  - assert (JsMap.has u (Message.id m) = true) as ->.
    { destruct (JsMap.has u (Message.id m)) eqn:Hhas; [done|].
      apply JsMap_has_get in Hhas. congruence. }
    cbn [negb orb]. destruct (Z.ltb_spec (Message.timestamp old) (Message.timestamp m)).
    + split; [by apply JsMap_set_NoDup|]. split.
      * intros k v. rewrite JsMap_get_set. case_bool_decide.
        -- intros [= <-]. split; [done|]. apply elem_of_app. right. by left.
        -- intros [? ?]%Hfrom. split; [done|]. apply elem_of_app. by left.
      * intros m' [Hin|Hin%list_elem_of_singleton]%elem_of_app.
        -- rewrite JsMap_get_set. case_bool_decide as Hid.
           ++ exists m. split; [done|].
              destruct (Hnewest m' Hin) as (v & Hv & Hle).
              rewrite <- Hid, Hget in Hv. injection Hv as <-. lia.
           ++ by apply Hnewest.
        -- subst m'. rewrite JsMap_get_set, bool_decide_true by done.
           exists m. split; [done|lia].
    + split; [done|]. split.
      * intros k v [? ?]%Hfrom. split; [done|]. apply elem_of_app. by left.
      * intros m' [Hin|Hin%list_elem_of_singleton]%elem_of_app; [by apply Hnewest|].
        subst m'. exists old. split; [done|lia].
  - assert (JsMap.has u (Message.id m) = false) as -> by by apply JsMap_has_get.
    cbn [negb orb]. split; [by apply JsMap_set_NoDup|]. split.
    + intros k v. rewrite JsMap_get_set. case_bool_decide.
      * intros [= <-]. split; [done|]. apply elem_of_app. right. by left.
      * intros [? ?]%Hfrom. split; [done|]. apply elem_of_app. by left.
    + intros m' [Hin|Hin%list_elem_of_singleton]%elem_of_app.
      * rewrite JsMap_get_set. case_bool_decide as Hid; [|by apply Hnewest].
        destruct (Hnewest m' Hin) as (v & Hv & _). congruence.
      * subst m'. rewrite JsMap_get_set, bool_decide_true by done.
        exists m. split; [done|lia].
Qed.

Lemma foldl_merge_newest (messages : list Message.t) :
  ∀ u seen, newest_of u seen → newest_of (foldl merge u messages) (seen ++ messages).
Proof.
  induction messages as [|m messages IH]; intros u seen Hu; simpl.
  - by rewrite app_nil_r.
  - change (seen ++ m :: messages) with (seen ++ [m] ++ messages).
    rewrite (assoc_L (++) seen [m] messages). apply IH. by apply merge_newest.
Qed.

Lemma merge_all_newest (allMessages : list (nat * list Message.t)) :
  newest_of (merge_all allMessages) (flat_map snd allMessages).
Proof.
  unfold merge_all.
  assert (∀ u seen, newest_of u seen →
    newest_of (foldl (λ u entry, foldl merge u entry.2) u allMessages)
              (seen ++ flat_map snd allMessages)) as Hgen.
  { induction allMessages as [|entry rest IH]; intros u seen Hu; simpl.
    - by rewrite app_nil_r.
    - rewrite (assoc_L (++)). apply IH. by apply foldl_merge_newest. }
  apply (Hgen [] []). split; [constructor|]. split; [done|].
  intros m Hin. by apply elem_of_nil in Hin.
Qed.
End MergedView.

Section ReconcilerPasses.
Import Logger Replicator Reconciler.
Variable readdirSync : gmap string Message.t → list string.

Lemma elem_of_all_messages (r : Replicator.t)
  (disk : gmap nat (gmap string Message.t)) (m : Message.t) :
  m ∈ flat_map snd (getAllMessages readdirSync r disk) ↔
  ∃ i, (1 ≤ i ≤ replicasNumber r)%nat ∧ m ∈ getReplicaMessage readdirSync disk i.
Proof.
  rewrite list_elem_of_In, in_flat_map. setoid_rewrite <- list_elem_of_In.
  unfold getAllMessages. setoid_rewrite list_elem_of_fmap.
  setoid_rewrite elem_of_seq. split.
  - intros (entry & (i & -> & Hi) & Hm). exists i. split; [lia|done].
  - intros (i & Hi & Hm). eexists. split; [exists i; split; [done|lia]|done].
Qed.

(** X14: every write a pass schedules carries a record that some replica holds,
    under the file name of its id, to one of the replicas; and no replica
    holds a record of that id with a later timestamp: what is re-submitted
    is the newest version there is. *)
Theorem reconcile_resubmits_newest_version
  (r : Replicator.t) (disk : gmap nat (gmap string Message.t)) (w : Write) :
  w ∈ (reconcile readdirSync r disk).1 →
  (1 ≤ replica w ≤ replicasNumber r)%nat
  ∧ file w = Message.id (content w) +:+ ".json"
  ∧ (∃ j, (1 ≤ j ≤ replicasNumber r)%nat
          ∧ content w ∈ getReplicaMessage readdirSync disk j)
  ∧ ∀ i m, (1 ≤ i ≤ replicasNumber r)%nat →
           m ∈ getReplicaMessage readdirSync disk i →
           Message.id m = Message.id (content w) →
           Message.timestamp m ≤ Message.timestamp (content w).
Proof.
  intros Hw. apply elem_of_reconcile in Hw as (i0 & m0 & _ & Hm0 & Hw).
  apply elem_of_saveMessage in Hw. destruct Hw as (j0 & Hj0 & ->).
  cbn [replica file content].
  apply elem_of_missingMessages in Hm0 as [Hm0 _].
  destruct (merge_all_newest (getAllMessages readdirSync r disk))
    as (Hdup & Hfrom & Hnewest).
  unfold JsMap.values in Hm0. apply list_elem_of_fmap in Hm0 as ([k v] & -> & Hkv).
  cbn [snd]. pose proof (JsMap_get_elem_of _ _ _ Hdup Hkv) as Hget.
  destruct (Hfrom _ _ Hget) as [Hid Hseen].
  split; [done|]. split; [done|]. split.
  - by apply elem_of_all_messages in Hseen.
  - intros i m Hi Hm Hsame.
    destruct (Hnewest m) as (v' & Hv' & Hle).
    { apply elem_of_all_messages. eauto. }
    rewrite Hsame, Hid, Hget in Hv'. by injection Hv' as <-.
Qed.

Lemma quiet_passes {A : Type}
  (pass : A → bool * list Write * list (LogLevel * LogLine)) (entries : list A) :
  (∀ x, x ∈ entries → pass x = (false, [], [])) →
  flat_map (λ p, p.1.2) (map pass entries) = []
  ∧ flat_map snd (map pass entries) = []
  ∧ existsb (λ p, p.1.1) (map pass entries) = false.
Proof.
  induction entries as [|x entries IH]; intros Hall; [done|].
  destruct IH as (H1 & H2 & H3); [intros; apply Hall; by right|].
  cbn [map flat_map existsb]. rewrite (Hall x) by by left.
  cbn [fst snd app orb]. done.
Qed.

(** X15: when all replicas already hold the same ids, a pass schedules no write
    at all and logs that it found no inconsistency, even if the replicas
    hold different versions of a message: only a missing id is repaired. *)
Theorem reconcile_of_consistent_replicas
  (r : Replicator.t) (disk : gmap nat (gmap string Message.t)) :
  (∀ i j, (1 ≤ i ≤ replicasNumber r)%nat → (1 ≤ j ≤ replicasNumber r)%nat →
          replica_ids readdirSync disk i = replica_ids readdirSync disk j) →
  reconcile readdirSync r disk
  = ([], [(INFO, StartingReconciliation); (INFO, NoInconsistencies)]).
Proof.
  intros Hsame. unfold reconcile.
  set (all := getAllMessages readdirSync r disk).
  set (u := merge_all all).
  destruct (quiet_passes
    (λ entry : nat * list Message.t,
       let missing := missingMessages u entry.2 in
       if bool_decide (0 < length missing)%nat
       then (true, flat_map (saveMessage r) missing,
             [(INFO, ReplicaMissing entry.1 (length missing))])
       else (false, [], [])) all) as (H1 & H2 & H3).
  { intros entry Hentry. cbv zeta.
    destruct (missingMessages u entry.2) as [|m rest] eqn:Hmissing;
      [by rewrite bool_decide_false by (simpl; lia)|].
    exfalso.
    assert (m ∈ missingMessages u entry.2) as Hm by (rewrite Hmissing; by left).
    apply elem_of_missingMessages in Hm as [Hm Hnot].
    apply elem_of_getAllMessages in Hentry as [Hi Hmessages].
    destruct (merge_all_spec all) as (_ & _ & Hvalues).
    unfold JsMap.values in Hm. apply list_elem_of_fmap in Hm as ([k v] & -> & Hkv).
    apply Hvalues in Hkv as (entry' & Hentry' & Hin).
    apply elem_of_getAllMessages in Hentry' as [Hj Hmessages'].
    cbn [snd] in *. apply Hnot.
    assert (Message.id v ∈ replica_ids readdirSync disk entry'.1) as Hids.
    { unfold replica_ids. rewrite elem_of_list_to_set, <- Hmessages'.
      apply list_elem_of_fmap. eauto. }
    rewrite (Hsame _ entry.1 Hj Hi) in Hids.
    unfold replica_ids in Hids. rewrite elem_of_list_to_set in Hids.
    by rewrite Hmessages. }
  cbv zeta in H1, H2, H3. by rewrite H1, H2, H3.
Qed.
End ReconcilerPasses.

(** ** The checkpoint store *)

Lemma Number_toString_inj (a b : Z) :
  Json.Number_toString a = Json.Number_toString b → a = b.
Proof.
  unfold Json.Number_toString. intros H.
  apply DecimalZ.to_int_inj.
  assert (Hnil : ∀ n, Z.to_int n ≠ Decimal.Pos Decimal.Nil
                      ∧ Z.to_int n ≠ Decimal.Neg Decimal.Nil).
  { intros [|p|p]; split; try discriminate;
      intros [= Hp]; by apply DecimalPos.Unsigned.to_uint_nonnil in Hp. }
  apply (f_equal DecimalString.NilZero.int_of_string) in H.
  rewrite !DecimalString.NilZero.isi in H by apply Hnil.
  by injection H.
Qed.

Section CheckpointStore.
Import Logger CheckpointManager.
Variable JSON_stringify : list Message.t → string.
Variable JSON_parse : string → Completion (list Message.t).

(** Every row of the table was written by [createCheckpoint] of the
    manager of [node]. *)
Definition own_rows (node : string) (table : list Row.t) : Prop :=
  ∀ row, row ∈ table →
    Row.node_id row = node
    ∧ Row.id row = node +:+ "-" +:+ Json.Number_toString (Row.timestamp row).

(** A run of [createCheckpoint()] calls, each with the log it snapshots and
    the clock it reads. *)
Definition checkpoints (calls : list (list Message.t * Z)) (s : CheckpointManager.t)
  : CheckpointManager.t :=
  foldl (λ s call, manager_after (createCheckpoint JSON_stringify call.1 call.2 s))
        s calls.

Lemma own_rows_createCheckpoint (messages : list Message.t) (now : Z)
  (s : CheckpointManager.t) :
  own_rows (nodId s) (db s) →
  own_rows (nodId s) (db (manager_after (createCheckpoint JSON_stringify messages now s))).
Proof.
  intros Hown.
  destruct (createCheckpoint_cases JSON_stringify messages now s)
    as [(_ & _ & -> & _)|(_ & _ & ->)]; [done|].
  cbn [db]. intros row [?| ->%list_elem_of_singleton]%elem_of_app; [by apply Hown|].
  done.
Qed.

Lemma nodId_createCheckpoint (messages : list Message.t) (now : Z)
  (s : CheckpointManager.t) :
  nodId (manager_after (createCheckpoint JSON_stringify messages now s)) = nodId s.
Proof.
  destruct (createCheckpoint_cases JSON_stringify messages now s)
    as [(_ & _ & -> & _)|(_ & _ & ->)]; done.
Qed.

Lemma createCheckpoint_own_rows
  (messages : list Message.t) (now : Z) (s : CheckpointManager.t) :
  own_rows (nodId s) (db s) →
  let r := createCheckpoint JSON_stringify messages now s in
  (returned r = "" ↔ now ∈ map Row.timestamp (db s))
  ∧ (returned r ≠ "" →
     db (manager_after r) = db s ++ [checkpoint_row JSON_stringify messages now s]).
Proof.
  intros Hown r. subst r.
  assert (Hid : Row.id (checkpoint_row JSON_stringify messages now s)
                  ∈ map Row.id (db s) ↔ now ∈ map Row.timestamp (db s)).
  { rewrite !list_elem_of_fmap. split.
    - intros (row & Hrow & Hin). exists row. split; [|done].
      destruct (Hown row Hin) as [_ Hmade]. rewrite Hmade in Hrow.
      cbn [checkpoint_row Row.id] in Hrow.
      apply append_prefix_inj in Hrow.
      change ("-" +:+ Json.Number_toString now
              = "-" +:+ Json.Number_toString (Row.timestamp row)) in Hrow.
      apply append_prefix_inj in Hrow. by apply Number_toString_inj.
    - intros (row & -> & Hin). exists row. split; [|done].
      destruct (Hown row Hin) as [_ Hmade]. by rewrite Hmade. }
  destruct (createCheckpoint_cases JSON_stringify messages now s)
    as [(Hin & Hret & Hs & _)|(Hnot & Hret & Hs)].
  - split; [by rewrite <- Hid|]. by rewrite Hret.
  - split; [|by rewrite Hs].
    rewrite Hret, <- Hid. split; [|done].
    intros Hempty. by apply checkpointId_not_empty in Hempty.
Qed.

(** X16: on a table that holds only rows this manager wrote,
    [createCheckpoint()] fails exactly when a checkpoint of the millisecond
    it reads off the clock is already stored.  A call that fails returns
    the empty string, leaves the table as it was and logs the violation of
    the primary key; any other call returns the new id
    [<nodId>-<timestamp>], appends exactly one row, which holds the
    snapshot, and logs the id with the number of messages. *)
Theorem createCheckpoint_fails_iff_millisecond_taken
  (messages : list Message.t) (now : Z) (s : CheckpointManager.t) :
  own_rows (nodId s) (db s) →
  let r := createCheckpoint JSON_stringify messages now s in
  let checkpointId := nodId s +:+ "-" +:+ Json.Number_toString now in
  (returned r = "" ↔ now ∈ map Row.timestamp (db s))
  ∧ if bool_decide (now ∈ map Row.timestamp (db s))
    then r = ("", s,
              [(ERROR, ErrorCreatingCheckpoint
                         "SqliteError: UNIQUE constraint failed: checkpoints.id")])
    else r = (checkpointId,
              CheckpointManager.mk (nodId s)
                (db s ++ [Row.mk checkpointId (nodId s) now (JSON_stringify messages)]),
              [(INFO, CheckpointCreated checkpointId (length messages))]).
Proof.
  intros Hown. cbv zeta.
  destruct (createCheckpoint_own_rows messages now s Hown) as [Hiff _].
  split; [exact Hiff|].
  unfold returned, createCheckpoint, insert in Hiff |- *.
  cbn [Checkpoint.messages Row.id] in Hiff |- *.
  destruct (bool_decide (_ ∈ map Row.id (db s))); cbn [fst] in Hiff.
  - rewrite bool_decide_true by (by apply Hiff). reflexivity.
  - rewrite bool_decide_false; [reflexivity|].
    intros Hin%Hiff. by apply checkpointId_not_empty in Hin.
Qed.

(** X17: the store is append-only.  Whatever [createCheckpoint()] calls
    follow, the rows stored before are still there, in the same order and
    unchanged. *)
Theorem checkpoints_are_never_rewritten
  (calls : list (list Message.t * Z)) (s : CheckpointManager.t) :
  db s `prefix_of` db (checkpoints calls s)
  ∧ nodId (checkpoints calls s) = nodId s.
Proof.
  revert s. induction calls as [|[messages now] calls IH]; intros s; [done|].
  cbn [checkpoints foldl fst snd].
  destruct (IH (manager_after (createCheckpoint JSON_stringify messages now s)))
    as [Hprefix Hnode].
  unfold checkpoints in Hprefix, Hnode. split.
  - etrans; [|exact Hprefix].
    destruct (createCheckpoint_cases JSON_stringify messages now s)
      as [(_ & _ & -> & _)|(_ & _ & ->)]; [done|].
    by apply prefix_app_r.
  - by rewrite Hnode, nodId_createCheckpoint.
Qed.

(** X18: the checkpoints a manager writes into a fresh table all have
    different ids and different timestamps, whatever the clock reads at
    each call. *)
Theorem fresh_store_has_one_checkpoint_per_millisecond
  (node : string) (calls : list (list Message.t * Z)) :
  let table := db (checkpoints calls (CheckpointManager.mk node [])) in
  NoDup (map Row.id table) ∧ NoDup (map Row.timestamp table)
  ∧ own_rows node table.
Proof.
  cbv zeta.
  assert (Hgen : ∀ s,
    nodId s = node → own_rows node (db s) →
    NoDup (map Row.id (db s)) → NoDup (map Row.timestamp (db s)) →
    NoDup (map Row.id (db (checkpoints calls s)))
    ∧ NoDup (map Row.timestamp (db (checkpoints calls s)))
    ∧ own_rows node (db (checkpoints calls s))).
  { induction calls as [|[messages now] calls IH]; intros s Hnode Hown Hids Hts;
      [done|].
    cbn [checkpoints foldl fst snd]. apply IH.
    - by rewrite nodId_createCheckpoint.
    - rewrite <- Hnode. apply own_rows_createCheckpoint. by rewrite Hnode.
    - destruct (createCheckpoint_cases JSON_stringify messages now s)
        as [(_ & _ & -> & _)|(Hnot & _ & ->)]; [done|].
      cbn [db]. rewrite map_app. apply NoDup_app. split; [done|].
      split; [|apply NoDup_singleton].
      intros x Hx ->%list_elem_of_singleton. done.
    - destruct (createCheckpoint_own_rows messages now s)
        as [Hfail Hrows]; [by rewrite Hnode|].
      destruct (createCheckpoint_cases JSON_stringify messages now s)
        as [(_ & _ & -> & _)|(Hnot & Hret & ->)]; [done|].
      cbn [db]. rewrite map_app. apply NoDup_app. split; [done|].
      split; [|apply NoDup_singleton].
      intros x Hx ->%list_elem_of_singleton. cbn [checkpoint_row Row.timestamp] in Hx.
      apply Hfail in Hx. rewrite Hret in Hx.
      by apply checkpointId_not_empty in Hx. }
  apply Hgen; [done| |constructor|constructor].
  intros row Hrow. by apply elem_of_nil in Hrow.
Qed.

Lemma select_last_spec (node : string) (table : list Row.t) (row : Row.t) :
  select_last node table = Some row →
  row ∈ table ∧ Row.node_id row = node
  ∧ ∀ other, other ∈ table → Row.node_id other = node →
             Row.timestamp other ≤ Row.timestamp row.
Proof.
  unfold select_last. intros Hhead.
  set (cmp := λ a b : Row.t, Row.timestamp b - Row.timestamp a) in *.
  set (own := filter (λ r, Row.node_id r = node) table) in *.
  assert (Hsorted : StronglySorted (not_after cmp) (JsArray.sort cmp own)).
  { apply sort_sorted; unfold cmp; intros; lia. }
  assert (Hperm := sort_perm cmp own).
  destruct (JsArray.sort cmp own) as [|first rest] eqn:Hsort; [done|].
  injection Hhead as ->.
  assert (Hin : ∀ x, x ∈ own ↔ x ∈ row :: rest) by (intros x; by rewrite Hperm).
  assert (row ∈ own) as [Hnode Hrow]%list_elem_of_filter by (apply Hin; by left).
  split; [done|]. split; [done|].
  intros other Hother Hown.
  assert (other ∈ row :: rest) as [->|Hrest]%elem_of_cons.
  { apply Hin, list_elem_of_filter. done. }
  - lia.
  - apply StronglySorted_inv in Hsorted as [_ Hall].
    rewrite Forall_forall in Hall. specialize (Hall other Hrest).
    unfold not_after, cmp in Hall. lia.
Qed.

(** X19: the checkpoint [getLastCheckpoint()] returns is read off a stored
    row of this node, and no row of this node is newer; rows of other
    nodes in the same table are not looked at. *)
Theorem getLastCheckpoint_returns_newest
  (s : CheckpointManager.t) (checkpoint : Checkpoint.t) :
  (getLastCheckpoint JSON_parse s).1 = Some checkpoint →
  ∃ row, row ∈ db s ∧ Row.node_id row = nodId s
    ∧ Checkpoint.id checkpoint = Row.id row
    ∧ Checkpoint.timestamp checkpoint = Row.timestamp row
    ∧ JSON_parse (Row.data row) = Normal (Checkpoint.messages checkpoint)
    ∧ ∀ other, other ∈ db s → Row.node_id other = nodId s →
               Row.timestamp other ≤ Checkpoint.timestamp checkpoint.
Proof.
  unfold getLastCheckpoint.
  destruct (select_last (nodId s) (db s)) as [row|] eqn:Hlast; [|done].
  apply select_last_spec in Hlast as (Hin & Hnode & Hnewest).
  destruct (JSON_parse (Row.data row)) as [messages|e] eqn:Hparse; [|done].
  cbn [fst]. intros [= <-]. exists row. by cbn.
Qed.

(** X20: [recoverState()] logs "No checkpoints found" twice, and nothing
    else, exactly when the table has no row of this node; it then returns
    the empty log. *)
Theorem recoverState_without_checkpoint (s : CheckpointManager.t) :
  ((recoverState JSON_parse s).2
   = [(INFO, NoCheckpointsFound); (INFO, NoCheckpointsFound)]
   ↔ ∀ row, row ∈ db s → Row.node_id row ≠ nodId s)
  ∧ ((∀ row, row ∈ db s → Row.node_id row ≠ nodId s) →
     (recoverState JSON_parse s).1 = []).
Proof.
  unfold recoverState, getLastCheckpoint.
  destruct (select_last (nodId s) (db s)) as [row|] eqn:Hlast.
  - apply select_last_spec in Hlast as (Hin & Hnode & _).
    assert (¬ ∀ row, row ∈ db s → Row.node_id row ≠ nodId s) as Hnot.
    { intros Hnone. by apply (Hnone row). }
    split; [|done]. split; [|done].
    by destruct (JSON_parse (Row.data row)).
  - split; [|done]. split; [|done].
    intros _ row Hin Hnode.
    unfold select_last in Hlast.
    assert (row ∈ JsArray.sort (λ a b, Row.timestamp b - Row.timestamp a)
                    (filter (λ r, Row.node_id r = nodId s) (db s))) as Hrow.
    { rewrite sort_perm. by apply list_elem_of_filter. }
    destruct (JsArray.sort _ _); [by apply elem_of_nil in Hrow|done].
Qed.
End CheckpointStore.

Section CheckpointLists.
Import Logger CheckpointManager CheckpointListing.
Variable JSON_parse : string → Completion (list Message.t).

Lemma describe_Normal (rows : list Row.t) (infos : list CheckpointInfo.t) :
  describe JSON_parse rows = Normal infos →
  map CheckpointInfo.timestamp infos = map Row.timestamp rows
  ∧ map CheckpointInfo.id infos = map Row.id rows
  ∧ Forall2 (λ row info,
       ∃ messages, JSON_parse (Row.data row) = Normal messages
                   ∧ CheckpointInfo.messagesQtd info = length messages) rows infos.
Proof.
  revert infos. induction rows as [|row rows IH]; intros infos; cbn [describe].
  - intros [= <-]. by repeat split.
  - destruct (JSON_parse (Row.data row)) as [messages|e] eqn:Hparse; [|done].
    destruct (describe JSON_parse rows) as [rest|e]; [|done].
    intros [= <-]. destruct (IH rest eq_refl) as (Hts & Hid & Hall).
    cbn. rewrite Hts, Hid. repeat split. constructor; [eauto|done].
Qed.

Lemma describe_Throw (rows : list Row.t) :
  (∃ e, describe JSON_parse rows = Throw e)
  ↔ ∃ row e, row ∈ rows ∧ JSON_parse (Row.data row) = Throw e.
Proof.
  induction rows as [|row rows IH]; cbn [describe].
  - split; [by intros [? ?]|]. intros (? & ? & []%elem_of_nil & _).
  - destruct (JSON_parse (Row.data row)) as [messages|e] eqn:Hparse.
    + destruct (describe JSON_parse rows) as [rest|e'].
      * split; [by intros [? ?]|].
        intros (bad & e & [->|Hin]%elem_of_cons & Hbad); [congruence|].
        destruct IH as [_ IH]. destruct IH as [? ?]; [eauto|done].
      * split; [|eauto]. intros _.
        destruct IH as [IH _]. destruct IH as (bad & e & Hin & Hbad); [eauto|].
        exists bad, e. split; [by right|done].
    + split; [|eauto]. intros _. exists row, e. split; [by left|done].
Qed.

(** X21: [listCheckpoints()] lists the checkpoints of this node newest
    first, one entry per stored row when it logs no error; and its first
    entry is the checkpoint [getLastCheckpoint()] returns. *)
Theorem listCheckpoints_newest_first (s : CheckpointManager.t) :
  let r := listCheckpoints JSON_parse s in
  StronglySorted (λ a b, CheckpointInfo.timestamp b ≤ CheckpointInfo.timestamp a) r.1
  ∧ (r.2 = [] →
     length r.1 = length (filter (λ row, Row.node_id row = nodId s) (db s)))
  ∧ ∀ info rest, r.1 = info :: rest →
      ∃ checkpoint, (getLastCheckpoint JSON_parse s).1 = Some checkpoint
        ∧ Checkpoint.id checkpoint = CheckpointInfo.id info
        ∧ Checkpoint.timestamp checkpoint = CheckpointInfo.timestamp info
        ∧ length (Checkpoint.messages checkpoint) = CheckpointInfo.messagesQtd info.
Proof.
  cbv zeta. unfold listCheckpoints, getLastCheckpoint, select_last, select_all.
  set (cmp := λ a b : Row.t, Row.timestamp b - Row.timestamp a).
  set (own := filter (λ r, Row.node_id r = nodId s) (db s)).
  assert (Hsorted : StronglySorted (not_after cmp) (JsArray.sort cmp own)).
  { apply sort_sorted; unfold cmp; intros; lia. }
  destruct (describe JSON_parse (JsArray.sort cmp own)) as [infos|e] eqn:Hdescribe;
    cbn [fst snd]; [|split; [constructor|split; [done|done]]].
  apply describe_Normal in Hdescribe as (Hts & Hid & Hall).
  split; [|split].
  - clear Hid. revert infos Hts Hall.
    induction Hsorted as [|row rows Hrows IH Hrow]; intros infos Hts Hall.
    + destruct infos; [constructor|done].
    + destruct infos as [|info infos]; [done|].
      injection Hts as Hinfo Hts. apply Forall2_cons in Hall as [_ Hall].
      constructor; [by apply IH|].
      apply Forall_forall. intros other Hother.
      assert (CheckpointInfo.timestamp other ∈ map Row.timestamp rows)
        as (row' & Hsame & Hrow')%list_elem_of_fmap.
      { rewrite <- Hts. by apply list_elem_of_fmap_2. }
      pose proof (proj1 (Forall_forall _ _) Hrow row' Hrow') as Hle.
      unfold not_after, cmp in Hle. lia.
  - intros _. apply Forall2_length in Hall. by rewrite <- Hall, sort_length.
  - intros info rest ->.
    destruct (JsArray.sort cmp own) as [|row rows]; [done|].
    injection Hts as Hts _. injection Hid as Hid _.
    apply Forall2_cons in Hall as [(messages & Hparse & Hqtd) _].
    cbn [head]. rewrite Hparse. cbn [fst].
    eexists. split; [done|]. by cbn.
Qed.

(** X22: one stored row of this node whose data does not parse hides every
    checkpoint: [listCheckpoints()] then returns the empty list and logs
    one error. *)
Theorem one_bad_row_empties_the_list
  (s : CheckpointManager.t) (row : Row.t) (e : string) :
  row ∈ db s → Row.node_id row = nodId s → JSON_parse (Row.data row) = Throw e →
  ∃ e', listCheckpoints JSON_parse s
        = ([], [(ERROR, "Error listing checkpoints: " +:+ e')]).
Proof.
  intros Hin Hnode Hbad. unfold listCheckpoints.
  destruct (describe_Throw (select_all (nodId s) (db s))) as [_ Hthrow].
  destruct Hthrow as [e' ->]; [|eauto].
  exists row, e. split; [|done].
  unfold select_all. rewrite sort_perm. by apply list_elem_of_filter.
Qed.
End CheckpointLists.

(** ** Crash and restart *)

Section CrashRecovery.
Import Logger CheckpointManager Node.
Variable JSON_stringify : list Message.t → string.
Variable JSON_parse : string → Completion (list Message.t).
Variable multicast_stop : Completion unit.
Variable multicast_start : Completion unit.
Variable mutualExclusion_processMessage : ControlMessage.t → Node.t → Node.Result.

Lemma simulateCrash_stored (now : Z) (s : Node.t) :
  own_rows (nodId (checkpointManager s)) (db (checkpointManager s)) →
  (∀ row, row ∈ db (checkpointManager s) → Row.timestamp row < now) →
  ∃ out,
    createCheckpoint JSON_stringify (receivedMessages s) now (checkpointManager s)
    = (nodId (checkpointManager s) +:+ "-" +:+ Json.Number_toString now,
       CheckpointManager.mk (nodId (checkpointManager s))
         (db (checkpointManager s)
          ++ [checkpoint_row JSON_stringify (receivedMessages s) now
                (checkpointManager s)]),
       out).
Proof.
  intros Hown Hlater.
  destruct (createCheckpoint_own_rows JSON_stringify
              (receivedMessages s) now (checkpointManager s) Hown) as [Hfail _].
  destruct (createCheckpoint_cases JSON_stringify (receivedMessages s) now
              (checkpointManager s))
    as [(_ & Hret & _)|(_ & Hret & Hs)].
  - apply Hfail in Hret. apply list_elem_of_fmap in Hret as (row & -> & Hrow).
    apply Hlater in Hrow. lia.
  - destruct (createCheckpoint _ _ _ _) as [[checkpointId manager] out].
    cbn [returned manager_after fst snd] in Hret, Hs. subst. by exists out.
Qed.

(** X23: [simulateCrash()] and the restart it schedules, when the table
    holds only this manager's rows, all older than the clock reads at the
    crash, and the platform's JSON reads back what it printed.  The crash
    stores the log as the newest checkpoint.  If [multicast.stop()] throws,
    the exception leaves [simulateCrash]: the log is not emptied and no
    restart is scheduled.  If it returns, the log is emptied and the
    restart scheduled; the restart gives the log back as it was, also when
    [multicast.start()] throws, in which case the reconciler and the
    checkpoint timer are not started again. *)
Theorem crash_then_restart_restores_log (now : Z) (s : Node.t) :
  JSON_parse (JSON_stringify (receivedMessages s)) = Normal (receivedMessages s) →
  own_rows (nodId (checkpointManager s)) (db (checkpointManager s)) →
  (∀ row, row ∈ db (checkpointManager s) → Row.timestamp row < now) →
  let crash := simulateCrash JSON_stringify multicast_stop now s in
  db (checkpointManager (state crash))
  = db (checkpointManager s)
    ++ [checkpoint_row JSON_stringify (receivedMessages s) now (checkpointManager s)]
  ∧ match multicast_stop with
    | Throw e =>
        completion crash = Throw e
        ∧ receivedMessages (state crash) = receivedMessages s
        ∧ ∀ ms, SetTimeoutRestart ms ∉ calls crash
    | Normal _ =>
        completion crash = Normal tt
        ∧ receivedMessages (state crash) = []
        ∧ last (calls crash) = Some (SetTimeoutRestart 2000)
        ∧ let back := restart JSON_parse multicast_start (state crash) in
          receivedMessages (state back) = receivedMessages s
          ∧ match multicast_start with
            | Throw e =>
                completion back = Throw e
                ∧ (ReconcilerStart ∉ calls back)
                ∧ (CheckpointManagerInit ∉ calls back)
            | Normal _ =>
                completion back = Normal tt
                ∧ last (calls back)
                  = Some (RecoveryCompleted (length (receivedMessages s)))
            end
    end.
Proof.
  intros Hjson Hown Hlater. cbv zeta. unfold simulateCrash.
  destruct (simulateCrash_stored now s Hown Hlater) as [out ->].
  assert (Hlog : ∀ (e : Effect) (lines : list (LogLevel * LogLine)),
    (∀ level line, e ≠ Log level line) →
    e ∉ map (λ l : LogLevel * LogLine, Log l.1 l.2) lines).
  { intros e lines He (l & -> & _)%list_elem_of_fmap. by eapply He. }
  assert (Hrecover :
    recoverState JSON_parse
      (CheckpointManager.mk (nodId (checkpointManager s))
         (db (checkpointManager s)
          ++ [checkpoint_row JSON_stringify (receivedMessages s) now
                (checkpointManager s)]))
    = (receivedMessages s,
       [(INFO, LastCheckpointFound
                 (nodId (checkpointManager s) +:+ "-" +:+ Json.Number_toString now)
                 (length (receivedMessages s)));
        (INFO, RecoveringState
                 (nodId (checkpointManager s) +:+ "-" +:+ Json.Number_toString now)
                 now)])).
  { unfold recoverState, getLastCheckpoint, select_last. cbn [nodId db].
    rewrite filter_app, filter_cons_True, filter_nil by done.
    rewrite sort_newest_first.
    - cbn [head Row.data checkpoint_row]. rewrite Hjson. reflexivity.
    - intros row [_ Hin]%list_elem_of_filter. by apply Hlater. }
  destruct multicast_stop as [[]|e];
    cbn [completion state calls fst snd checkpointManager receivedMessages db].
  - split; [done|]. split; [done|]. split; [done|].
    split; [by rewrite !last_app|].
    unfold restart. cbn [checkpointManager receivedMessages]. rewrite Hrecover.
    destruct multicast_start as [[]|e];
      cbn [completion state calls fst snd receivedMessages app].
    + done.
    + split; [done|]. split; [done|].
      split; intros Hin; repeat (apply elem_of_cons in Hin as [Hin|Hin]; [done|]);
        by apply elem_of_nil in Hin.
  - split; [done|]. split; [done|]. split; [done|].
    intros ms Hin. cbn [app] in Hin.
    apply elem_of_cons in Hin as [Hin|Hin]; [done|].
    apply elem_of_app in Hin as [Hin|Hin].
    + by eapply Hlog in Hin.
    + apply elem_of_cons in Hin as [Hin|Hin]; [done|]. by apply elem_of_nil in Hin.
Qed.

(** X30: the inbound handler of index.ts on a chat message keeps the ids of
    the message log pairwise different.  A chat message whose id is already
    in the log is ignored altogether: it is not displayed, not replicated
    and starts no simulated crash.  A new one is appended, displayed and
    handed to the replicator once; if the simulated failure strikes
    afterwards the log is emptied, unless [multicast.stop()] throws.  A
    control message is handed to the coordinator and nothing else is
    done. *)
Theorem processMessage_keeps_ids_unique
  (failure : bool) (now : Z) (data : Message.t + ControlMessage.t) (s : Node.t) :
  NoDup (map Message.id (receivedMessages s)) →
  let r := Node.processMessage JSON_stringify multicast_stop
             mutualExclusion_processMessage failure now data s in
  match data with
  | inr control => r = mutualExclusion_processMessage control s
  | inl m =>
      NoDup (map Message.id (receivedMessages (state r)))
      ∧ if bool_decide (Message.id m ∈ map Message.id (receivedMessages s))
        then r = (Normal tt, s, [])
        else receivedMessages (state r)
             = (if failure
                then match multicast_stop with
                     | Normal _ => []
                     | Throw _ => receivedMessages s ++ [m]
                     end
                else receivedMessages s ++ [m])
             ∧ ∃ rest, calls r = Display m :: ReplicatorSaveMessage m :: rest
                       ∧ (∀ m', ReplicatorSaveMessage m' ∉ rest)
  end.
Proof.
  clear JSON_parse multicast_start.
  intros Hids. cbv zeta. unfold Node.processMessage.
  destruct data as [m|control]; [|done].
  assert (Hsome : existsb (λ x, bool_decide (Message.id x = Message.id m))
                    (receivedMessages s)
                  = bool_decide (Message.id m ∈ map Message.id (receivedMessages s))).
  { apply eq_bool_prop_intro. rewrite Is_true_true, existsb_exists, bool_decide_spec.
    rewrite list_elem_of_fmap. setoid_rewrite <- list_elem_of_In.
    setoid_rewrite bool_decide_eq_true. naive_solver. }
  rewrite Hsome. case_bool_decide as Hin; [done|].
  assert (Hnew : NoDup (map Message.id (receivedMessages s ++ [m]))).
  { rewrite map_app. apply NoDup_app. split; [done|].
    split; [|apply NoDup_singleton].
    intros x Hx ->%list_elem_of_singleton. done. }
  destruct failure.
  - unfold simulateCrash. cbn [receivedMessages checkpointManager].
    destruct (createCheckpoint _ _ _ _) as [[checkpointId manager] out].
    destruct multicast_stop as [[]|e];
      cbn [state calls fst snd receivedMessages].
    + split; [constructor|]. split; [done|].
      eexists. split; [reflexivity|].
      intros m' Hm'. set_unfold. naive_solver.
    + split; [done|]. split; [done|].
      eexists. split; [reflexivity|].
      intros m' Hm'. set_unfold. naive_solver.
  - cbn [state calls fst snd receivedMessages]. split; [done|].
    split; [done|]. exists []. split; [done|]. intros m'. apply not_elem_of_nil.
Qed.
End CrashRecovery.

(** ** Interval timers *)

Inductive LifecycleCall : Type := CallStart | CallStop.

Section Intervals.
Import Lifecycle Timers.
Variable task : Task.

Definition lifecycle_call (s : Lifecycle.t) (c : LifecycleCall) : Lifecycle.t :=
  match c with
  | CallStart => (start task s).1
  | CallStop => (stop task s).1
  end.

(** X24: [stop()] after [start()] clears the interval that [start()] set
    and no other: the intervals running are those that ran before, given
    that the platform hands out a handle not in use. *)
Theorem stop_after_start_clears_the_interval (s : Lifecycle.t) :
  Forall (λ entry, (entry.1.1 < next (timers s))%nat) (running (timers s)) →
  let s1 := (start task s).1 in
  let s2 := (stop task s1).1 in
  running (timers s1) = running (timers s) ++ [(next (timers s), task, period s)]
  ∧ running (timers s2) = running (timers s)
  ∧ intervalId s2 = None
  ∧ stop task s2 = (s2, []).
Proof.
  intros Hfresh. cbv zeta. unfold start, stop, setInterval, clearInterval.
  cbn [fst snd intervalId timers running next period].
  split; [done|]. split; [|done].
  rewrite filter_app, filter_cons_False, filter_nil, app_nil_r by (cbn; tauto).
  induction Hfresh as [|entry entries Hentry _ IH]; [done|].
  rewrite filter_cons_True by lia. by rewrite IH.
Qed.

(** X25: a second [start()] (or [init()]) without a [stop()] in between
    overwrites the handle of the first interval, and nothing the object
    does afterwards clears that interval: it keeps running. *)
Theorem second_start_orphans_first_interval
  (calls : list LifecycleCall) (s : Lifecycle.t) :
  let s1 := (start task s).1 in
  let s2 := (start task s1).1 in
  intervalId s1 = Some (next (timers s))
  ∧ (next (timers s), task, period s) ∈ running (timers (foldl lifecycle_call s2 calls)).
Proof.
  cbv zeta. split; [done|].
  set (first := next (timers s)).
  assert (Hgen : ∀ s',
    (first, task, period s) ∈ running (timers s') →
    (first < next (timers s'))%nat →
    (∀ handle, intervalId s' = Some handle → (first < handle)%nat) →
    (first, task, period s) ∈ running (timers (foldl lifecycle_call s' calls))).
  { induction calls as [|[|] calls IH]; intros s' Hin Hnext Hid; [done| |];
      cbn [foldl lifecycle_call]; apply IH.
    - unfold start, setInterval. cbn. apply elem_of_app. by left.
    - unfold start, setInterval. cbn. lia.
    - unfold start, setInterval. cbn. intros handle [= <-]. lia.
    - unfold stop. destruct (intervalId s') as [handle|] eqn:Hhandle; [|done].
      cbn. apply list_elem_of_filter. split; [|done].
      cbn. specialize (Hid handle eq_refl). lia.
    - unfold stop. by destruct (intervalId s').
    - unfold stop. destruct (intervalId s') as [handle|] eqn:Hhandle; cbn; [done|].
      intros handle. congruence. }
  apply Hgen.
  - unfold start, setInterval. cbn. rewrite !elem_of_app.
    left. right. by apply list_elem_of_singleton.
  - unfold start, setInterval. cbn. lia.
  - unfold start, setInterval. cbn. intros handle [= <-]. lia.
Qed.
End Intervals.

(** ** The logger *)

Section LoggerFacts.
Import Logger LogFilter.

Lemma replace_first_append (pattern replacement : ascii) (a b : string) :
  (∀ c, In c (String.list_ascii_of_string a) → c ≠ pattern) →
  replace_first pattern replacement (a +:+ String pattern b)
  = a +:+ String replacement b.
Proof.
  induction a as [|c a IH]; intros Hfree.
  - change (replace_first pattern replacement (String pattern b)
            = String replacement b).
    cbn [replace_first]. by rewrite Ascii.eqb_refl.
  - change (replace_first pattern replacement (String c (a +:+ String pattern b))
            = String c (a +:+ String replacement b)).
    cbn [replace_first].
    destruct (Ascii.eqb_spec c pattern) as [->|_].
    + exfalso. apply (Hfree pattern); [by left|done].
    + rewrite IH; [done|]. intros c' Hc'. apply Hfree. by right.
Qed.

Lemma slice_to_append (a b : string) (n : nat) :
  slice_to (String.length a + n) (a +:+ b) = a +:+ slice_to n b.
Proof.
  induction a as [|c a IH]; [done|].
  change (slice_to (S (String.length a + n)) (String c (a +:+ b))
          = String c (a +:+ slice_to n b)).
  cbn [slice_to]. by rewrite IH.
Qed.

Lemma slice_to_length (a b : string) :
  slice_to (String.length a) (a +:+ b) = a.
Proof.
  induction a as [|c a IH]; [by destruct b|].
  change (slice_to (S (String.length a)) (String c (a +:+ b)) = String c a).
  cbn [slice_to]. by rewrite IH.
Qed.

(** X26: of the ISO text of an instant, a ten-character date, "T", an
    eight-character time and the rest, [getTimestamp()] keeps the date, a
    blank and the time. *)
Theorem getTimestamp_of_ISO_text (date time rest : string) :
  String.length date = 10%nat →
  (∀ c, In c (String.list_ascii_of_string date) → c ≠ Ascii.ascii_of_N 84) →
  String.length time = 8%nat →
  getTimestamp (date +:+ String (Ascii.ascii_of_N 84) (time +:+ rest))
  = date +:+ String (Ascii.ascii_of_N 32) time.
Proof.
  intros Hdate Hfree Htime. unfold getTimestamp.
  rewrite replace_first_append by done.
  change 19%nat with (10 + 9)%nat. rewrite <- Hdate, slice_to_append.
  f_equal. change (slice_to 9 (String (Ascii.ascii_of_N 32) (time +:+ rest)))
    with (String (Ascii.ascii_of_N 32) (slice_to 8 (time +:+ rest))).
  by rewrite <- Htime, slice_to_length.
Qed.

(** X27: with the level index.ts sets, a debug line is printed exactly when
    the environment variable DEBUG is the text "true"; lines of the other
    three levels are always printed. *)
Theorem debug_lines_need_DEBUG_true
  (env_DEBUG : option string) (toISOString message : string) :
  (log DEBUG (configured_level env_DEBUG) toISOString message ≠ []
   ↔ env_DEBUG = Some "true")
  ∧ ∀ level, level ≠ DEBUG →
      length (log level (configured_level env_DEBUG) toISOString message) = 1%nat.
Proof.
  unfold configured_level, log. case_bool_decide as Henv.
  - split; [done|]. by intros [].
  - split; [done|]. by intros [].
Qed.
End LoggerFacts.

(** ** The transport, both ways *)

Section Transport.
Import Logger MulticastCommunicator MulticastOutbound.
Variable nodeId : string.
Variable messageCallback : Json.value → Completion unit.
Variable JSON_parse : string → Completion Json.value.
Variable JSON_stringify : Json.value → string.

(** What a node sends: a chat message or a control message. *)
Definition payload (msg : Message.t + ControlMessage.t) : Json.value :=
  match msg with
  | inl m => Json.of_message m
  | inr c => Json.of_control c
  end.

Definition sender (msg : Message.t + ControlMessage.t) : string :=
  match msg with
  | inl m => Message.origin m
  | inr c => ControlMessage.originNode c
  end.

Lemma get_of_message (m : Message.t) :
  Json.get (Json.of_message m) "origin" = Normal (Some (Json.JString (Message.origin m)))
  ∧ Json.get (Json.of_message m) "originNode" = Normal None.
Proof. by vm_compute. Qed.

Lemma get_of_control (c : ControlMessage.t) :
  Json.get (Json.of_control c) "origin" = Normal None
  ∧ Json.get (Json.of_control c) "originNode"
    = Normal (Some (Json.JString (ControlMessage.originNode c))).
Proof. by vm_compute. Qed.

(** X28: what [sendMessage] of some node puts on the group is handed to
    the handler of a receiving node exactly once when the sender is
    another node, and is dropped without a trace when the datagram loops
    back to the sender, the platform's JSON reading back what it printed. *)
Theorem sent_message_reaches_the_other_nodes
  (msg : Message.t + ControlMessage.t) (err : option string) (info : string) :
  JSON_parse (JSON_stringify (payload msg)) = Normal (payload msg) →
  let text := (sendMessage JSON_stringify (payload msg) err).1 in
  let r := on_message nodeId messageCallback JSON_parse text info in
  if bool_decide (sender msg = nodeId) then r = (Normal tt, [])
  else dispatched r.2 = [payload msg].
Proof.
  intros Hjson. cbv zeta.
  unfold sendMessage, on_message, invoke_messageCallback, try_catch, eval,
    MulticastCommunicator.log.
  cbv [mbind mret Block_bind Block_ret]. cbn [fst]. rewrite Hjson.
  destruct msg as [m|c]; cbn [payload sender].
  - destruct (get_of_message m) as [-> ->]. cbn [Json.strict_eq_string].
    case_bool_decide; [done|]. cbn.
    destruct (messageCallback _) as [[]|]; done.
  - destruct (get_of_control c) as [-> ->]. cbn [Json.strict_eq_string].
    case_bool_decide; [done|]. cbn.
    destruct (messageCallback _) as [[]|]; done.
Qed.

(** X29: an exception the registered handler throws does not leave the
    socket's listener: it is logged as an error of processing the message,
    after the payload was handed over once. *)
Theorem handler_exception_is_logged (msg info : string) (data : Json.value) (e : string) :
  JSON_parse msg = Normal data →
  data ≠ Json.JNull →
  self_originated nodeId data = false →
  messageCallback data = Throw e →
  on_message nodeId messageCallback JSON_parse msg info
  = (Normal tt, [Log DEBUG (ReceivedMessage info msg); MessageCallback data;
                 Log ERROR (ErrorProcessingMessage e)]).
Proof.
  intros Hparse Hnull Hself Hthrow.
  unfold on_message, invoke_messageCallback, try_catch, eval,
    MulticastCommunicator.log.
  cbv [mbind mret Block_bind Block_ret]. rewrite Hparse.
  destruct data as [|b|n|str|items|members]; [done|..]; simpl;
    try (by rewrite Hthrow).
  simpl in Hself. apply orb_false_iff in Hself as [-> ->]. simpl.
  by rewrite Hthrow.
Qed.
End Transport.

(** ** The further properties on concrete inputs *)

Section FurtherExamples.
Import Logger MutualExclusion.

Lemma sent_messages_are_signed_example :
  let m := ControlMessage.mk REQUEST "A" 1 in
  ControlMessage.originNode m = nodeId knows_B
  ∧ ControlMessage.timestamp m
    = timestamp (state_after (perform code_order CallRequestResource knows_B))
  ∧ match ControlMessage.type m with
    | REQUEST => CallRequestResource = CallRequestResource
    | RELEASE => CallRequestResource = CallReleaseResource
    | RESPONSE => CallRequestResource = CallReleaseResource
                  ∨ ∃ m', CallRequestResource = CallProcessMessage m'
    end.
Proof.
  intros m.
  apply (sent_messages_are_signed code_order CallRequestResource knows_B m).
  by vm_compute; left.
Defined.

Lemma callback_marks_each_grant_example :
  callbacks (output (perform code_order CallRequestResource (MutualExclusion.new "A")))
  = if negb (isResourceExisting (MutualExclusion.new "A"))
       && isResourceExisting
            (state_after (perform code_order CallRequestResource (MutualExclusion.new "A")))
    then 1%nat else 0%nat.
Proof.
  apply (callback_marks_each_grant code_order CallRequestResource
           (MutualExclusion.new "A")).
  reflexivity.
Defined.

Lemma requestResource_when_idle_example :
  let r := requestResource knows_B in
  let s' := state_after r in
  timestamp s' = timestamp knows_B + 1
  ∧ receivedMessages s' = ∅
  ∧ knownNodes s' = knownNodes knows_B
  ∧ queue s' = queue knows_B
  ∧ if bool_decide (knownNodes knows_B = ∅)
    then isResourceExisting s' = true ∧ isResourceWaiting s' = false
         ∧ sent (output r) = [] ∧ callbacks (output r) = 1%nat
    else isResourceExisting s' = false ∧ isResourceWaiting s' = true
         ∧ sent (output r)
           = [ControlMessage.mk REQUEST (nodeId knows_B) (timestamp knows_B + 1)]
         ∧ callbacks (output r) = 0%nat.
Proof.
  apply (requestResource_when_idle knows_B); reflexivity.
Defined.

Lemma duplicate_response_is_harmless_example :
  let m := ControlMessage.mk RESPONSE "B" 0 in
  let s1 := state_after
              (processMessage code_order m (state_after (requestResource knows_B))) in
  let again := processMessage code_order m s1 in
  state_after again = s1
  ∧ sent (output again) = []
  ∧ callbacks (output again) = 0%nat.
Proof.
  intros m.
  apply (duplicate_response_is_harmless code_order m
           (state_after (requestResource knows_B))).
  reflexivity.
Defined.

Lemma release_message_drains_queue_example :
  let r := processMessage code_order (ControlMessage.mk RELEASE "B" 1)
             holder_with_queue in
  queue (state_after r) = []
  ∧ sent (output r)
    = replicate (length (queue holder_with_queue))
        (ControlMessage.mk RESPONSE (nodeId holder_with_queue)
           (timestamp holder_with_queue))
  ∧ isResourceExisting (state_after r) = isResourceExisting holder_with_queue
  ∧ isResourceWaiting (state_after r) = isResourceWaiting holder_with_queue.
Proof.
  apply (release_message_drains_queue code_order
           (ControlMessage.mk RELEASE "B" 1) holder_with_queue).
  reflexivity.
Defined.
End FurtherExamples.

Section FurtherReplicaExamples.
Import Logger Replicator Reconciler.

Lemma saveMessage_writes_example :
  let order := reverse (saveMessage three_replicas m2) in
  let dir : gmap string Message.t := <["m1.json" := m1]> ∅ in
  ∃ dir', complete 255 three_replicas order divergent !! 1%nat = Some dir'
    ∧ (∀ f, f ≠ Message.id m2 +:+ ".json" → dir' !! f = dir !! f)
    ∧ dir' !! (Message.id m2 +:+ ".json")
      = if decide (1 ≤ 1 ≤ replicasNumber three_replicas)%nat then Some m2
        else dir !! (Message.id m2 +:+ ".json").
Proof.
  intros order dir.
  apply (saveMessage_writes_one_file_per_replica 255 three_replicas m2 order
           divergent 1%nat dir).
  - reflexivity.
  - by vm_compute.
  - apply reverse_Permutation.
  - by vm_compute.
Defined.


Lemma reconcile_resubmits_example :
  let w := mkWrite 2 "m2.json" m2 in
  (1 ≤ replica w ≤ replicasNumber three_replicas)%nat
  ∧ file w = Message.id (content w) +:+ ".json"
  ∧ (∃ j, (1 ≤ j ≤ replicasNumber three_replicas)%nat
          ∧ content w ∈ getReplicaMessage listing divergent j)
  ∧ ∀ i m, (1 ≤ i ≤ replicasNumber three_replicas)%nat →
           m ∈ getReplicaMessage listing divergent i →
           Message.id m = Message.id (content w) →
           Message.timestamp m ≤ Message.timestamp (content w).
Proof.
  intros w.
  apply (reconcile_resubmits_newest_version listing three_replicas divergent w).
  vm_compute. repeat constructor.
Defined.

(** Two replicas that both hold [m1]. *)
Definition two_replicas : Replicator.t :=
  Replicator.mk "/srv/chat/replicas" 2 1000.

Definition consistent : gmap nat (gmap string Message.t) :=
  complete 255 two_replicas (saveMessage two_replicas m1)
           (initializeReplicas two_replicas ∅).

Lemma reconcile_of_consistent_replicas_example :
  reconcile listing two_replicas consistent
  = ([], [(INFO, StartingReconciliation); (INFO, NoInconsistencies)]).
Proof.
  apply (reconcile_of_consistent_replicas listing two_replicas consistent).
  intros i j Hi Hj. change (replicasNumber two_replicas) with 2%nat in Hi, Hj.
  assert (i = 1 ∨ i = 2)%nat as [-> | ->] by lia;
    assert (j = 1 ∨ j = 2)%nat as [-> | ->] by lia; by vm_compute.
Defined.
End FurtherReplicaExamples.

Section FurtherCheckpointExamples.
Import Logger CheckpointManager.

Lemma own_rows_one_checkpoint : own_rows (nodId one_checkpoint) (db one_checkpoint).
Proof.
  intros row Hrow. rewrite one_checkpoint_rows in Hrow.
  apply list_elem_of_singleton in Hrow as ->. split; by vm_compute.
Qed.

Lemma createCheckpoint_fails_example :
  let r := createCheckpoint Json.stringify_messages [m1] 1730000000000 one_checkpoint in
  (returned r = "" ↔ 1730000000000 ∈ map Row.timestamp (db one_checkpoint))
  ∧ r = ("", one_checkpoint,
         [(ERROR, ErrorCreatingCheckpoint
                    "SqliteError: UNIQUE constraint failed: checkpoints.id")]).
Proof.
  apply (createCheckpoint_fails_iff_millisecond_taken Json.stringify_messages
           [m1] 1730000000000 one_checkpoint).
  apply own_rows_one_checkpoint.
Defined.

Lemma getLastCheckpoint_returns_newest_example :
  let checkpoint := Checkpoint.mk "node-1-1730000000000" [] 1730000000000 in
  ∃ row, row ∈ db one_checkpoint ∧ Row.node_id row = nodId one_checkpoint
    ∧ Checkpoint.id checkpoint = Row.id row
    ∧ Checkpoint.timestamp checkpoint = Row.timestamp row
    ∧ Json.parse_messages (Row.data row) = Normal (Checkpoint.messages checkpoint)
    ∧ ∀ other, other ∈ db one_checkpoint → Row.node_id other = nodId one_checkpoint →
               Row.timestamp other ≤ Checkpoint.timestamp checkpoint.
Proof.
  intros checkpoint.
  apply (getLastCheckpoint_returns_newest Json.parse_messages one_checkpoint checkpoint).
  by vm_compute.
Defined.

(** A table whose only row holds text that is not JSON. *)
Definition bad_row : Row.t := Row.mk "node-1-5" "node-1" 5 "oops".

Lemma one_bad_row_example :
  ∃ e', CheckpointListing.listCheckpoints Json.parse_messages
          (CheckpointManager.mk "node-1" [bad_row])
        = ([], [(ERROR, "Error listing checkpoints: " +:+ e')]).
Proof.
  apply (one_bad_row_empties_the_list Json.parse_messages
           (CheckpointManager.mk "node-1" [bad_row]) bad_row
           "SyntaxError: Unexpected token").
  - by left.
  - reflexivity.
  - by vm_compute.
Defined.

(** The socket on the path from an inbound message: bound, so that
    [multicast.stop()] returns; closed by it, so that [multicast.start()]
    throws. *)
Definition not_running : Completion unit :=
  Throw "Error [ERR_SOCKET_DGRAM_NOT_RUNNING]: Not running".

Lemma crash_then_restart_example :
  let s := Node.mk [m1; m2] one_checkpoint in
  let crash := Node.simulateCrash Json.stringify_messages (Normal tt)
                 1730000000001 s in
  db (Node.checkpointManager (Node.state crash))
  = db one_checkpoint
    ++ [checkpoint_row Json.stringify_messages [m1; m2] 1730000000001 one_checkpoint]
  ∧ Node.completion crash = Normal tt
    ∧ Node.receivedMessages (Node.state crash) = []
    ∧ last (Node.calls crash) = Some (Node.SetTimeoutRestart 2000)
    ∧ let back := Node.restart Json.parse_messages not_running (Node.state crash) in
      Node.receivedMessages (Node.state back) = [m1; m2]
      ∧ Node.completion back = not_running
        ∧ (Node.ReconcilerStart ∉ Node.calls back)
        ∧ (Node.CheckpointManagerInit ∉ Node.calls back).
Proof.
  intros s.
  apply (crash_then_restart_restores_log Json.stringify_messages Json.parse_messages
           (Normal tt) not_running 1730000000001 s).
  - by vm_compute.
  - apply own_rows_one_checkpoint.
  - intros row Hrow. cbn [Node.checkpointManager s] in Hrow.
    rewrite one_checkpoint_rows in Hrow.
    apply list_elem_of_singleton in Hrow as ->. by vm_compute.
Defined.

Lemma processMessage_example :
  let s := Node.mk [m1] one_checkpoint in
  let coordinator : ControlMessage.t → Node.t → Node.Result :=
    λ control s, (Normal tt, s, [Node.MutualExclusionProcessMessage control]) in
  let r := Node.processMessage Json.stringify_messages (Normal tt) coordinator
             true 1730000000001 (inl m2) s in
  NoDup (map Message.id (Node.receivedMessages (Node.state r)))
  ∧ Node.receivedMessages (Node.state r) = []
    ∧ ∃ rest, Node.calls r = Node.Display m2 :: Node.ReplicatorSaveMessage m2 :: rest
              ∧ (∀ m', Node.ReplicatorSaveMessage m' ∉ rest).
Proof.
  intros s coordinator.
  apply (processMessage_keeps_ids_unique Json.stringify_messages (Normal tt)
           coordinator true 1730000000001 (inl m2) s).
  apply NoDup_singleton.
Defined.
End FurtherCheckpointExamples.

Section FurtherPlatformExamples.
Import Logger MulticastCommunicator.

Lemma stop_after_start_example :
  let s := Lifecycle.mk None 10000
             (Timers.mk 1 [(0%nat, Timers.CreateCheckpoint, 30000)]) in
  let s1 := (Lifecycle.start Timers.Reconcile s).1 in
  let s2 := (Lifecycle.stop Timers.Reconcile s1).1 in
  Timers.running (Lifecycle.timers s1)
  = Timers.running (Lifecycle.timers s)
    ++ [(Timers.next (Lifecycle.timers s), Timers.Reconcile, Lifecycle.period s)]
  ∧ Timers.running (Lifecycle.timers s2) = Timers.running (Lifecycle.timers s)
  ∧ Lifecycle.intervalId s2 = None
  ∧ Lifecycle.stop Timers.Reconcile s2 = (s2, []).
Proof.
  intros s.
  apply (stop_after_start_clears_the_interval Timers.Reconcile s).
  repeat constructor.
Defined.

Lemma getTimestamp_example :
  LogFilter.getTimestamp
    ("2024-11-02" +:+ String (Ascii.ascii_of_N 84) ("10:20:30" +:+ ".123Z"))
  = "2024-11-02" +:+ String (Ascii.ascii_of_N 32) "10:20:30".
Proof.
  apply (getTimestamp_of_ISO_text "2024-11-02" "10:20:30" ".123Z").
  - reflexivity.
  - intros c Hc. cbn in Hc. intuition (subst; discriminate).
  - reflexivity.
Defined.

Definition request_of_node_2 : Message.t + ControlMessage.t :=
  inr (ControlMessage.mk REQUEST "node-2" 1).

Lemma sent_message_example :
  let text := (MulticastOutbound.sendMessage Json.stringify
                 (payload request_of_node_2) None).1 in
  let r := on_message "node-1" (λ _, Normal tt) Json.parse text "192.168.0.7:5007" in
  if bool_decide (sender request_of_node_2 = "node-1") then r = (Normal tt, [])
  else dispatched r.2 = [payload request_of_node_2].
Proof.
  apply (sent_message_reaches_the_other_nodes "node-1" (λ _, Normal tt)
           Json.parse Json.stringify request_of_node_2 None "192.168.0.7:5007").
  by vm_compute.
Defined.

Lemma handler_exception_example :
  let data := payload request_of_node_2 in
  on_message "node-1" (λ _, Throw "Error: not ready") Json.parse
    (Json.stringify data) "192.168.0.7:5007"
  = (Normal tt,
     [Log DEBUG (ReceivedMessage "192.168.0.7:5007" (Json.stringify data));
      MessageCallback data;
      Log ERROR (ErrorProcessingMessage "Error: not ready")]).
Proof.
  intros data.
  apply (handler_exception_is_logged "node-1" (λ _, Throw "Error: not ready")
           Json.parse (Json.stringify data) "192.168.0.7:5007" data "Error: not ready").
  - by vm_compute.
  - discriminate.
  - by vm_compute.
  - reflexivity.
Defined.
End FurtherPlatformExamples.
